(** * muad: verification of the pipeline orchestration core

    A shallow embedding of the dependency resolver, the context and
    template engine, the pseudo-terminal prompt automation, the promise
    pool, the terminal text utilities, the key normaliser and the
    planning of the [install] command of the muad provisioning tool,
    together with the properties its specification states about them
    and further properties that the code shows.

    Conventions of the embedding:
    - a JavaScript string is the list of its UTF-16 code units;
    - a JavaScript [Map] or [Set] whose iteration order is observable is an
      association list (resp. a duplicate-free list) in insertion order;
      a [Set] used for membership only is a [gset];
    - an object is the list of its own properties in insertion order; of
      what it inherits the embedding keeps the names of the members of
      [Object.prototype], which the [in] operator finds, not their values;
    - a number is an integer, and stands for a JavaScript number when it
      is a safe integer;
    - a function that throws returns [Throw e] in the [Result] type;
    - a loop whose termination is not structural takes a fuel argument and
      returns [None] when it runs out; the theorems show that the fuel the
      embedding supplies always suffices. *)

From Stdlib Require Import ZArith Ascii String DecimalString.
From stdpp Require Import base option list strings gmap sets relations.

#[local] Set Warnings "-clear-no-such-hyp,-register-all".

Open Scope Z_scope.

(* ================================================================== *)
(** ** Part I. Definitions                                             *)
(* ================================================================== *)

(** *** JavaScript strings *)

(** A string is a sequence of UTF-16 code units. *)
Abbreviation jsstring := (list N).

(** Code units of an ASCII literal. *)
Definition js (s : string) : jsstring :=
  (fun a : ascii => N_of_ascii a) <$> list_ascii_of_string s.

(** [Array.prototype.join]. *)
Fixpoint join (sep : jsstring) (parts : list jsstring) : jsstring :=
  match parts with
  | [] => []
  | [p] => p
  | p :: rest => p ++ sep ++ join sep rest
  end.

(** [" → "]: a space, U+2192 and a space. *)
Definition arrow_sep : jsstring := [32%N; 8594%N; 32%N].

(** *** Errors and results *)

(** The error classes of the program; [ShellError] is the error of the
    Bun shell, whose text is what the command wrote to standard error. *)
Inductive ErrorName : Type :=
| Error
| DependencyError
| ContextError
| TemplateError
| ShellError.

Record JsError : Type := mkError {
  err_name : ErrorName;
  err_message : jsstring
}.

#[global] Instance ErrorName_eq_dec : EqDecision ErrorName.
Proof. solve_decision. Defined.

#[global] Instance JsError_eq_dec : EqDecision JsError.
Proof. solve_decision. Defined.

Inductive Result (A : Type) : Type :=
| Ok (a : A)
| Throw (e : JsError).
Arguments Ok {A} a.
Arguments Throw {A} e.

Definition is_Ok {A} (r : Result A) : bool :=
  match r with Ok _ => true | Throw _ => false end.

Definition throws {A} (n : ErrorName) (r : Result A) : Prop :=
  match r with Ok _ => False | Throw e => err_name e = n end.

(** *** Insertion-ordered maps and sets ([Map], [Set]) *)

Section JsMap.
Context {K V : Type} `{EqDecision K}.

Fixpoint map_get (k : K) (m : list (K * V)) : option V :=
  match m with
  | [] => None
  | (k', v) :: m' => if decide (k = k') then Some v else map_get k m'
  end.

Definition map_has (k : K) (m : list (K * V)) : bool :=
  match map_get k m with Some _ => true | None => false end.

(** [Map.prototype.set]: an existing key keeps its position. *)
Fixpoint map_set (k : K) (v : V) (m : list (K * V)) : list (K * V) :=
  match m with
  | [] => [(k, v)]
  | (k', v') :: m' =>
      if decide (k = k') then (k, v) :: m' else (k', v') :: map_set k v m'
  end.

Definition map_keys (m : list (K * V)) : list K := fst <$> m.

(** [Set.prototype.add] on an insertion-ordered set. *)
Definition set_add (x : K) (s : list K) : list K :=
  if decide (x ∈ s) then s else s ++ [x].

End JsMap.

(** *** Elements (schema.ts) *)

Record Metadata : Type := mkMetadata {
  version : option jsstring;
  dependencies : option (list jsstring)
}.

(** The pipeline of an element plays no part in dependency resolution; a
    step is kept as its tool name. *)
Record Element : Type := mkElement {
  name : jsstring;
  metadata : option Metadata;
  pipeline : list jsstring
}.

(** [element.metadata?.dependencies || []] *)
Definition deps_of (e : Element) : list jsstring :=
  match metadata e with
  | Some m => match dependencies m with Some d => d | None => [] end
  | None => []
  end.

(** *** DependencyResolver (dependency-resolver.ts) *)

Record DependencyResolver : Type := mkResolver {
  elements : list Element;
  elementMap : list (jsstring * Element);
  adjacencyList : list (jsstring * list jsstring);
  inDegree : list (jsstring * Z)
}.

(** A name between double quotes (code unit 34). *)
Definition quote (s : jsstring) : jsstring := [34%N] ++ s ++ [34%N].

(** [buildElementMap]: the loop over [this.elements]. *)
Fixpoint buildElementMap (els : list Element) (m : list (jsstring * Element))
  : Result (list (jsstring * Element)) :=
  match els with
  | [] => Ok m
  | element :: rest =>
      if map_has (name element) m
      then Throw (mkError DependencyError
                    (js "Duplicate element name: " ++ quote (name element)))
      else buildElementMap rest (map_set (name element) element m)
  end.

(** The inner loop of [validateDependencies] over one element's
    dependencies. *)
Fixpoint validateDependencies_of (m : list (jsstring * Element))
    (element : Element) (deps : list jsstring) : Result unit :=
  match deps with
  | [] => Ok tt
  | depName :: rest =>
      if decide (depName = name element)
      then Throw (mkError DependencyError
                    (js "Element " ++ quote (name element)
                       ++ js " cannot depend on itself"))
      else if negb (map_has depName m)
      then Throw (mkError DependencyError
                    (js "Element " ++ quote (name element)
                       ++ js " depends on " ++ quote depName
                       ++ js " which does not exist"))
      else validateDependencies_of m element rest
  end.

Fixpoint validateDependencies (m : list (jsstring * Element))
    (els : list Element) : Result unit :=
  match els with
  | [] => Ok tt
  | element :: rest =>
      match validateDependencies_of m element (deps_of element) with
      | Ok _ => validateDependencies m rest
      | Throw e => Throw e
      end
  end.

(** First loop of [buildGraph]: every element gets an empty neighbour set
    and in-degree 0. *)
Fixpoint buildGraph_init (els : list Element)
    (g : list (jsstring * list jsstring) * list (jsstring * Z))
  : list (jsstring * list jsstring) * list (jsstring * Z) :=
  match els with
  | [] => g
  | element :: rest =>
      buildGraph_init rest
        (map_set (name element) [] g.1, map_set (name element) 0 g.2)
  end.

(** Body of the inner loop of [buildGraph] for one dependency name:
    [adjacencyList.get(depName)?.add(element.name)] and the increment of
    the element's in-degree. *)
Definition buildGraph_edge (element : Element)
    (g : list (jsstring * list jsstring) * list (jsstring * Z))
    (depName : jsstring)
  : list (jsstring * list jsstring) * list (jsstring * Z) :=
  (match map_get depName g.1 with
   | Some s => map_set depName (set_add (name element) s) g.1
   | None => g.1
   end,
   map_set (name element) (default 0 (map_get (name element) g.2) + 1) g.2).

(** Second loop of [buildGraph]. *)
Fixpoint buildGraph_edges (els : list Element)
    (g : list (jsstring * list jsstring) * list (jsstring * Z))
  : list (jsstring * list jsstring) * list (jsstring * Z) :=
  match els with
  | [] => g
  | element :: rest =>
      buildGraph_edges rest (foldl (buildGraph_edge element) g (deps_of element))
  end.

Definition buildGraph (els : list Element)
  : list (jsstring * list jsstring) * list (jsstring * Z) :=
  buildGraph_edges els (buildGraph_init els ([], [])).

(** The constructor. *)
Definition new_DependencyResolver (els : list Element) : Result DependencyResolver :=
  match buildElementMap els [] with
  | Throw e => Throw e
  | Ok m =>
      match validateDependencies m els with
      | Throw e => Throw e
      | Ok _ =>
          let g := buildGraph els in
          Ok (mkResolver els m g.1 g.2)
      end
  end.

(** [getIndependentElements] *)
Definition getIndependentElements (r : DependencyResolver) : list Element :=
  filter (fun element => length (deps_of element) = 0%nat) (elements r).

(** Body of the loop over the neighbours of the dequeued node in
    [topologicalSort]; the state is the in-degree map and the queue. *)
Definition relax (st : list (jsstring * Z) * list jsstring) (neighbor : jsstring)
  : list (jsstring * Z) * list jsstring :=
  let newDegree := default 0 (map_get neighbor st.1) - 1 in
  (map_set neighbor newDegree st.1,
   if decide (newDegree = 0) then st.2 ++ [neighbor] else st.2).

(** The [while (queue.length > 0)] loop of [topologicalSort].  A queue
    entry is always a key of [elementMap]; the embedding stops with [None]
    on an entry that is not, as it does when the fuel runs out. *)
Fixpoint topologicalSort_loop (fuel : nat) (r : DependencyResolver)
    (queue : list jsstring) (deg : list (jsstring * Z)) (result : list Element)
  : option (list Element * list (jsstring * Z)) :=
  match queue with
  | [] => Some (result, deg)
  | current :: queue' =>
      match fuel with
      | O => None
      | S fuel' =>
          match map_get current (elementMap r) with
          | None => None
          | Some element =>
              let neighbors := default [] (map_get current (adjacencyList r)) in
              let st := foldl relax (deg, queue') neighbors in
              topologicalSort_loop fuel' r st.2 st.1 (result ++ [element])
          end
      end
  end.

(** [topologicalSort]: returns the order and the resolver with its
    in-degree map as the loop left it. *)
Definition topologicalSort (r : DependencyResolver)
  : option (list Element * DependencyResolver) :=
  let queue := fst <$> filter (fun kd => kd.2 = 0) (inDegree r) in
  match topologicalSort_loop (length (inDegree r)) r queue (inDegree r) [] with
  | None => None
  | Some (result, deg) =>
      Some (result, mkResolver (elements r) (elementMap r) (adjacencyList r) deg)
  end.

(** State of [detectCycle]: the three locals the closure [dfs] mutates. *)
Record DfsState : Type := mkDfs {
  visited : gset jsstring;
  recursionStack : gset jsstring;
  path : list jsstring
}.

(** [Array.prototype.indexOf], [-1] as [None]. *)
Fixpoint indexOf (x : jsstring) (l : list jsstring) : option nat :=
  match l with
  | [] => None
  | y :: l' => if decide (x = y) then Some O else S <$> indexOf x l'
  end.

(** [path.slice(path.indexOf(node))]; [slice(-1)] keeps the last entry. *)
Definition slice_from_indexOf (node : jsstring) (p : list jsstring) : list jsstring :=
  match indexOf node p with
  | Some i => drop i p
  | None => drop (length p - 1)%nat p
  end.

(** The names of the cycle closed by the back edge to [node]. *)
Definition cycle_names (node : jsstring) (p : list jsstring) : list jsstring :=
  slice_from_indexOf node p ++ [node].

(** [this.elementMap.get(node)?.metadata?.dependencies || []] *)
Definition deps_of_name (r : DependencyResolver) (node : jsstring) : list jsstring :=
  match map_get node (elementMap r) with
  | Some e => deps_of e
  | None => []
  end.

(** A string is truthy when it is not empty. *)
Definition truthy_string (s : jsstring) : bool :=
  match s with [] => false | _ => true end.

(** The [for (const dep of dependencies)] loop inside [dfs]; [rec] is the
    recursive call. *)
Fixpoint dfs_deps (rec : jsstring → DfsState → option (option jsstring * DfsState))
    (deps : list jsstring) (s : DfsState) : option (option jsstring * DfsState) :=
  match deps with
  | [] => Some (None, s)
  | dep :: deps' =>
      match rec dep s with
      | None => None
      | Some (Some cycleFound, s') =>
          if truthy_string cycleFound
          then Some (Some cycleFound, s')
          else dfs_deps rec deps' s'
      | Some (None, s') => dfs_deps rec deps' s'
      end
  end.

(** The closure [dfs] of [detectCycle]; [None] is fuel exhaustion, the
    inner [option] is [string | null]. *)
Fixpoint dfs (fuel : nat) (r : DependencyResolver) (node : jsstring) (st : DfsState)
  : option (option jsstring * DfsState) :=
  match fuel with
  | O => None
  | S fuel' =>
      if decide (node ∈ recursionStack st)
      then Some (Some (join arrow_sep (cycle_names node (path st))), st)
      else if decide (node ∈ visited st)
      then Some (None, st)
      else
        let st1 := mkDfs ({[node]} ∪ visited st) ({[node]} ∪ recursionStack st)
                         (path st ++ [node]) in
        match dfs_deps (dfs fuel' r) (deps_of_name r node) st1 with
        | None => None
        | Some (Some cycleFound, s') => Some (Some cycleFound, s')
        | Some (None, s') =>
            Some (None, mkDfs (visited s') (recursionStack s' ∖ {[node]})
                              (removelast (path s')))
        end
  end.

(** The loop of [detectCycle] over [this.elementMap.keys()]. *)
Fixpoint detectCycle_loop (fuel : nat) (r : DependencyResolver)
    (keys : list jsstring) (st : DfsState) : option jsstring :=
  match keys with
  | [] => Some (js "Unknown cycle detected")
  | elementName :: keys' =>
      if decide (elementName ∈ visited st)
      then detectCycle_loop fuel r keys' st
      else
        match dfs fuel r elementName st with
        | None => None
        | Some (Some cycle, st') =>
            if truthy_string cycle then Some cycle
            else detectCycle_loop fuel r keys' st'
        | Some (None, st') => detectCycle_loop fuel r keys' st'
        end
  end.

Definition detectCycle (r : DependencyResolver) : option jsstring :=
  detectCycle_loop (S (length (elementMap r))) r (map_keys (elementMap r))
    (mkDfs ∅ ∅ []).

(** [resolveExecutionOrder]: the outcome and the resolver after the call
    ([topologicalSort] updates [this.inDegree] in place). *)
Definition resolveExecutionOrder (r : DependencyResolver)
  : option (Result (list Element) * DependencyResolver) :=
  match topologicalSort r with
  | None => None
  | Some (result, r') =>
      if decide (length result ≠ length (elements r))
      then
        match detectCycle r' with
        | None => None
        | Some cycle =>
            Some (Throw (mkError DependencyError
                           (js "Circular dependency detected: " ++ cycle)), r')
        end
      else Some (Ok result, r')
  end.

(** Construction followed by one call of [resolveExecutionOrder], as the
    install command does. *)
Definition resolve (els : list Element) : option (Result (list Element)) :=
  match new_DependencyResolver els with
  | Throw e => Some (Throw e)
  | Ok r => fst <$> resolveExecutionOrder r
  end.

(** *** Character classes and string helpers *)

(** [a-z], [A-Z], [0-9] and the regular-expression classes [\w], [\s]. *)
Definition is_lower (c : N) : bool := ((97 <=? c) && (c <=? 122))%N.
Definition is_upper (c : N) : bool := ((65 <=? c) && (c <=? 90))%N.
Definition is_digit (c : N) : bool := ((48 <=? c) && (c <=? 57))%N.
Definition is_alnum (c : N) : bool := is_lower c || is_upper c || is_digit c.
Definition is_word (c : N) : bool := is_alnum c || (c =? 95)%N.

(** [\s]: white space and line terminators of ECMAScript. *)
Definition is_space (c : N) : bool :=
  (((9 <=? c) && (c <=? 13)) || (c =? 32) || (c =? 160) || (c =? 5760)
   || ((8192 <=? c) && (c <=? 8202)) || (c =? 8232) || (c =? 8233)
   || (c =? 8239) || (c =? 8287) || (c =? 12288) || (c =? 65279))%N.

(** The class [[\w.]] of the template expressions. *)
Definition is_pathchar (c : N) : bool := is_word c || (c =? 46)%N.

(** The longest prefix whose code units satisfy [p], and the rest. *)
Fixpoint span (p : N → bool) (s : jsstring) : jsstring * jsstring :=
  match s with
  | [] => ([], [])
  | c :: s' => if p c then let '(a, b) := span p s' in (c :: a, b) else ([], s)
  end.

(** [s] without the prefix [pre], when it starts with it. *)
Fixpoint strip_prefix (pre s : jsstring) : option jsstring :=
  match pre with
  | [] => Some s
  | c :: pre' =>
      match s with
      | [] => None
      | d :: s' => if decide (c = d) then strip_prefix pre' s' else None
      end
  end.

(** [String.prototype.split] with a one-unit separator. *)
Fixpoint split_on (sep : N) (s : jsstring) : list jsstring :=
  match s with
  | [] => [[]]
  | c :: s' =>
      if decide (c = sep) then [] :: split_on sep s'
      else match split_on sep s' with
           | p :: ps => (c :: p) :: ps
           | [] => [[c]]
           end
  end.

(** [key.split('.')] *)
Definition split_dot (key : jsstring) : list jsstring := split_on 46%N key.

(** First occurrence of [pat] in [s]: the text before and after it. *)
Fixpoint find_sub (pat s : jsstring) : option (jsstring * jsstring) :=
  match strip_prefix pat s with
  | Some after => Some ([], after)
  | None =>
      match s with
      | [] => None
      | c :: s' =>
          match find_sub pat s' with
          | Some (before, after) => Some (c :: before, after)
          | None => None
          end
      end
  end.

(** [String.prototype.includes] and [endsWith]. *)
Definition includes (s pat : jsstring) : bool :=
  match find_sub pat s with Some _ => true | None => false end.

Definition endsWith (s suffix : jsstring) : bool :=
  match strip_prefix (reverse suffix) (reverse s) with
  | Some _ => true
  | None => false
  end.

(** The replacement text of [String.prototype.replace] for a string
    pattern (no capture groups): [$$] is a dollar sign, [$&] the matched
    text, [$`] the text before the match, [$'] the text after it; any
    other [$] stands for itself. *)
Fixpoint expand_replacement (repl matched before after : jsstring) : jsstring :=
  match repl with
  | [] => []
  | c :: repl' =>
      if decide (c = 36%N) then
        match repl' with
        | d :: repl'' =>
            if decide (d = 36%N) then 36%N :: expand_replacement repl'' matched before after
            else if decide (d = 38%N) then matched ++ expand_replacement repl'' matched before after
            else if decide (d = 96%N) then before ++ expand_replacement repl'' matched before after
            else if decide (d = 39%N) then after ++ expand_replacement repl'' matched before after
            else c :: expand_replacement repl' matched before after
        | [] => [c]
        end
      else c :: expand_replacement repl' matched before after
  end.

(** [s.replace(pat, repl)] with string arguments: the first occurrence
    only. *)
Definition replace_first (s pat repl : jsstring) : jsstring :=
  match find_sub pat s with
  | None => s
  | Some (before, after) =>
      before ++ expand_replacement repl pat before after ++ after
  end.

(** *** Values *)

(** JavaScript values as far as the context engine tells them apart.
    [VNum n] is the number [n]; it stands for a JavaScript number when
    [n] is a safe integer (see [is_safe_integer]).  An object is the list
    of its own properties in insertion order; what it inherits from
    [Object.prototype] is named by [Object_prototype_keys] below. *)
Inductive value : Type :=
| VUndefined
| VNull
| VBool (b : bool)
| VNum (n : Z)
| VStr (s : jsstring)
| VArr (items : list value)
| VObj (props : list (jsstring * value)).

(** [Number.isSafeInteger]: the integers that a double holds exactly,
    which [String] prints in decimal notation. *)
Definition is_safe_integer (n : Z) : bool :=
  (- (2 ^ 53 - 1) <=? n) && (n <=? 2 ^ 53 - 1).

(** [String(value)] for a primitive other than [undefined]: decimal
    notation for the safe integers. *)
Definition String_of_primitive (v : value) : option jsstring :=
  match v with
  | VStr s => Some s
  | VNull => Some (js "null")
  | VBool true => Some (js "true")
  | VBool false => Some (js "false")
  | VNum n => Some (js (NilZero.string_of_int (Z.to_int n)))
  | VUndefined | VArr _ | VObj _ => None
  end.

(** The names of the properties of [Object.prototype], which an object
    made by a literal, by a spread or by [JSON.parse] inherits. *)
Definition Object_prototype_keys : list jsstring :=
  [js "constructor"; js "hasOwnProperty"; js "isPrototypeOf";
   js "propertyIsEnumerable"; js "toLocaleString"; js "toString";
   js "valueOf"; js "__proto__"; js "__defineGetter__";
   js "__defineSetter__"; js "__lookupGetter__"; js "__lookupSetter__"].

(** [key in obj] for such an object: an own property or an inherited
    one. *)
Definition has_in (key : jsstring) (obj : list (jsstring * value)) : bool :=
  map_has key obj || bool_decide (key ∈ Object_prototype_keys).

(** [obj[key] = val] on such an object: the own property is set, except
    for the key [__proto__], where the assignment goes to the accessor
    inherited from [Object.prototype] and leaves the own properties as
    they are. *)
Definition assign_prop (key : jsstring) (val : value)
    (obj : list (jsstring * value)) : list (jsstring * value) :=
  if decide (key = js "__proto__") then obj else map_set key val obj.

(** [obj[k]] on own properties. *)
Definition prop (obj : value) (k : jsstring) : value :=
  match obj with
  | VObj props => default VUndefined (map_get k props)
  | _ => VUndefined
  end.

(** Modelled from the spec: [dlv] (the npm package of that name, imported
    by context.ts and not under src/) is the read-only dot-path traversal
    into a nested structure; an absent path yields [undefined]. *)
Fixpoint dlv_keys (obj : value) (keys : list jsstring) : value :=
  match keys with
  | [] => obj
  | k :: keys' => dlv_keys (prop obj k) keys'
  end.

Definition dlv (props : list (jsstring * value)) (key : jsstring) : value :=
  dlv_keys (VObj props) (split_dot key).

(** The properties of a nested container, empty when there is none. *)
Definition container (v : option value) : list (jsstring * value) :=
  match v with
  | Some (VObj props) => props
  | _ => []
  end.

(** Modelled from the spec: [dset] (the npm package of that name, imported
    by context.ts and not under src/) stores a value at a dot-path in a
    nested structure: writing ["a.b"] creates nested containers, not a
    literal key containing a dot. *)
Fixpoint dset_keys (props : list (jsstring * value)) (keys : list jsstring)
    (val : value) : list (jsstring * value) :=
  match keys with
  | [] => props
  | k :: keys' =>
      match keys' with
      | [] => map_set k val props
      | _ :: _ => map_set k (VObj (dset_keys (container (map_get k props)) keys' val)) props
      end
  end.

Definition dset (props : list (jsstring * value)) (key : jsstring) (val : value)
  : list (jsstring * value) :=
  dset_keys props (split_dot key) val.

(** *** Context engine (context.ts) *)

(** [/^[a-z][a-zA-Z0-9]*$/.test(key)] *)
Definition validateCamelCase (key : jsstring) : bool :=
  match key with
  | [] => false
  | c :: rest => is_lower c && forallb is_alnum rest
  end.

(** The first path segment that is not camelCase, as the validation loops
    of [set] and [processTemplate] find it. *)
Definition first_invalid_part (parts : list jsstring) : option jsstring :=
  head (filter (fun part => validateCamelCase part = false) parts).

Definition invalid_key_message (part : jsstring) : jsstring :=
  js "Invalid key format: " ++ quote part ++ js ". Keys must be camelCase.".

Record RuntimeContext : Type := mkRuntime {
  rt_data : list (jsstring * value);
  assignedKeys : list jsstring;
  readonlyKeys : gset jsstring
}.

(** [new RuntimeContext(readonlyKeys)] *)
Definition new_RuntimeContext (keys : list jsstring) : RuntimeContext :=
  mkRuntime [] [] (list_to_set keys).

(** [RuntimeContext.set].  The modelled [dset] never throws, so the
    [catch] clause around it has no counterpart. *)
Definition RuntimeContext_set (key : jsstring) (val : value) (c : RuntimeContext)
  : Result RuntimeContext :=
  match first_invalid_part (split_dot key) with
  | Some part => Throw (mkError ContextError (invalid_key_message part))
  | None =>
      if decide (key ∈ readonlyKeys c)
      then Throw (mkError ContextError
                    (js "Cannot set runtime variable " ++ quote key
                       ++ js ": conflicts with readonly context variable"))
      else if decide (key ∈ assignedKeys c)
      then Throw (mkError ContextError
                    (js "Key " ++ quote key ++ js " already exists in runtime context"))
      else Ok (mkRuntime (dset (rt_data c) key val)
                         (set_add key (assignedKeys c))
                         (readonlyKeys c))
  end.

(** [RuntimeContext.get], [has] and [clear]. *)
Definition RuntimeContext_get (key : jsstring) (c : RuntimeContext) : value :=
  dlv (rt_data c) key.

Definition RuntimeContext_has (key : jsstring) (c : RuntimeContext) : bool :=
  match dlv (rt_data c) key with VUndefined => false | _ => true end.

Definition RuntimeContext_clear (c : RuntimeContext) : RuntimeContext :=
  mkRuntime [] [] (readonlyKeys c).

(** [resolvePath]: the literal key first, then the nested traversal.
    The look-up is the one along own properties: a path that only an
    inherited member answers (as [toString] does, or [length] below a
    string) is outside this definition, see [resolves_own]. *)
Definition resolvePath (context : list (jsstring * value)) (path : jsstring) : value :=
  match map_get path context with
  | Some v => v
  | None => dlv context path
  end.

(** One match of [/\$\{\{\s*([\w.]+)\s*\}\}/] at the start of [s]: the
    matched text and the captured path.  The classes [\s], [[\w.]] and
    the brace are pairwise disjoint, so the greedy reading is the only
    one. *)
Definition match_template_at (s : jsstring) : option (jsstring * jsstring) :=
  match strip_prefix (js "${{") s with
  | None => None
  | Some s1 =>
      let '(ws1, s2) := span is_space s1 in
      let '(variablePath, s3) := span is_pathchar s2 in
      match variablePath with
      | [] => None
      | _ :: _ =>
          let '(ws2, s4) := span is_space s3 in
          match strip_prefix (js "}}") s4 with
          | None => None
          | Some _ =>
              Some (js "${{" ++ ws1 ++ variablePath ++ ws2 ++ js "}}", variablePath)
          end
      end
  end.

(** The successive results of [templateRegex.exec(template)]: [skip]
    counts the code units of the last match still to pass over. *)
Fixpoint template_matches (skip : nat) (s : jsstring) : list (jsstring * jsstring) :=
  match s with
  | [] => []
  | _ :: s' =>
      match skip with
      | S k => template_matches k s'
      | O =>
          match match_template_at s with
          | Some (fullMatch, variablePath) =>
              (fullMatch, variablePath)
                :: template_matches (length fullMatch - 1)%nat s'
          | None => template_matches O s'
          end
      end
  end.

(** [/^\$>\{\{\s*[\w.]+\s*\}\}$/.test(str)] *)
Definition isAssignmentExpression (str : jsstring) : bool :=
  match strip_prefix (js "$>{{") str with
  | None => false
  | Some s1 =>
      let '(_, s2) := span is_space s1 in
      let '(path, s3) := span is_pathchar s2 in
      match path with
      | [] => false
      | _ :: _ =>
          let '(_, s4) := span is_space s3 in
          bool_decide (s4 = js "}}")
      end
  end.

(** [parseAssignmentExpression] *)
Definition parseAssignmentExpression (expr : jsstring) : option jsstring :=
  match strip_prefix (js "$>{{") expr with
  | None => None
  | Some s1 =>
      let '(_, s2) := span is_space s1 in
      let '(path, s3) := span is_pathchar s2 in
      match path with
      | [] => None
      | _ :: _ =>
          let '(_, s4) := span is_space s3 in
          if bool_decide (s4 = js "}}") then Some path else None
      end
  end.

(** [typeof value === 'object' && value !== null] *)
Definition is_object (v : value) : bool :=
  match v with VArr _ | VObj _ => true | _ => false end.

(** The body of the [while] loop of [processTemplate] over the matches:
    [value === undefined] and the object test throw, any other value is
    a primitive and is substituted as [String(value)]. *)
Fixpoint expand_matches (mergedContext : list (jsstring * value))
    (ms : list (jsstring * jsstring)) (result : jsstring) : Result jsstring :=
  match ms with
  | [] => Ok result
  | (fullMatch, variablePath) :: ms' =>
      match first_invalid_part (split_dot variablePath) with
      | Some part => Throw (mkError TemplateError (invalid_key_message part))
      | None =>
          let value := resolvePath mergedContext variablePath in
          match String_of_primitive value with
          | Some stringValue =>
              expand_matches mergedContext ms'
                (replace_first result fullMatch stringValue)
          | None =>
              if is_object value
              then Throw (mkError TemplateError
                            (js "Cannot expand object value for " ++ quote variablePath
                               ++ js ". Only primitive values are allowed in templates."))
              else Throw (mkError TemplateError
                            (js "Variable " ++ quote variablePath
                               ++ js " is undefined in context"))
          end
      end
  end.

(** [{ ...readonlyCtx, ...runtimeCtx }] *)
Definition merge_contexts (readonlyCtx runtimeCtx : list (jsstring * value))
  : list (jsstring * value) :=
  foldl (fun m kv => map_set kv.1 kv.2 m) readonlyCtx runtimeCtx.

(** [processTemplate] *)
Definition processTemplate (template : jsstring)
    (readonlyCtx runtimeCtx : list (jsstring * value)) : Result jsstring :=
  if isAssignmentExpression template then Ok template
  else
    let conflicts := filter (fun key => has_in key readonlyCtx = true)
                            (map_keys runtimeCtx) in
    match conflicts with
    | _ :: _ =>
        Throw (mkError TemplateError
                 (js "Runtime context conflicts with readonly context keys: "
                    ++ join (js ", ") conflicts))
    | [] =>
        expand_matches (merge_contexts readonlyCtx runtimeCtx)
          (template_matches O template) template
    end.

(** A [PipelineContext]; [readonlyContext] is the frozen record the
    constructor of [ReadonlyContext] derives from the element data (its
    flattened primitive fields). *)
Record PipelineContext : Type := mkContext {
  runtimeContext : RuntimeContext;
  readonlyContext : list (jsstring * value)
}.

(** The constructor, from the flattened facts of the element. *)
Definition new_PipelineContext (facts : list (jsstring * value)) : PipelineContext :=
  mkContext (new_RuntimeContext (map_keys facts)) facts.

Definition PipelineContext_set (key : jsstring) (val : value) (c : PipelineContext)
  : Result PipelineContext :=
  match RuntimeContext_set key val (runtimeContext c) with
  | Ok rc => Ok (mkContext rc (readonlyContext c))
  | Throw e => Throw e
  end.

Definition PipelineContext_get (key : jsstring) (c : PipelineContext) : value :=
  RuntimeContext_get key (runtimeContext c).

Definition PipelineContext_clear (c : PipelineContext) : PipelineContext :=
  mkContext (RuntimeContext_clear (runtimeContext c)) (readonlyContext c).

(** [PipelineContext.processTemplate]: the two snapshots are shallow
    copies of the two records. *)
Definition PipelineContext_processTemplate (template : jsstring) (c : PipelineContext)
  : Result jsstring :=
  processTemplate template (readonlyContext c) (rt_data (runtimeContext c)).

(** The states of a context: as constructed, and after any successful
    [set] or [clear]. *)
Inductive reachable : PipelineContext → Prop :=
| reachable_new facts : reachable (new_PipelineContext facts)
| reachable_set key val c c' :
    reachable c → PipelineContext_set key val c = Ok c' → reachable c'
| reachable_clear c : reachable c → reachable (PipelineContext_clear c).

(** One successful [set] call. *)
Definition set_step (c c' : PipelineContext) : Prop :=
  ∃ key val, PipelineContext_set key val c = Ok c'.

(** The three conditions under which [set(key, _)] is accepted. *)
Definition set_accepts (c : PipelineContext) (key : jsstring) : Prop :=
  Forall (fun part => validateCamelCase part = true) (split_dot key) ∧
  (key ∉ assignedKeys (runtimeContext c)) ∧
  (key ∉ map_keys (readonlyContext c)).

(** *** Terminal text utilities (ansi-strip.ts) *)

(** Parameter, intermediate and final bytes of a CSI sequence. *)
Definition is_csi_param (c : N) : bool := ((48 <=? c) && (c <=? 63))%N.
Definition is_csi_inter (c : N) : bool := ((32 <=? c) && (c <=? 47))%N.
Definition is_csi_final (c : N) : bool := ((64 <=? c) && (c <=? 126))%N.

(** [[\x30-\x3F]*[\x20-\x2F]*[\x40-\x7E]] at the start of [s]: the number
    of code units it takes. *)
Definition csi_body (s : jsstring) : option nat :=
  let '(params, s1) := span is_csi_param s in
  let '(inters, s2) := span is_csi_inter s1 in
  match s2 with
  | c :: _ => if is_csi_final c
              then Some (length params + length inters + 1)%nat
              else None
  | [] => None
  end.

(** [[^\u0007\u001B]*(?:\u0007|\u001B\\)] *)
Definition osc_body (s : jsstring) : option nat :=
  let '(text, s1) := span (fun c => negb ((c =? 7) || (c =? 27))%N) s in
  match s1 with
  | 7%N :: _ => Some (length text + 1)%nat
  | 27%N :: 92%N :: _ => Some (length text + 2)%nat
  | _ => None
  end.

(** [[^\u001B\u009C]*(?:\u001B\\|\u009C)] *)
Definition st_body (s : jsstring) : option nat :=
  let '(text, s1) := span (fun c => negb ((c =? 27) || (c =? 156))%N) s in
  match s1 with
  | 27%N :: 92%N :: _ => Some (length text + 2)%nat
  | 156%N :: _ => Some (length text + 1)%nat
  | _ => None
  end.

(** One match of [VT_REGEX] at the start of [s]: its length.  The
    alternatives are tried in the order of the source; a C1 introducer
    whose sequence is not completed is still matched, alone, by the last
    alternative [[\u0080-\u009F]]. *)
Definition match_vt_at (s : jsstring) : option nat :=
  match s with
  | [] => None
  | c :: r =>
      if (c =? 27)%N then
        match r with
        | 91%N :: r' => (fun n => S (S n)) <$> csi_body r'
        | 93%N :: r' => (fun n => S (S n)) <$> osc_body r'
        | 80%N :: r' => (fun n => S (S n)) <$> st_body r'
        | 94%N :: r' => (fun n => S (S n)) <$> st_body r'
        | 95%N :: r' => (fun n => S (S n)) <$> st_body r'
        | _ => None
        end
      else if (c =? 155)%N then Some (S (default O (csi_body r)))
      else if (c =? 157)%N then Some (S (default O (osc_body r)))
      else if ((c =? 144) || (c =? 158) || (c =? 159))%N
      then Some (S (default O (st_body r)))
      else if ((128 <=? c) && (c <=? 159))%N then Some 1%nat
      else None
  end.

(** [input.replace(VT_REGEX, "")]: [skip] counts the code units of the
    current match still to drop. *)
Fixpoint stripVT_from (skip : nat) (s : jsstring) : jsstring :=
  match s with
  | [] => []
  | c :: s' =>
      match skip with
      | S k => stripVT_from k s'
      | O =>
          match match_vt_at s with
          | Some n => stripVT_from (n - 1)%nat s'
          | None => c :: stripVT_from O s'
          end
      end
  end.

Definition stripVT (input : jsstring) : jsstring := stripVT_from O input.

(** *** Overstrike normalisation ([normalizeOverstrikes]) *)

Definition is_high_surrogate (c : N) : bool := ((55296 <=? c) && (c <=? 56319))%N.
Definition is_low_surrogate (c : N) : bool := ((56320 <=? c) && (c <=? 57343))%N.

(** The strings that [for (const ch of input)] yields: one per code
    point, a surrogate pair being one string of two code units. *)
Fixpoint codePoints (s : jsstring) : list jsstring :=
  match s with
  | [] => []
  | c :: s' =>
      match s' with
      | d :: s'' =>
          if is_high_surrogate c && is_low_surrogate d
          then [c; d] :: codePoints s''
          else [c] :: codePoints s'
      | [] => [[c]]
      end
  end.

(** Body of the first loop: a backspace pops, anything else is pushed. *)
Definition backspace_step (out : list jsstring) (ch : jsstring) : list jsstring :=
  if decide (ch = [8%N]) then removelast out else out ++ [ch].

(** [buf[i] = part.charAt(i)] for every [i] below the length of [part]. *)
Definition overwrite (buf part : jsstring) : jsstring :=
  part ++ drop (length part) buf.

(** The function mapped over the lines. *)
Definition normalizeLine (line : jsstring) : jsstring :=
  if decide (13%N ∈ line)
  then foldl overwrite [] (split_on 13%N line)
  else line.

Definition normalizeOverstrikes (input : jsstring) : jsstring :=
  match input with
  | [] => []
  | _ :: _ =>
      let out := foldl backspace_step [] (codePoints input) in
      let bsHandled := concat out in
      join [10%N] (normalizeLine <$> split_on 10%N bsHandled)
  end.

(** [cleanTTY] *)
Definition cleanTTY (input : jsstring) : jsstring :=
  stripVT (normalizeOverstrikes input).

(** *** Pseudo-terminal automation ([runWithPty]) *)

Record Prompt : Type := mkPrompt {
  prompt_match : jsstring;
  prompt_response : jsstring
}.

(** The locals of [runWithPty] that the data handler updates, with the
    texts handed to [pty.write] and to [process.stdout.write] so far. *)
Record PtyState : Type := mkPty {
  buffer : jsstring;
  visibleBuffer : jsstring;
  nextPromptIndex : nat;
  written : list jsstring;
  echoed : list jsstring
}.

Definition pty_start : PtyState := mkPty [] [] O [] [].

(** The text sent for a matched prompt. *)
Definition toSend (next : Prompt) : jsstring :=
  if endsWith (prompt_response next) [10%N] || endsWith (prompt_response next) [13%N]
  then prompt_response next
  else prompt_response next ++ [10%N].

(** The handler registered with [pty.onData]. *)
Definition onData (prompts : list Prompt) (quiet : bool) (st : PtyState)
    (data : jsstring) : PtyState :=
  let buffer' := buffer st ++ data in
  let visible' := visibleBuffer st ++ stripVT data in
  let echoed' := if quiet then echoed st else echoed st ++ [data] in
  match prompts !! nextPromptIndex st with
  | Some next =>
      if includes visible' (prompt_match next)
      then mkPty buffer' visible' (S (nextPromptIndex st))
                 (written st ++ [toSend next]) echoed'
      else mkPty buffer' visible' (nextPromptIndex st) (written st) echoed'
  | None => mkPty buffer' visible' (nextPromptIndex st) (written st) echoed'
  end.

(** The state after the chunks received so far. *)
Definition pty_run (prompts : list Prompt) (quiet : bool) (chunks : list jsstring)
  : PtyState :=
  foldl (onData prompts quiet) pty_start chunks.

(** Decimal notation of an exit code. *)
Definition decimal (n : Z) : jsstring := js (NilZero.string_of_int (Z.to_int n)).

(** The handler registered with [pty.onExit]: the settled promise and
    whether the non-fatal warning was issued. *)
Definition onExit (exitOnNonZeroCode : bool) (st : PtyState) (exitCode : option Z)
  : Result jsstring * bool :=
  let code := default 0 exitCode in
  if decide (code ≠ 0) then
    if exitOnNonZeroCode
    then (Throw (mkError Error (js "Command exited with code " ++ decimal code)), false)
    else (Ok (buffer st), true)
  else (Ok (buffer st), false).

(** *** Promise pool (promise-pool.ts) *)

(** A task, by what the promise it returns settles to. *)
Inductive Settled (T : Type) : Type :=
| Fulfilled (value : T)
| Rejected (reason : JsError).
Arguments Fulfilled {T} value.
Arguments Rejected {T} reason.

(** Where a worker stands: about to claim an index at the head of its
    loop, suspended in [await task()] for the index it claimed, returned,
    or rejected. *)
Inductive Worker : Type :=
| Claiming
| Awaiting (currentIndex : nat)
| Finished
| Failed (reason : JsError).

#[global] Instance Worker_eq_dec : EqDecision Worker.
Proof. solve_decision. Defined.

(** The shared state of one call: the counter, the result array (an empty
    slot is [None]), the workers, the indices whose task has been called
    (in call order) and the first rejection seen by [Promise.all]. *)
Record Pool (T : Type) : Type := mkPool {
  taskIndex : nat;
  results : list (option T);
  workers : list Worker;
  started : list nat;
  rejection : option JsError
}.
Arguments mkPool {T} taskIndex results workers started rejection.
Arguments taskIndex {T} p.
Arguments results {T} p.
Arguments workers {T} p.
Arguments started {T} p.
Arguments rejection {T} p.

Section Pool.
Context {T : Type}.

(** [new Array(tasks.length)], the counter at 0 and [poolSize] workers. *)
Definition pool_start (n poolSize : nat) : Pool T :=
  mkPool O (replicate n None) (replicate poolSize Claiming) [] None.

(** One uninterrupted stretch of worker [w]: from the head of its loop to
    the next [await] (or to its return), or from the settling of the
    awaited promise back to the head of the loop. *)
Definition worker_step (tasks : list (Settled T)) (w : nat) (p : Pool T)
  : option (Pool T) :=
  match workers p !! w with
  | Some Claiming =>
      let currentIndex := taskIndex p in
      if decide (length tasks ≤ currentIndex)%nat
      then Some (mkPool (S (taskIndex p)) (results p) (<[w := Finished]> (workers p))
                        (started p) (rejection p))
      else
        match tasks !! currentIndex with
        | None =>
            Some (mkPool (S (taskIndex p)) (results p) (workers p)
                         (started p) (rejection p))
        | Some _ =>
            Some (mkPool (S (taskIndex p)) (results p)
                         (<[w := Awaiting currentIndex]> (workers p))
                         (started p ++ [currentIndex]) (rejection p))
        end
  | Some (Awaiting currentIndex) =>
      match tasks !! currentIndex with
      | Some (Fulfilled value) =>
          Some (mkPool (taskIndex p) (<[currentIndex := Some value]> (results p))
                       (<[w := Claiming]> (workers p)) (started p) (rejection p))
      | Some (Rejected reason) =>
          Some (mkPool (taskIndex p) (results p) (<[w := Failed reason]> (workers p))
                       (started p)
                       (match rejection p with
                        | Some first => Some first
                        | None => Some reason
                        end))
      | None => None
      end
  | _ => None
  end.

(** The event loop runs some worker that can run. *)
Definition pool_step (tasks : list (Settled T)) (p p' : Pool T) : Prop :=
  ∃ w, worker_step tasks w p = Some p'.

(** Running the workers in the order a schedule names them; a worker
    that cannot run is passed over. *)
Definition pool_schedule (tasks : list (Settled T)) (schedule : list nat)
    (p : Pool T) : Pool T :=
  foldl (fun p w => default p (worker_step tasks w p)) p schedule.

Definition all_finished (p : Pool T) : Prop :=
  Forall (fun worker => worker = Finished) (workers p).

#[global] Instance all_finished_dec (p : Pool T) : Decision (all_finished p).
Proof. unfold all_finished. apply _. Defined.

(** [Math.min(concurrency, tasks.length)] *)
Definition poolSize (tasks : list (Settled T)) (concurrency : Z) : nat :=
  Z.to_nat (Z.min concurrency (Z.of_nat (length tasks))).

(** [runPromisePool tasks concurrency res]: the promise the call returns
    settles to [res]. *)
Inductive runPromisePool (tasks : list (Settled T)) (concurrency : Z)
  : Result (list (option T)) → Prop :=
| pool_invalid :
    concurrency < 1 →
    runPromisePool tasks concurrency
      (Throw (mkError Error (js "Concurrency must be a positive integer")))
| pool_empty :
    1 ≤ concurrency → tasks = [] →
    runPromisePool tasks concurrency (Ok [])
| pool_resolved p :
    1 ≤ concurrency → tasks ≠ [] →
    rtc (pool_step tasks) (pool_start (length tasks) (poolSize tasks concurrency)) p →
    all_finished p →
    runPromisePool tasks concurrency (Ok (results p))
| pool_rejected p reason :
    1 ≤ concurrency → tasks ≠ [] →
    rtc (pool_step tasks) (pool_start (length tasks) (poolSize tasks concurrency)) p →
    rejection p = Some reason →
    runPromisePool tasks concurrency (Throw reason).

(** Steps that remain at most: two per unclaimed task, two per awaited
    task, one per worker still in its loop. *)
Definition worker_weight (worker : Worker) : nat :=
  match worker with
  | Claiming => 1
  | Awaiting _ => 2
  | Finished | Failed _ => 0
  end.


End Pool.

(** *** The tool execute-bash-command *)

Record ExecuteBashCommandParams : Type := mkParams {
  command : jsstring;
  shell : option jsstring;
  workingDirectory : option jsstring;
  quiet : option bool;
  outputAssign : option jsstring;
  exitOnNonZeroCode : option bool;
  interactivePrompts : option (list Prompt)
}.

(** Truthiness of an optional boolean and of an optional string. *)
Definition truthy_bool (b : option bool) : bool := default false b.

Definition truthy_opt (s : option jsstring) : bool :=
  match s with Some (_ :: _) => true | _ => false end.

(** What the tool does to the world outside the context, in order. *)
Inductive Effect : Type :=
| TemplateProcessed (template : jsstring)
| ShellProbed (sh : jsstring)
| DirectoryProbed (dir : jsstring)
| CommandRun (shellCommand : list jsstring) (cwd : option jsstring)
| PtySpawned (shellCommand : list jsstring) (cwd : option jsstring).

(** The operating system as the tool sees it: whether [which shell]
    succeeds, whether a directory exists, the exit code, standard output
    and standard error of a shell command, and for a command on a
    pseudo-terminal the chunks it prints and its exit code ([None] when
    it cannot be spawned). *)
Record Platform : Type := mkPlatform {
  shell_available : jsstring → bool;
  directory_exists : jsstring → bool;
  run_shell : list jsstring → option jsstring → Z * jsstring * jsstring;
  run_pty : list jsstring → option jsstring → option (list jsstring * option Z)
}.

(** Computations of the tool: they read and update the context, record
    effects, and may throw. *)
Definition Exec (A : Type) : Type :=
  PipelineContext * list Effect → Result A * (PipelineContext * list Effect).

Definition exec_ret {A} (a : A) : Exec A := fun s => (Ok a, s).

Definition exec_throw {A} (e : JsError) : Exec A := fun s => (Throw e, s).

Definition exec_bind {A B} (m : Exec A) (k : A → Exec B) : Exec B :=
  fun s => match m s with
           | (Ok a, s') => k a s'
           | (Throw e, s') => (Throw e, s')
           end.

Definition exec_catch {A} (m : Exec A) (handler : JsError → Exec A) : Exec A :=
  fun s => match m s with
           | (Ok a, s') => (Ok a, s')
           | (Throw e, s') => handler e s'
           end.

Definition exec_emit (ev : Effect) : Exec unit :=
  fun s => (Ok tt, (s.1, s.2 ++ [ev])).

Notation "'do' x <- m ; k" := (exec_bind m (fun x => k))
  (at level 10, x name, m at level 100, k at level 200).

(** [context.processTemplate(template)] *)
Definition exec_processTemplate (template : jsstring) : Exec jsstring :=
  fun s =>
    (PipelineContext_processTemplate template s.1,
     (s.1, s.2 ++ [TemplateProcessed template])).

(** [context.set(key, value)] *)
Definition exec_set (key : jsstring) (val : value) : Exec unit :=
  fun s =>
    match PipelineContext_set key val s.1 with
    | Ok c' => (Ok tt, (c', s.2))
    | Throw e => (Throw e, s)
    end.

(** [buildShellCommand] *)
Definition buildShellCommand (sh command : jsstring) : list jsstring :=
  if decide (sh = js "zsh") then [js "zsh"; js "-c"; command]
  else if decide (sh = js "fish") then [js "fish"; js "-c"; command]
  else [js "bash"; js "-c"; command].

(** [String.prototype.trim] *)
Definition trim (s : jsstring) : jsstring :=
  reverse (span is_space (reverse (span is_space s).2)).2.

(** The value stored for [output-assign]: the non-empty lines of the
    trimmed output, joined by line feeds. *)
Definition outputValue (output : jsstring) : jsstring :=
  join [10%N] (filter (fun line => line ≠ []) (split_on 10%N (trim output))).

(** [String(error)] for an error object. *)
Definition error_name_text (n : ErrorName) : jsstring :=
  match n with
  | Error => js "Error"
  | DependencyError => js "DependencyError"
  | ContextError => js "ContextError"
  | TemplateError => js "TemplateError"
  | ShellError => js "ShellError"
  end.

Definition error_toString (e : JsError) : jsstring :=
  match err_message e with
  | [] => error_name_text (err_name e)
  | _ :: _ => error_name_text (err_name e) ++ js ": " ++ err_message e
  end.

(** [parseAssignmentExpression(params.outputAssign) || params.outputAssign] *)
Definition outputKey (params : ExecuteBashCommandParams) : jsstring :=
  let raw := default [] (outputAssign params) in
  match parseAssignmentExpression raw with
  | Some (c :: assignmentVar) => c :: assignmentVar
  | _ => raw
  end.

(** The [if (params.outputAssign)] block shared by both branches. *)
Definition assign_output (params : ExecuteBashCommandParams) (output : jsstring)
  : Exec unit :=
  if truthy_opt (outputAssign params)
  then exec_set (outputKey params) (VStr (outputValue output))
  else exec_ret tt.

(** [runWithPty]: the promise it returns, from what the platform says
    the command prints and how it exits. *)
Definition runWithPty (pf : Platform) (shellCommand : list jsstring)
    (cwd : option jsstring) (quietFlag : bool) (prompts : list Prompt)
    (exitOnNonZero : bool) : Exec jsstring :=
  match shellCommand with
  | [] => exec_throw (mkError Error (js "Shell command cannot be empty"))
  | _ :: _ =>
      do _ <- exec_emit (PtySpawned shellCommand cwd);
      match run_pty pf shellCommand cwd with
      | None => exec_throw (mkError Error (js "PTY spawn failed"))
      | Some (chunks, exitCode) =>
          match (onExit exitOnNonZero (pty_run prompts quietFlag chunks) exitCode).1 with
          | Ok output => exec_ret output
          | Throw e => exec_throw e
          end
      end
  end.

(** The template expansion of the prompt pairs. *)
Fixpoint process_prompts (prompts : list Prompt) : Exec (list Prompt) :=
  match prompts with
  | [] => exec_ret []
  | p :: rest =>
      do m <- exec_processTemplate (prompt_match p);
      do r <- exec_processTemplate (prompt_response p);
      do rest' <- process_prompts rest;
      exec_ret (mkPrompt m r :: rest')
  end.

(** The [try] block of [execute]. *)
Definition run_command (pf : Platform) (params : ExecuteBashCommandParams)
    (sh processedCommand : jsstring) (processedWorkingDirectory : option jsstring)
  : Exec unit :=
  let shellCommand := buildShellCommand sh processedCommand in
  let exitOnNonZero := negb (bool_decide (exitOnNonZeroCode params = Some false)) in
  match interactivePrompts params with
  | Some (p :: ps) =>
      do prompts <- process_prompts (p :: ps);
      do output <- runWithPty pf shellCommand processedWorkingDirectory
                     (truthy_bool (quiet params)) prompts exitOnNonZero;
      assign_output params output
  | _ =>
      let cwd := if truthy_opt processedWorkingDirectory
                 then processedWorkingDirectory else None in
      do _ <- exec_emit (CommandRun shellCommand cwd);
      let '(exitCode, stdout, stderr) := run_shell pf shellCommand cwd in
      if exitOnNonZero && negb (bool_decide (exitCode = 0))
      then exec_throw (mkError ShellError stderr)
      else assign_output params stdout
  end.

(** The [catch] block of [execute]. *)
Definition command_failed (e : JsError) : Exec unit :=
  exec_throw
    (mkError Error
       (js "Command execution failed: "
          ++ (match err_name e with
              | ShellError => err_message e
              | _ => error_toString e
              end))).

(** [execute], after the check of the two options. *)
Definition execute_body (pf : Platform) (params : ExecuteBashCommandParams)
  : Exec unit :=
  do processedCommand <- exec_processTemplate (command params);
  let sh := if truthy_opt (shell params) then default [] (shell params) else js "bash" in
  do processedWorkingDirectory <-
    (if truthy_opt (workingDirectory params)
     then do d <- exec_processTemplate (default [] (workingDirectory params));
          exec_ret (Some d)
     else exec_ret None);
  do _ <-
    (if truthy_opt (shell params)
     then do _ <- exec_emit (ShellProbed sh);
          if shell_available pf sh then exec_ret tt
          else exec_throw (mkError Error
                 (js "Shell '" ++ sh ++ js "' is not installed on this system"))
     else exec_ret tt);
  do _ <-
    (match processedWorkingDirectory with
     | Some (c :: d) =>
         do _ <- exec_emit (DirectoryProbed (c :: d));
         if directory_exists pf (c :: d) then exec_ret tt
         else exec_throw (mkError Error
                (js "Working directory '" ++ (c :: d) ++ js "' does not exist"))
     | _ => exec_ret tt
     end);
  exec_catch (run_command pf params sh processedCommand processedWorkingDirectory)
             command_failed.

(** [execute] *)
Definition execute (pf : Platform) (params : ExecuteBashCommandParams) : Exec unit :=
  if truthy_bool (quiet params) && truthy_opt (outputAssign params)
  then exec_throw (mkError Error
         (js "Cannot use both 'quiet' and 'output-assign' options together"))
  else execute_body pf params.

(** *** The [install] command (index.ts) *)

(** The two batches in which the [install] command runs the elements:
    the independent elements, handed together to [runPromisePool], and
    the remaining elements of the execution order, run one after the
    other once the pool has settled. *)
Definition install_batches (els : list Element)
  : option (Result (list Element * list Element)) :=
  match new_DependencyResolver els with
  | Throw e => Some (Throw e)
  | Ok resolver =>
      match resolveExecutionOrder resolver with
      | None => None
      | Some (Throw e, _) => Some (Throw e)
      | Some (Ok orderedElements, resolver') =>
          let independentElements := getIndependentElements resolver' in
          let independentSet : gset jsstring :=
            list_to_set (name <$> independentElements) in
          Some (Ok (independentElements,
                    filter (fun element => name element ∉ independentSet)
                           orderedElements))
      end
  end.

(** [new Map(elements.map((el) => [el.name, el]))] *)
Definition elementLookup_of (els : list Element) : list (jsstring * Element) :=
  foldl (fun m el => map_set (name el) el m) [] els.

(** The [for (const dep of dependencies)] loop of the element filter.
    The array [stack] is kept top first: [push] puts a name in front and
    [pop] takes the first.  [inl] is the message logged before
    [process.exit(1)]. *)
Fixpoint push_dependencies (lookup : list (jsstring * Element))
    (required : list jsstring) (current : jsstring) (deps : list jsstring)
    (stack : list jsstring) : jsstring + list jsstring :=
  match deps with
  | [] => inr stack
  | dep :: deps' =>
      if decide (dep ∈ required)
      then push_dependencies lookup required current deps' stack
      else if map_has dep lookup
      then push_dependencies lookup required current deps' (dep :: stack)
      else inl (js "Element " ++ quote current ++ js " depends on " ++ quote dep
                  ++ js " which was not found.")
  end.

(** The [while (stack.length > 0)] loop that collects the names of the
    required elements. *)
Fixpoint required_loop (fuel : nat) (lookup : list (jsstring * Element))
    (stack required : list jsstring) : option (jsstring + list jsstring) :=
  match stack with
  | [] => Some (inr required)
  | current :: stack' =>
      match fuel with
      | O => None
      | S fuel' =>
          if decide (current ∈ required)
          then required_loop fuel' lookup stack' required
          else
            match map_get current lookup with
            | None =>
                Some (inl (js "Element " ++ quote current
                             ++ js " is referenced but not defined in the available elements."))
            | Some element =>
                let required' := set_add current required in
                match push_dependencies lookup required' current
                        (deps_of element) stack' with
                | inl msg => Some (inl msg)
                | inr stack'' => required_loop fuel' lookup stack'' required'
                end
            end
      end
  end.

(** An upper bound on the number of iterations of the loop: every
    iteration pops one name, and the names pushed are dependency entries
    of different elements. *)
Definition required_fuel (lookup : list (jsstring * Element))
    (elementFilters : list jsstring) : nat :=
  (length elementFilters
   + sum_list ((fun kv : jsstring * Element => length (deps_of kv.2)) <$> lookup))%nat.

(** The element filter of the [install] command: the elements to run for
    the names given with [--element], or the logged failure. *)
Definition filter_elements (els : list Element) (elementFilters : list jsstring)
  : option (jsstring + list Element) :=
  match elementFilters with
  | [] => Some (inr els)
  | _ :: _ =>
      let elementLookup := elementLookup_of els in
      let missing := filter (fun n => map_has n elementLookup = false) elementFilters in
      match missing with
      | _ :: _ =>
          Some (inl (js "Requested element(s) not found: "
                       ++ join (js ", ") (quote <$> missing)))
      | [] =>
          match required_loop (required_fuel elementLookup elementFilters)
                  elementLookup (reverse elementFilters) [] with
          | None => None
          | Some (inl msg) => Some (inl msg)
          | Some (inr required) =>
              Some (inr (filter (fun element => name element ∈ required) els))
          end
      end
  end.

(** *** The context engine: expressions and parameter objects *)

(** [hasTemplateExpressions]:
    [/\$\{\{\s*[\w.]+\s*\}\}/.test(str)], a match at any position. *)
Fixpoint hasTemplateExpressions (str : jsstring) : bool :=
  match str with
  | [] => false
  | _ :: str' =>
      match match_template_at str with
      | Some _ => true
      | None => hasTemplateExpressions str'
      end
  end.

(** [extractVariablePaths]: the captured path of every match that has
    one. *)
Definition extractVariablePaths (template : jsstring) : list jsstring :=
  filter (fun path => truthy_string path = true)
         (snd <$> template_matches O template).

(** [processObjectTemplate]: strings are expanded, arrays and objects
    are rebuilt entry by entry (an entry with the empty key is left
    out, and so is the own property [__proto__]), any other value is
    returned as it is. *)
Fixpoint processObjectTemplate (obj : value)
    (readonlyCtx runtimeCtx : list (jsstring * value)) : Result value :=
  match obj with
  | VStr s =>
      match processTemplate s readonlyCtx runtimeCtx with
      | Ok s' => Ok (VStr s')
      | Throw e => Throw e
      end
  | VArr items =>
      match
        (fix map_items (l : list value) : Result (list value) :=
           match l with
           | [] => Ok []
           | item :: l' =>
               match processObjectTemplate item readonlyCtx runtimeCtx with
               | Throw e => Throw e
               | Ok item' =>
                   match map_items l' with
                   | Throw e => Throw e
                   | Ok r => Ok (item' :: r)
                   end
               end
           end) items
      with
      | Ok items' => Ok (VArr items')
      | Throw e => Throw e
      end
  | VObj props =>
      match
        (fix entries (l : list (jsstring * value))
             (result : list (jsstring * value))
           : Result (list (jsstring * value)) :=
           match l with
           | [] => Ok result
           | (key, val) :: l' =>
               if truthy_string key
               then match processObjectTemplate val readonlyCtx runtimeCtx with
                    | Throw e => Throw e
                    | Ok val' => entries l' (assign_prop key val' result)
                    end
               else entries l' result
           end) props []
      with
      | Ok result => Ok (VObj result)
      | Throw e => Throw e
      end
  | VUndefined | VNull | VBool _ | VNum _ => Ok obj
  end.

(** [PipelineContext.processObjectTemplate] *)
Definition PipelineContext_processObjectTemplate (obj : value) (c : PipelineContext)
  : Result value :=
  processObjectTemplate obj (readonlyContext c) (rt_data (runtimeContext c)).

(** *** String utilities (utils/string.ts) *)

(** [kebabToCamel]: [str.replace(/-([a-z])/g, (_, char) => char.toUpperCase())].
    A lower-case ASCII letter and its upper case differ by 32. *)
Fixpoint kebabToCamel (str : jsstring) : jsstring :=
  match str with
  | [] => []
  | c :: rest =>
      match rest with
      | d :: rest' =>
          if (c =? 45)%N && is_lower d
          then (d - 32)%N :: kebabToCamel rest'
          else c :: kebabToCamel rest
      | [] => [c]
      end
  end.

(** [camelToKebab]:
    [str.replace(/[A-Z]/g, letter => `-${letter.toLowerCase()}`)] *)
Fixpoint camelToKebab (str : jsstring) : jsstring :=
  match str with
  | [] => []
  | c :: rest =>
      if is_upper c then 45%N :: (c + 32)%N :: camelToKebab rest
      else c :: camelToKebab rest
  end.

(** [normalizeKeys]: the keys of every object, at any depth, go through
    [kebabToCamel]; two keys that become equal leave one property, with
    the value of the later one, and the key [__proto__] leaves none. *)
Fixpoint normalizeKeys (obj : value) : value :=
  match obj with
  | VArr items => VArr (normalizeKeys <$> items)
  | VObj props =>
      VObj ((fix entries (l : list (jsstring * value))
                 (normalized : list (jsstring * value)) :=
               match l with
               | [] => normalized
               | (key, val) :: l' =>
                   entries l' (assign_prop (kebabToCamel key) (normalizeKeys val)
                                           normalized)
               end) props [])
  | _ => obj
  end.

(** *** Specification vocabulary for the resolver *)

Definition names_of (els : list Element) : list jsstring := name <$> els.

(** [depends_on els x y]: the element named [x] lists [y] among its
    dependencies.  In the data model this is the edge [y → x]
    (dependency → dependent). *)
Definition depends_on (els : list Element) (x y : jsstring) : Prop :=
  ∃ e, e ∈ els ∧ name e = x ∧ y ∈ deps_of e.

Definition has_cycle (els : list Element) : Prop :=
  ∃ x, tc (depends_on els) x x.

Definition acyclic (els : list Element) : Prop := ¬ has_cycle els.

(** A list of names in which every entry depends only on entries that
    come after it (the reverse of an execution order). *)
Fixpoint topo_rev (els : list Element) (l : list jsstring) : Prop :=
  match l with
  | [] => True
  | v :: l' => (∀ d, depends_on els v d → d ∈ l') ∧ topo_rev els l'
  end.

(** What the constructor establishes about the element map and the
    adjacency list. *)
Record wf_graph (r : DependencyResolver) : Prop := {
  wf_names : NoDup (names_of (elements r));
  wf_map : elementMap r = (fun e => (name e, e)) <$> elements r;
  wf_deps : ∀ e d, e ∈ elements r → d ∈ deps_of e → d ∈ names_of (elements r);
  wf_adj : ∀ u, u ∈ names_of (elements r) →
    ∃ ns, map_get u (adjacencyList r) = Some ns ∧ NoDup ns ∧
          ∀ w, w ∈ ns ↔ depends_on (elements r) w u
}.

(** The in-degree map as the constructor leaves it. *)
Definition fresh_degrees (r : DependencyResolver) : Prop :=
  map_keys (inDegree r) = names_of (elements r) ∧
  ∀ e, e ∈ elements r →
    map_get (name e) (inDegree r) = Some (Z.of_nat (length (deps_of e))).

(** Invariant of the [while] loop of [topologicalSort]: [result] holds
    the processed elements, [queue] the names waiting, [deg] the current
    in-degree map. *)
Record kahn_inv (r : DependencyResolver) (queue : list jsstring)
    (deg : list (jsstring * Z)) (result : list Element) : Prop := {
  ki_result : ∀ e, e ∈ result → e ∈ elements r;
  ki_nodup : NoDup (names_of result ++ queue);
  ki_queue : ∀ v, v ∈ queue → v ∈ names_of (elements r);
  ki_deg : ∀ e, e ∈ elements r →
    map_get (name e) deg
    = Some (Z.of_nat (length (deps_of e))
            - Z.of_nat (length (filter (fun u => u ∈ deps_of e) (names_of result))));
  ki_zero : ∀ v, v ∈ names_of (elements r) →
    (v ∈ names_of result ++ queue ↔ map_get v deg = Some 0);
  ki_topo : topo_rev (elements r) (reverse (names_of result));
  ki_ready : ∀ v d, v ∈ queue → depends_on (elements r) v d → d ∈ names_of result
}.

(** A list of names in which every entry depends on the next one. *)
Fixpoint is_chain (els : list Element) (p : list jsstring) : Prop :=
  match p with
  | x :: t => match t with
              | y :: _ => depends_on els x y ∧ is_chain els t
              | [] => True
              end
  | [] => True
  end.

(** A closed walk along [depends_on]: at least one step, ending where it
    starts. *)
Definition cycle_path (els : list Element) (p : list jsstring) : Prop :=
  is_chain els p ∧ (2 ≤ length p)%nat ∧ head p = last p.

(** Names that [dfs] has not visited yet; bounds the recursion depth. *)
Definition unvisited (r : DependencyResolver) (st : DfsState) : list jsstring :=
  filter (fun n => n ∉ visited st) (names_of (elements r)).

(** Invariant of [detectCycle]: the path is a duplicate-free chain, the
    recursion stack holds exactly its names, and the finished names
    (visited and off the stack) admit an order in which every name
    depends only on names finished before it. *)
Record dfs_inv (r : DependencyResolver) (st : DfsState) : Prop := {
  di_chain : is_chain (elements r) (path st);
  di_nodup : NoDup (path st);
  di_stack : ∀ x, x ∈ recursionStack st ↔ x ∈ path st;
  di_visited : recursionStack st ⊆ visited st;
  di_fin : ∃ fin, topo_rev (elements r) fin ∧
                  ∀ x, x ∈ fin ↔ (x ∈ visited st ∧ x ∉ recursionStack st)
}.

(** What a call [dfs(node)] from state [s] guarantees about its result
    [res] and the state [s'] it leaves. *)
Definition dfs_post (r : DependencyResolver) (node : jsstring) (s : DfsState)
    (res : option jsstring) (s' : DfsState) : Prop :=
  match res with
  | Some c => ∃ p, c = join arrow_sep p ∧ cycle_path (elements r) p
  | None =>
      dfs_inv r s' ∧ path s' = path s ∧ recursionStack s' = recursionStack s ∧
      visited s ⊆ visited s' ∧ node ∈ visited s' ∧ node ∉ recursionStack s'
  end.

(** The edge [dep → dependent] of the data model's dependency graph. *)
Definition edge (els : list Element) (dep dependent : jsstring) : Prop :=
  depends_on els dependent dep.

(** The message of a cycle error names a closed path of at least two
    names whose consecutive pairs are all related by [rel]. *)
Definition names_cycle_along (rel : jsstring → jsstring → Prop) (msg : jsstring)
  : Prop :=
  ∃ p, msg = js "Circular dependency detected: " ++ join arrow_sep p ∧
       (2 ≤ length p)%nat ∧ head p = last p ∧
       ∀ i x y, p !! i = Some x → p !! S i = Some y → rel x y.

(** An element given by its name and dependency names. *)
Definition el (n : string) (deps : list string) : Element :=
  mkElement (js n) (Some (mkMetadata None (Some (js <$> deps)))) [].

(** Three elements that depend on each other in a ring. *)
Definition ring3 : list Element :=
  [el "A" ["B"]; el "B" ["C"]; el "C" ["A"]].

(** An element that lists the same dependency twice. *)
Definition twice_listed : list Element :=
  [el "A" []; el "B" ["A"; "A"]].

(** A platform on which every shell and directory exists and every
    command prints [out] and exits with code 0. *)
Definition calm_platform (out : jsstring) : Platform :=
  mkPlatform (fun _ => true) (fun _ => true) (fun _ _ => (0, out, []))
             (fun _ _ => Some ([out], Some 0)).

(** *** Specification vocabulary for the [install] command *)

(** A name that a requested element needs: it is reached from a
    requested name along the dependencies. *)
Definition needed (els : list Element) (elementFilters : list jsstring)
    (n : jsstring) : Prop :=
  ∃ f, f ∈ elementFilters ∧ rtc (depends_on els) f n.

(** Invariant of the loop of the element filter: the names met so far
    are needed, the dependencies of a required name are required or
    wait on the stack, and so do the requested names. *)
Record filter_inv (els : list Element) (elementFilters : list jsstring)
    (stack required : list jsstring) : Prop := {
  fi_needed : ∀ n, n ∈ stack ∨ n ∈ required →
                   n ∈ names_of els ∧ needed els elementFilters n;
  fi_closed : ∀ n d, n ∈ required → depends_on els n d →
                     d ∈ required ∨ d ∈ stack;
  fi_filters : ∀ f, f ∈ elementFilters → f ∈ required ∨ f ∈ stack
}.

(** Dependency entries of the elements that are not yet required. *)
Definition pending (lookup : list (jsstring * Element)) (required : list jsstring)
  : nat :=
  sum_list ((fun kv : jsstring * Element => length (deps_of kv.2))
              <$> filter (fun kv => kv.1 ∉ required) lookup).

(** Two elements, the first depending on the second. *)
Definition b_needs_a : list Element := [el "B" ["A"]; el "A" []].

(** Three elements: [B] depends on [A], and [C] stands alone. *)
Definition abc : list Element := [el "A" []; el "B" ["A"]; el "C" []].

(** *** Specification vocabulary for the terminal text utilities *)

(** Text without terminal control: no escape character and no C1
    control character. *)
Definition is_vt_free (s : jsstring) : Prop :=
  Forall (fun c => c ≠ 27%N ∧ ¬ (128 ≤ c ∧ c ≤ 159)%N) s.

(** *** Specification vocabulary for the promise pool *)

Section PoolAny.
Context {T : Type}.


(** No worker can run any more: each has returned or failed. *)
Definition all_settled (p : Pool T) : Prop :=
  Forall (fun worker => worker_weight worker = O) (workers p).

#[global] Instance all_settled_dec (p : Pool T) : Decision (all_settled p).
Proof. unfold all_settled. apply _. Defined.

End PoolAny.

(** *** Specification vocabulary for the tools *)

(** [exec_post m Q]: whenever [m] runs in a context [c] and ends with
    the result [r] in the context [c'], [Q c r c'] holds. *)
Definition exec_post {A} (m : Exec A)
    (Q : PipelineContext → Result A → PipelineContext → Prop) : Prop :=
  ∀ s r s', m s = (r, s') → Q s.1 r s'.1.

(** [exec_frame m E]: [m] leaves the context as it is, and an error it
    throws satisfies [E]. *)
Definition exec_frame {A} (m : Exec A) (E : JsError → Prop) : Prop :=
  exec_post m (fun c r c' => c' = c ∧ ∀ e, r = Throw e → E e).

(** The text that [execute] takes as the output of the command whose
    template expands to [processedCommand]: the standard output of the
    shell command run in the expanded working directory, or, with
    interactive prompts, all that the pseudo-terminal printed. *)
Definition command_output (pf : Platform) (params : ExecuteBashCommandParams)
    (context : PipelineContext) (processedCommand output : jsstring) : Prop :=
  let sh := if truthy_opt (shell params) then default [] (shell params) else js "bash" in
  let shellCommand := buildShellCommand sh processedCommand in
  ∃ processedWorkingDirectory,
    (if truthy_opt (workingDirectory params)
     then ∃ d, PipelineContext_processTemplate
                 (default [] (workingDirectory params)) context = Ok d ∧
               processedWorkingDirectory = Some d
     else processedWorkingDirectory = None) ∧
    match interactivePrompts params with
    | Some (_ :: _) =>
        ∃ chunks exitCode,
          run_pty pf shellCommand processedWorkingDirectory = Some (chunks, exitCode) ∧
          output = concat chunks
    | _ =>
        output = (run_shell pf shellCommand
                    (if truthy_opt processedWorkingDirectory
                     then processedWorkingDirectory else None)).1.2
    end.

(** *** Specification vocabulary for the context engine *)

(** The paths that [resolvePath] answers from own properties alone, so
    that the look-up modelled here is the one the code makes: the value
    is found, or the path is a key of the context itself, or it is a
    single segment that is no member of [Object.prototype]. *)
Definition resolves_own (context : list (jsstring * value)) (path : jsstring)
  : Prop :=
  resolvePath context path ≠ VUndefined ∨
  map_has path context = true ∨
  ((46%N ∉ path) ∧ (path ∉ Object_prototype_keys)).

(** *** Specification vocabulary for the string utilities *)

(** A word of a kebab-case key: a lower-case letter followed by
    lower-case letters and digits. *)
Definition is_kebab_word (w : jsstring) : bool :=
  match w with
  | [] => false
  | c :: rest => is_lower c && forallb (fun x => is_lower x || is_digit x) rest
  end.

(** The entries of a normalised object: distinct keys that
    [kebabToCamel] leaves as they are, none of them [__proto__], and
    values that [normalizeKeys] leaves as they are. *)
Definition normal_entries (m : list (jsstring * value)) : Prop :=
  NoDup (map_keys m) ∧
  Forall (fun kv => kebabToCamel kv.1 = kv.1 ∧ kv.1 ≠ js "__proto__" ∧
                    normalizeKeys kv.2 = kv.2) m.

(** No key of the value, at any depth, becomes [__proto__]: the
    assignment [normalized[camelKey] = ...] then always sets an own
    property, and the prototype of the result is [Object.prototype]. *)
Fixpoint proto_free (obj : value) : bool :=
  match obj with
  | VArr items => forallb proto_free items
  | VObj props =>
      (fix entries (l : list (jsstring * value)) : bool :=
         match l with
         | [] => true
         | (key, val) :: l' =>
             negb (bool_decide (kebabToCamel key = js "__proto__"))
             && proto_free val && entries l'
         end) props
  | _ => true
  end.

(* ================================================================== *)
(** ** Part II. Theorems                                               *)
(* ================================================================== *)

(** *** Insertion-ordered maps *)

Section JsMapFacts.
Context {K V : Type} `{EqDecision K}.
Implicit Types (m : list (K * V)) (k : K) (v : V).

Lemma map_get_set_eq m k v : map_get k (map_set k v m) = Some v.
Proof.
  induction m as [|[k' v'] m IH]; simpl.
  - by rewrite decide_True.
  - destruct (decide (k = k')) as [->|Hne]; simpl.
    + by rewrite decide_True.
    + by rewrite decide_False.
Qed.

Lemma map_get_set_ne m k k' v :
  k ≠ k' → map_get k' (map_set k v m) = map_get k' m.
Proof.
  intros Hne. induction m as [|[k0 v0] m IH]; simpl.
  - by rewrite decide_False.
  - destruct (decide (k = k0)) as [->|Hne0]; simpl.
    + by rewrite !decide_False.
    + destruct (decide (k' = k0)); [done | apply IH].
Qed.

Lemma map_get_set m k k' v :
  map_get k' (map_set k v m) = if decide (k = k') then Some v else map_get k' m.
Proof.
  destruct (decide (k = k')) as [->|Hne].
  - apply map_get_set_eq.
  - by apply map_get_set_ne.
Qed.

Lemma map_get_None m k : map_get k m = None ↔ k ∉ map_keys m.
Proof.
  unfold map_keys. induction m as [|[k' v'] m IH]; simpl.
  - split; [intros _; apply not_elem_of_nil | done].
  - rewrite not_elem_of_cons. destruct (decide (k = k')) as [->|Hne].
    + split; [done | intros [? _]; done].
    + rewrite IH. split; [by split | by intros [_ ?]].
Qed.

Lemma map_get_Some_key m k v : map_get k m = Some v → k ∈ map_keys m.
Proof.
  intros Hget. destruct (decide (k ∈ map_keys m)) as [|Hn]; [done|].
  apply map_get_None in Hn. congruence.
Qed.

Lemma map_has_true m k : map_has k m = true ↔ k ∈ map_keys m.
Proof.
  unfold map_has. destruct (map_get k m) eqn:E.
  - split; [intros _; by eapply map_get_Some_key | done].
  - apply map_get_None in E. split; [done | intros; contradiction].
Qed.

Lemma map_keys_set_in m k v : k ∈ map_keys m → map_keys (map_set k v m) = map_keys m.
Proof.
  unfold map_keys. induction m as [|[k' v'] m IH]; simpl.
  - intros Hin. by apply elem_of_nil in Hin.
  - intros Hin. destruct (decide (k = k')) as [->|Hne]; simpl; [done|].
    f_equal. apply IH. apply elem_of_cons in Hin as [?|?]; [contradiction | done].
Qed.

Lemma map_set_fresh m k v : k ∉ map_keys m → map_set k v m = m ++ [(k, v)].
Proof.
  unfold map_keys. induction m as [|[k' v'] m IH]; simpl; [done|].
  rewrite not_elem_of_cons. intros [Hne Hnin].
  rewrite decide_False by done. f_equal. by apply IH.
Qed.

End JsMapFacts.

(** *** What the constructor establishes *)

Lemma map_keys_mk (l : list Element) :
  map_keys ((fun e => (name e, e)) <$> l) = names_of l.
Proof.
  unfold map_keys, names_of. rewrite <- list_fmap_compose. done.
Qed.

Lemma buildElementMap_spec els pre m' :
  NoDup (names_of pre) →
  buildElementMap els ((fun e => (name e, e)) <$> pre) = Ok m' →
  m' = (fun e => (name e, e)) <$> (pre ++ els) ∧ NoDup (names_of (pre ++ els)).
Proof.
  revert pre. induction els as [|e els IH]; intros pre Hnd; simpl.
  - intros [= <-]. by rewrite app_nil_r.
  - destruct (map_has (name e) _) eqn:Hhas; [done|].
    assert (name e ∉ names_of pre) as Hfresh.
    { intros Hin. rewrite <- map_keys_mk in Hin.
      apply map_has_true in Hin. congruence. }
    rewrite map_set_fresh by (by rewrite map_keys_mk).
    replace (((fun e0 => (name e0, e0)) <$> pre) ++ [(name e, e)])
      with ((fun e0 => (name e0, e0)) <$> (pre ++ [e]))
      by (by rewrite fmap_app).
    intros Hb. apply IH in Hb.
    + by rewrite <- app_assoc in Hb.
    + unfold names_of. rewrite fmap_app. apply NoDup_app. split_and!; [done| |].
      * intros x Hx Hx'. apply list_elem_of_singleton in Hx'. by subst.
      * apply NoDup_singleton.
Qed.

Lemma validateDependencies_of_spec m e deps :
  validateDependencies_of m e deps = Ok tt →
  ∀ d, d ∈ deps → d ≠ name e ∧ d ∈ map_keys m.
Proof.
  induction deps as [|d0 deps IH]; simpl; intros Hv d Hd.
  - by apply elem_of_nil in Hd.
  - destruct (decide (d0 = name e)); [done|].
    destruct (map_has d0 m) eqn:Hhas; simpl in Hv; [|done].
    apply elem_of_cons in Hd as [->|Hd]; [|by apply IH].
    split; [done | by apply map_has_true].
Qed.

Lemma validateDependencies_spec m els :
  validateDependencies m els = Ok tt →
  ∀ e d, e ∈ els → d ∈ deps_of e → d ≠ name e ∧ d ∈ map_keys m.
Proof.
  induction els as [|e0 els IH]; simpl; intros Hv e d He Hd.
  - by apply elem_of_nil in He.
  - destruct (validateDependencies_of m e0 (deps_of e0)) as [[]|] eqn:Hv0; [|done].
    apply elem_of_cons in He as [->|He].
    + by eapply validateDependencies_of_spec.
    + by eapply IH.
Qed.

Lemma set_add_elem (x w : jsstring) (s : list jsstring) :
  w ∈ set_add x s ↔ w = x ∨ w ∈ s.
Proof.
  unfold set_add. destruct (decide (x ∈ s)) as [Hin|Hnin].
  - split; [by right | intros [->|?]; done].
  - rewrite elem_of_app, list_elem_of_singleton. tauto.
Qed.

Lemma set_add_NoDup (x : jsstring) (s : list jsstring) :
  NoDup s → NoDup (set_add x s).
Proof.
  intros Hnd. unfold set_add. destruct (decide (x ∈ s)) as [Hin|Hnin]; [done|].
  apply NoDup_app. split_and!; [done | | apply NoDup_singleton].
  intros y Hy Hy'. apply list_elem_of_singleton in Hy'. by subst.
Qed.

Lemma buildGraph_init_get els g n :
  map_get n (buildGraph_init els g).1
    = (if decide (n ∈ names_of els) then Some [] else map_get n g.1) ∧
  map_get n (buildGraph_init els g).2
    = (if decide (n ∈ names_of els) then Some 0 else map_get n g.2).
Proof.
  revert g. induction els as [|e els IH]; intros g.
  - rewrite !decide_False by apply not_elem_of_nil. done.
  - cbn [buildGraph_init].
    destruct (IH (map_set (name e) [] g.1, map_set (name e) 0 g.2)) as [-> ->].
    cbn [fst snd]. change (names_of (e :: els)) with (name e :: names_of els).
    destruct (decide (n ∈ names_of els)) as [Hin|Hnin].
    + rewrite !decide_True by (by right). done.
    + rewrite !map_get_set. destruct (decide (name e = n)) as [<-|Hne].
      * rewrite !decide_True by (by left). done.
      * rewrite !decide_False; [done| |].
        all: intros [?|?]%elem_of_cons; done.
Qed.

Lemma buildGraph_init_keys els g :
  NoDup (map_keys g.2 ++ names_of els) →
  map_keys (buildGraph_init els g).2 = map_keys g.2 ++ names_of els.
Proof.
  revert g. induction els as [|e els IH]; intros g; simpl.
  - by rewrite app_nil_r.
  - intros Hnd. apply NoDup_app in Hnd as (Hg & Hdisj & Hels).
    apply NoDup_cons in Hels as [He Hels].
    assert (name e ∉ map_keys g.2) as Hfresh.
    { intros Hin. apply (Hdisj _ Hin). by left. }
    rewrite IH; simpl.
    + rewrite (map_set_fresh _ _ _ Hfresh). unfold map_keys at 1.
      rewrite fmap_app. simpl. by rewrite <- app_assoc.
    + rewrite (map_set_fresh _ _ _ Hfresh). unfold map_keys at 1.
      rewrite fmap_app. simpl. rewrite <- app_assoc. simpl.
      apply NoDup_app. split_and!; [done| |by apply NoDup_cons].
      intros x Hx. by apply Hdisj.
Qed.

(** The effect of one element's dependency loop on the neighbour set of
    [u] and on the in-degrees. *)
Lemma buildGraph_edge_fold e deps g :
  (∀ u, map_get u (foldl (buildGraph_edge e) g deps).1
        = if decide (u ∈ deps) then set_add (name e) <$> map_get u g.1
          else map_get u g.1) ∧
  (∀ z, map_get (name e) g.2 = Some z →
        map_get (name e) (foldl (buildGraph_edge e) g deps).2
        = Some (z + Z.of_nat (length deps))) ∧
  (∀ n, n ≠ name e →
        map_get n (foldl (buildGraph_edge e) g deps).2 = map_get n g.2) ∧
  (name e ∈ map_keys g.2 →
   map_keys (foldl (buildGraph_edge e) g deps).2 = map_keys g.2).
Proof.
  revert g. induction deps as [|d deps IH]; intros g; cbn [foldl].
  - split_and!; [|intros z ->; f_equal; cbn; lia|done|done].
    intros u. by rewrite decide_False by apply not_elem_of_nil.
  - destruct (IH (buildGraph_edge e g d)) as (IH1 & IH2 & IH3 & IH4).
    split_and!.
    + intros u. rewrite IH1. unfold buildGraph_edge at 1 2. cbn [fst snd].
      destruct (decide (u = d)) as [->|Hne].
      * rewrite (decide_True (P := d ∈ d :: deps)) by (by left).
        destruct (map_get d g.1) as [s|] eqn:Hs.
        -- rewrite map_get_set_eq. cbn [fmap option_fmap option_map].
           destruct (decide (d ∈ deps)); [|done]. f_equal.
           unfold set_add at 1. rewrite decide_True; [done|].
           apply set_add_elem. by left.
        -- rewrite Hs. by destruct (decide (d ∈ deps)).
      * assert (map_get u (match map_get d g.1 with
                           | Some s => map_set d (set_add (name e) s) g.1
                           | None => g.1 end) = map_get u g.1) as ->.
        { destruct (map_get d g.1); [|done]. by apply map_get_set_ne. }
        destruct (decide (u ∈ deps)) as [Hin|Hnin].
        -- by rewrite decide_True by (by right).
        -- rewrite decide_False; [done|]. by intros [?|?]%elem_of_cons.
    + intros z Hz. rewrite (IH2 (z + 1)).
      * f_equal. cbn [length]. lia.
      * unfold buildGraph_edge. cbn [fst snd]. rewrite map_get_set_eq, Hz. done.
    + intros n Hn. rewrite IH3 by done. unfold buildGraph_edge. cbn [fst snd].
      by apply map_get_set_ne.
    + intros Hin. rewrite IH4.
      * unfold buildGraph_edge. cbn [fst snd]. by apply map_keys_set_in.
      * unfold buildGraph_edge. cbn [fst snd]. by rewrite map_keys_set_in.
Qed.

Lemma depends_on_cons e els w u :
  depends_on (e :: els) w u ↔ (name e = w ∧ u ∈ deps_of e) ∨ depends_on els w u.
Proof.
  unfold depends_on. split.
  - intros (e' & [->|Hin]%elem_of_cons & Hn & Hd); [by left|].
    right. by exists e'.
  - intros [[Hn Hd]|(e' & Hin & Hn & Hd)].
    + exists e. split; [by left | done].
    + exists e'. split; [by right | done].
Qed.

Lemma buildGraph_edges_spec els g :
  NoDup (names_of els) →
  (∀ e, e ∈ els → name e ∈ map_keys g.2) →
  map_keys (buildGraph_edges els g).2 = map_keys g.2 ∧
  (∀ e z, e ∈ els → map_get (name e) g.2 = Some z →
     map_get (name e) (buildGraph_edges els g).2
     = Some (z + Z.of_nat (length (deps_of e)))) ∧
  (∀ n, n ∉ names_of els → map_get n (buildGraph_edges els g).2 = map_get n g.2) ∧
  (∀ u ns, map_get u g.1 = Some ns → NoDup ns →
     ∃ ns', map_get u (buildGraph_edges els g).1 = Some ns' ∧ NoDup ns' ∧
            ∀ w, w ∈ ns' ↔ w ∈ ns ∨ depends_on els w u).
Proof.
  revert g. induction els as [|e els IH]; intros g Hnd Hkeys; cbn [buildGraph_edges].
  - split_and!; [done| |done|].
    + intros e z He. by apply elem_of_nil in He.
    + intros u ns Hu Hns. exists ns. split_and!; [done..|].
      intros w. split; [by left|]. intros [?|(e & He & _)]; [done|].
      by apply elem_of_nil in He.
  - change (names_of (e :: els)) with (name e :: names_of els) in *.
    apply NoDup_cons in Hnd as [Hfresh Hnd].
    destruct (buildGraph_edge_fold e (deps_of e) g) as (F1 & F2 & F3 & F4).
    set (g1 := foldl (buildGraph_edge e) g (deps_of e)) in *.
    assert (map_keys g1.2 = map_keys g.2) as Hk1.
    { apply F4, Hkeys. by left. }
    destruct (IH g1 Hnd) as (I1 & I2 & I3 & I4).
    { intros e' He'. rewrite Hk1. apply Hkeys. by right. }
    split_and!.
    + by rewrite I1.
    + intros e' z [->|He']%elem_of_cons Hz.
      * rewrite I3 by done. by apply F2.
      * apply I2; [done|]. rewrite F3; [done|].
        intros Heq. apply Hfresh. rewrite <- Heq.
        unfold names_of. by apply list_elem_of_fmap_2.
    + intros n [Hne Hnin]%not_elem_of_cons. rewrite I3 by done. by apply F3.
    + intros u ns Hu Hns.
      destruct (I4 u (if decide (u ∈ deps_of e) then set_add (name e) ns else ns))
        as (ns' & G1 & G2 & G3).
      { rewrite F1, Hu. by destruct (decide (u ∈ deps_of e)). }
      { destruct (decide (u ∈ deps_of e)); [by apply set_add_NoDup | done]. }
      exists ns'. split_and!; [done..|].
      intros w. rewrite G3, depends_on_cons.
      destruct (decide (u ∈ deps_of e)) as [Hin|Hnin].
      * rewrite set_add_elem. split.
        -- intros [[->|?]|?]; [right; by left | by left | right; by right].
        -- intros [?|[[<- _]|?]]; [left; by right | left; by left | by right].
      * split.
        -- intros [?|?]; [by left | right; by right].
        -- intros [?|[[_ ?]|?]]; [by left | done | by right].
Qed.

Lemma new_DependencyResolver_wf els r :
  new_DependencyResolver els = Ok r →
  elements r = els ∧ wf_graph r ∧ fresh_degrees r ∧
  (∀ e d, e ∈ els → d ∈ deps_of e → d ≠ name e).
Proof.
  unfold new_DependencyResolver.
  destruct (buildElementMap els []) as [m|] eqn:Hm; [|done].
  destruct (validateDependencies m els) as [[]|] eqn:Hv; [|done].
  intros [= <-]. cbn [elements elementMap adjacencyList inDegree].
  apply (buildElementMap_spec els []) in Hm as [-> Hnd]; [|apply NoDup_nil_2].
  rewrite app_nil_l in *.
  pose proof (validateDependencies_spec _ _ Hv) as Hdeps.
  assert (map_keys (buildGraph_init els ([], [])).2 = names_of els) as Hk0.
  { rewrite buildGraph_init_keys; [done | done]. }
  destruct (buildGraph_edges_spec els (buildGraph_init els ([], [])) Hnd)
    as (E1 & E2 & E3 & E4).
  { intros e He. rewrite Hk0. unfold names_of. by apply list_elem_of_fmap_2. }
  split_and!; [done| |split|].
  - split; cbn [elements elementMap adjacencyList inDegree]; [done|done| |].
    + intros e d He Hd. destruct (Hdeps e d He Hd) as [_ Hin].
      by rewrite map_keys_mk in Hin.
    + intros u Hu. unfold buildGraph.
      destruct (E4 u []) as (ns & G1 & G2 & G3).
      { destruct (buildGraph_init_get els ([], []) u) as [-> _].
        by rewrite decide_True. }
      { apply NoDup_nil_2. }
      exists ns. split_and!; [done..|]. intros w. rewrite G3.
      split; [intros [Hw|?]; [by apply elem_of_nil in Hw | done] | by right].
  - cbn [elements inDegree]. unfold buildGraph. by rewrite E1.
  - cbn [elements inDegree]. intros e He. unfold buildGraph.
    rewrite (E2 e 0 He); [f_equal; lia|].
    destruct (buildGraph_init_get els ([], []) (name e)) as [_ ->].
    rewrite decide_True; [done|]. unfold names_of. by apply list_elem_of_fmap_2.
  - intros e d He Hd. by destruct (Hdeps e d He Hd).
Qed.

(** *** Orders and cycles *)

Section Topo.
Variable els : list Element.

Lemma topo_rev_closed l x y :
  topo_rev els l → x ∈ l → depends_on els x y → y ∈ l.
Proof.
  induction l as [|v l IH]; cbn [topo_rev]; intros Ht Hx Hd.
  - by apply elem_of_nil in Hx.
  - destruct Ht as [Hv Ht]. apply elem_of_cons in Hx as [->|Hx].
    + right. by apply Hv.
    + right. by apply IH.
Qed.

Lemma topo_rev_tc_closed l x y :
  topo_rev els l → x ∈ l → tc (depends_on els) x y → y ∈ l.
Proof.
  intros Ht Hx Htc. induction Htc as [x y Hd|x y z Hd _ IH].
  - by eapply topo_rev_closed.
  - apply IH. by eapply topo_rev_closed.
Qed.

Lemma topo_rev_no_cycle l x :
  topo_rev els l → x ∈ l → ¬ tc (depends_on els) x x.
Proof.
  induction l as [|v l IH]; cbn [topo_rev]; intros Ht Hx Hc.
  - by apply elem_of_nil in Hx.
  - destruct Ht as [Hv Ht].
    assert (x ∈ l) as Hxl; [|by apply IH].
    apply elem_of_cons in Hx as [->|Hx]; [|done].
    inversion Hc as [? ? Hd|? d ? Hd Hdv]; subst.
    + by apply Hv.
    + eapply topo_rev_tc_closed; [done| |done]. by apply Hv.
Qed.

Lemma tc_depends_on_name x y :
  tc (depends_on els) x y → x ∈ names_of els.
Proof.
  intros Htc. destruct Htc as [x y (e & He & <- & _)|x y z (e & He & <- & _) _];
    unfold names_of; by apply list_elem_of_fmap_2.
Qed.

(** A list that covers all names and in which every entry depends only
    on later entries witnesses that the graph has no cycle. *)
Lemma topo_rev_acyclic l :
  topo_rev els l → (∀ v, v ∈ names_of els → v ∈ l) → acyclic els.
Proof.
  intros Ht Hall [x Hc]. eapply topo_rev_no_cycle; [done| |done].
  apply Hall. by eapply tc_depends_on_name.
Qed.

Lemma map_get_mk_elem (l : list Element) e :
  NoDup (names_of l) → e ∈ l →
  map_get (name e) ((fun e => (name e, e)) <$> l) = Some e.
Proof.
  induction l as [|e0 l IH]; intros Hnd He.
  - by apply elem_of_nil in He.
  - change (names_of (e0 :: l)) with (name e0 :: names_of l) in Hnd.
    apply NoDup_cons in Hnd as [Hfresh Hnd]. cbn [fmap list_fmap map_get].
    apply elem_of_cons in He as [->|He].
    + by rewrite decide_True.
    + rewrite decide_False; [by apply IH|].
      intros Heq. apply Hfresh. rewrite <- Heq. unfold names_of.
      by apply list_elem_of_fmap_2.
Qed.

Lemma map_get_mk_Some (l : list Element) v e :
  map_get v ((fun e => (name e, e)) <$> l) = Some e → e ∈ l ∧ name e = v.
Proof.
  induction l as [|e0 l IH]; cbn [fmap list_fmap map_get]; [done|].
  destruct (decide (v = name e0)) as [->|Hne].
  - intros [= <-]. split; [by left | done].
  - intros [He Hn]%IH. split; [by right | done].
Qed.

End Topo.

(** *** Facts about a constructed resolver *)

Section Resolver.
Variable r : DependencyResolver.
Hypothesis Hwf : wf_graph r.

Lemma elementMap_lookup e :
  e ∈ elements r → map_get (name e) (elementMap r) = Some e.
Proof.
  intros He. rewrite (wf_map r Hwf). apply map_get_mk_elem; [apply Hwf | done].
Qed.

Lemma elementMap_lookup_inv v e :
  map_get v (elementMap r) = Some e → e ∈ elements r ∧ name e = v.
Proof. rewrite (wf_map r Hwf). apply map_get_mk_Some. Qed.

Lemma elementMap_name v :
  v ∈ names_of (elements r) →
  ∃ e, e ∈ elements r ∧ name e = v ∧ map_get v (elementMap r) = Some e.
Proof.
  intros (e & -> & He)%list_elem_of_fmap. exists e.
  split_and!; [done..|]. by apply elementMap_lookup.
Qed.

Lemma elements_name_inj e1 e2 :
  e1 ∈ elements r → e2 ∈ elements r → name e1 = name e2 → e1 = e2.
Proof.
  intros H1 H2 Heq. apply elementMap_lookup in H1, H2.
  rewrite Heq in H1. congruence.
Qed.

Lemma depends_on_deps e d :
  e ∈ elements r → depends_on (elements r) (name e) d ↔ d ∈ deps_of e.
Proof.
  intros He. split.
  - intros (e' & He' & Hn & Hd). by rewrite <- (elements_name_inj e' e).
  - intros Hd. by exists e.
Qed.

Lemma deps_of_name_depends_on x y :
  y ∈ deps_of_name r x ↔ depends_on (elements r) x y.
Proof.
  unfold deps_of_name. destruct (map_get x (elementMap r)) as [e|] eqn:Hx.
  - apply elementMap_lookup_inv in Hx as [He <-]. by rewrite depends_on_deps.
  - split; [intros Hy; by apply elem_of_nil in Hy|].
    intros (e & He & <- & _). apply elementMap_lookup in He. congruence.
Qed.

End Resolver.

(** *** The loop of [topologicalSort] *)

Lemma filter_ext_elem {A} (P Q : A → Prop) `{∀ x, Decision (P x)}
    `{∀ x, Decision (Q x)} (l : list A) :
  (∀ x, x ∈ l → (P x ↔ Q x)) → filter P l = filter Q l.
Proof.
  induction l as [|a l IH]; intros Hext; [done|].
  rewrite !filter_cons.
  assert (filter P l = filter Q l) as ->.
  { apply IH. intros x Hx. apply Hext. by right. }
  destruct (decide (P a)) as [HP|HP], (decide (Q a)) as [HQ|HQ]; try done.
  - exfalso. apply HQ, Hext; [by left | done].
  - exfalso. apply HP, Hext; [by left | done].
Qed.

(** Summary of the loop over the neighbours of the dequeued node. *)
Lemma relax_fold ns deg q :
  NoDup ns →
  (∀ v, map_get v (foldl relax (deg, q) ns).1
        = if decide (v ∈ ns) then Some (default 0 (map_get v deg) - 1)
          else map_get v deg) ∧
  (foldl relax (deg, q) ns).2
  = q ++ filter (fun w => default 0 (map_get w deg) - 1 = 0) ns.
Proof.
  revert deg q. induction ns as [|w ns IH]; intros deg q Hnd; cbn [foldl].
  - split; [|by rewrite app_nil_r].
    intros v. by rewrite decide_False by apply not_elem_of_nil.
  - apply NoDup_cons in Hnd as [Hw Hnd].
    destruct (IH (relax (deg, q) w).1 (relax (deg, q) w).2 Hnd) as [IH1 IH2].
    rewrite <- surjective_pairing in IH1, IH2.
    split.
    + intros v. rewrite IH1. unfold relax. cbn [fst snd].
      destruct (decide (v ∈ ns)) as [Hin|Hnin].
      * rewrite decide_True by (by right).
        rewrite map_get_set_ne; [done|]. intros ->. done.
      * rewrite map_get_set. destruct (decide (w = v)) as [->|Hne].
        -- by rewrite decide_True by (by left).
        -- rewrite decide_False; [done|]. by intros [?|?]%elem_of_cons.
    + rewrite IH2. unfold relax. cbn [fst snd].
      rewrite filter_cons.
      rewrite (filter_ext_elem
                 (fun w0 => default 0 (map_get w0 (map_set w (default 0 (map_get w deg) - 1) deg)) - 1 = 0)
                 (fun w0 => default 0 (map_get w0 deg) - 1 = 0) ns).
      * destruct (decide (default 0 (map_get w deg) - 1 = 0)); [|done].
        by rewrite <- app_assoc.
      * intros x Hx. rewrite map_get_set_ne; [done|]. intros ->. done.
Qed.

Lemma filter_elem_length_lt (p d : list jsstring) x :
  NoDup p → x ∈ d → x ∉ p →
  (length (filter (fun u => u ∈ d) p) < length d)%nat.
Proof.
  intros Hnd Hx Hnx.
  assert (x :: filter (fun u => u ∈ d) p ⊆+ d) as Hsub.
  { apply NoDup_submseteq.
    - apply NoDup_cons. split; [|by apply NoDup_filter].
      intros [_ ?]%list_elem_of_filter. done.
    - intros y [->|[? _]%list_elem_of_filter]%elem_of_cons; done. }
  apply submseteq_length in Hsub. cbn [length] in Hsub. lia.
Qed.

Lemma filter_elem_length_full (p d : list jsstring) :
  NoDup p → length (filter (fun u => u ∈ d) p) = length d →
  ∀ y, y ∈ d → y ∈ p.
Proof.
  intros Hnd Hlen y Hy.
  assert (filter (fun u => u ∈ d) p ⊆+ d) as Hsub.
  { apply NoDup_submseteq; [by apply NoDup_filter|].
    by intros z [? _]%list_elem_of_filter. }
  apply submseteq_length_Permutation in Hsub; [|lia].
  rewrite <- Hsub in Hy. by apply list_elem_of_filter in Hy as [_ ?].
Qed.

Lemma filter_elem_length_eq (p d : list jsstring) :
  NoDup p → NoDup d → (∀ y, y ∈ d → y ∈ p) →
  length (filter (fun u => u ∈ d) p) = length d.
Proof.
  intros Hp Hd Hsub. apply Nat.le_antisymm.
  - apply submseteq_length, NoDup_submseteq; [by apply NoDup_filter|].
    by intros z [? _]%list_elem_of_filter.
  - apply submseteq_length, NoDup_submseteq; [done|].
    intros z Hz. apply list_elem_of_filter. split; [done | by apply Hsub].
Qed.

Section Kahn.
Variable r : DependencyResolver.
Hypothesis Hwf : wf_graph r.

Lemma kahn_step current q' deg result :
  kahn_inv r (current :: q') deg result →
  ∃ element, map_get current (elementMap r) = Some element ∧
    kahn_inv r
      (foldl relax (deg, q') (default [] (map_get current (adjacencyList r)))).2
      (foldl relax (deg, q') (default [] (map_get current (adjacencyList r)))).1
      (result ++ [element]).
Proof.
  intros [Kres Knd Kq Kdeg Kzero Ktopo Kready].
  assert (current ∈ names_of (elements r)) as Hcur by (apply Kq; by left).
  destruct (elementMap_name r Hwf current Hcur) as (element & Hel & Hname & Hget).
  destruct (wf_adj r Hwf current Hcur) as (ns & Hns & Hnsnd & Hnsiff).
  exists element. split; [done|]. rewrite Hns.
  change (default [] (Some ns)) with ns.
  destruct (relax_fold ns deg q' Hnsnd) as [F1 F2].
  rewrite F2. set (deg' := (foldl relax (deg, q') ns).1) in *.
  set (pushed := filter (fun w => default 0 (map_get w deg) - 1 = 0) ns).
  assert (names_of (result ++ [element]) = names_of result ++ [current]) as Hnames.
  { unfold names_of. rewrite fmap_app. cbn. by rewrite Hname. }
  apply NoDup_app in Knd as (Knd1 & Kdisj & Knd2).
  apply NoDup_cons in Knd2 as [Hcurq Knd2].
  assert (current ∉ names_of result) as Hcurres.
  { intros Hin. apply (Kdisj _ Hin). by left. }
  assert (NoDup (names_of result ++ [current])) as Hnd1.
  { apply NoDup_app. split_and!; [done| |apply NoDup_singleton].
    intros x Hx ->%list_elem_of_singleton. done. }
  assert (∀ e, e ∈ elements r → (name e ∈ ns ↔ current ∈ deps_of e)) as Hnsdeps.
  { intros e He. rewrite Hnsiff. by apply (depends_on_deps r Hwf). }
  assert (∀ w, w ∈ ns → ∃ e, e ∈ elements r ∧ name e = w) as Hnsname.
  { intros w (e & He & Hn & _)%Hnsiff. by exists e. }
  assert (∀ e, e ∈ elements r → name e ∈ ns →
            ∃ z, map_get (name e) deg = Some z ∧ 1 ≤ z) as Hpos.
  { intros e He Hin. eexists. split; [by apply Kdeg|].
    apply Hnsdeps in Hin; [|done].
    pose proof (filter_elem_length_lt (names_of result) (deps_of e) current
                  Knd1 Hin Hcurres). lia. }
  assert (∀ e, e ∈ elements r →
    map_get (name e) deg'
    = Some (Z.of_nat (length (deps_of e))
            - Z.of_nat (length (filter (fun u => u ∈ deps_of e)
                                  (names_of result ++ [current]))))) as Kdeg'.
  { intros e He. unfold deg'. rewrite F1, filter_app, length_app, filter_cons.
    rewrite (Kdeg e He). cbn [default].
    destruct (decide (name e ∈ ns)) as [Hin|Hnin].
    - rewrite decide_True by (by apply Hnsdeps). cbn. f_equal. lia.
    - rewrite decide_False by (by rewrite <- Hnsdeps). cbn. f_equal. lia. }
  assert (∀ w, w ∈ pushed → w ∉ names_of result ++ current :: q') as Hpushed_fresh.
  { intros w [Hw Hwns]%list_elem_of_filter Hin.
    destruct (Hnsname w Hwns) as (e & He & <-).
    apply Kzero in Hin; [|unfold names_of; by apply list_elem_of_fmap_2].
    rewrite Hin in Hw. cbn in Hw. lia. }
  split.
  - intros e [He|He%list_elem_of_singleton]%elem_of_app; [by apply Kres | by subst].
  - rewrite Hnames.
    replace ((names_of result ++ [current]) ++ q' ++ pushed)
      with ((names_of result ++ current :: q') ++ pushed)
      by (by rewrite <- !app_assoc).
    apply NoDup_app. split_and!.
    + apply NoDup_app. split_and!; [done| |by apply NoDup_cons].
      intros x Hx Hx'. by apply (Kdisj x).
    + intros x Hx Hx'. by apply (Hpushed_fresh x).
    + by apply NoDup_filter.
  - intros v [Hv|[_ Hv]%list_elem_of_filter]%elem_of_app.
    + apply Kq. by right.
    + destruct (Hnsname v Hv) as (e & He & <-).
      unfold names_of. by apply list_elem_of_fmap_2.
  - rewrite Hnames. done.
  - intros v Hv. rewrite Hnames.
    destruct (elementMap_name r Hwf v Hv) as (e & He & <- & _).
    unfold deg'. rewrite F1. split.
    + intros Hin. destruct (decide (name e ∈ pushed)) as [Hp|Hp].
      * apply list_elem_of_filter in Hp as [Hp Hpns].
        rewrite decide_True by done. by rewrite Hp.
      * assert (name e ∈ names_of result ++ current :: q') as Hold.
        { rewrite !elem_of_app in Hin. rewrite elem_of_app, elem_of_cons.
          rewrite list_elem_of_singleton in Hin. tauto. }
        apply Kzero in Hold; [|done].
        rewrite decide_False; [done|]. intros Hns'.
        destruct (Hpos e He Hns') as (z & Hz & Hz1). rewrite Hz in Hold.
        injection Hold as ->. lia.
    + destruct (decide (name e ∈ ns)) as [Hin|Hnin].
      * intros [= Hz]. rewrite !elem_of_app. right. right.
        apply list_elem_of_filter. done.
      * intros Hz. apply Kzero in Hz; [|done].
        rewrite !elem_of_app. rewrite elem_of_app, elem_of_cons in Hz.
        rewrite list_elem_of_singleton. tauto.
  - rewrite Hnames, reverse_snoc. cbn [topo_rev]. split; [|done].
    intros d Hd. apply elem_of_reverse. apply (Kready current); [by left | done].
  - intros v d Hv Hd. rewrite Hnames.
    apply elem_of_app in Hv as [Hv|Hv].
    + apply elem_of_app. left. apply (Kready v); [by right | done].
    + assert (Hv' := Hv). apply list_elem_of_filter in Hv' as [Hv0 Hvns].
      destruct (Hnsname v Hvns) as (e & He & <-).
      apply (filter_elem_length_full _ (deps_of e));
        [done| |by apply (depends_on_deps r Hwf e d He)].
      pose proof (Kdeg' e He) as Hd'. unfold deg' in Hd'. rewrite F1 in Hd'.
      rewrite decide_True in Hd' by done. rewrite Hv0 in Hd'.
      injection Hd' as Hd'. lia.
Qed.

End Kahn.

Lemma map_get_elem {V} (m : list (jsstring * V)) k v :
  NoDup (map_keys m) → (map_get k m = Some v ↔ (k, v) ∈ m).
Proof.
  unfold map_keys. induction m as [|[k0 v0] m IH]; cbn [fmap list_fmap map_get].
  - intros _. split; [done | intros Hin; by apply elem_of_nil in Hin].
  - intros [Hfresh Hnd]%NoDup_cons. cbn [fst] in Hfresh.
    destruct (decide (k = k0)) as [->|Hne].
    + split.
      * intros [= ->]. by left.
      * intros [[= ->]|Hin]%elem_of_cons; [done|].
        exfalso. apply Hfresh. by apply (list_elem_of_fmap_2 fst _ (k0, v)).
    + rewrite IH by done. split; [by right|].
      intros [[= -> ->]|Hin]%elem_of_cons; done.
Qed.

Section KahnLoop.
Variable r : DependencyResolver.
Hypothesis Hwf : wf_graph r.

Lemma kahn_inv_length queue deg result :
  kahn_inv r queue deg result →
  (length result + length queue ≤ length (elements r))%nat.
Proof.
  intros K.
  assert (names_of result ++ queue ⊆+ names_of (elements r)) as Hsub.
  { apply NoDup_submseteq; [apply K|].
    intros x [Hx|Hx]%elem_of_app.
    - apply list_elem_of_fmap in Hx as (e & -> & He).
      unfold names_of. apply list_elem_of_fmap_2. by apply (ki_result _ _ _ _ K).
    - by apply (ki_queue _ _ _ _ K). }
  apply submseteq_length in Hsub. unfold names_of in Hsub.
  rewrite length_app, !length_fmap in Hsub. done.
Qed.

Lemma kahn_loop fuel queue deg result :
  kahn_inv r queue deg result →
  (length (elements r) ≤ length result + fuel)%nat →
  ∃ result' deg',
    topologicalSort_loop fuel r queue deg result = Some (result', deg') ∧
    kahn_inv r [] deg' result'.
Proof.
  revert queue deg result.
  induction fuel as [|fuel IH]; intros queue deg result K Hfuel.
  - destruct queue as [|current q'].
    + exists result, deg. done.
    + apply kahn_inv_length in K. cbn [length] in K. lia.
  - destruct queue as [|current q'].
    + exists result, deg. done.
    + destruct (kahn_step r Hwf _ _ _ _ K) as (element & Hget & K').
      cbn [topologicalSort_loop]. rewrite Hget.
      apply IH; [done|]. rewrite length_app. cbn [length]. lia.
Qed.

Lemma kahn_inv_init :
  fresh_degrees r →
  kahn_inv r (fst <$> filter (fun kd => kd.2 = 0) (inDegree r)) (inDegree r) [].
Proof.
  intros [Hkeys Hdeg].
  assert (NoDup (map_keys (inDegree r))) as Hnd.
  { rewrite Hkeys. apply Hwf. }
  assert (∀ v, v ∈ fst <$> filter (fun kd => kd.2 = 0) (inDegree r)
               ↔ map_get v (inDegree r) = Some 0) as Hq.
  { intros v. rewrite list_elem_of_fmap. split.
    - intros ([k d] & -> & [Hd Hin]%list_elem_of_filter). cbn in *. subst d.
      by apply map_get_elem.
    - intros Hget. exists (v, 0). split; [done|].
      apply list_elem_of_filter. split; [done|]. by apply map_get_elem. }
  split.
  - intros e He. by apply elem_of_nil in He.
  - cbn [names_of fmap list_fmap app].
    eapply sublist_NoDup; [exact Hnd|].
    unfold map_keys. apply fmap_sublist, sublist_filter.
  - intros v Hv. rewrite <- Hkeys. apply Hq in Hv. by eapply map_get_Some_key.
  - intros e He. rewrite (Hdeg e He). cbn. f_equal. lia.
  - intros v Hv. cbn [names_of fmap list_fmap app]. apply Hq.
  - done.
  - intros v d Hv (e & He & <- & Hd). apply Hq in Hv.
    rewrite (Hdeg e He) in Hv. injection Hv as Hv.
    destruct (deps_of e); [by apply elem_of_nil in Hd | cbn in Hv; lia].
Qed.

Lemma topologicalSort_spec :
  fresh_degrees r →
  ∃ result deg',
    topologicalSort r
    = Some (result, mkResolver (elements r) (elementMap r) (adjacencyList r) deg') ∧
    kahn_inv r [] deg' result.
Proof.
  intros Hfresh. unfold topologicalSort.
  destruct (kahn_loop (length (inDegree r)) _ _ _ (kahn_inv_init Hfresh))
    as (result & deg' & Hloop & K).
  { destruct Hfresh as [Hkeys _].
    assert (length (map_keys (inDegree r)) = length (names_of (elements r))) as Hl
      by (by rewrite Hkeys).
    unfold map_keys, names_of in Hl. rewrite !length_fmap in Hl. cbn. lia. }
  exists result, deg'. by rewrite Hloop.
Qed.

End KahnLoop.

(** *** Finite graphs without sinks have cycles *)

Section NoSink.
Context {A : Type} `{EqDecision A}.
Variables (R : relation A) (P : A → Prop) (U : list A).
Hypothesis P_in : ∀ x, P x → x ∈ U.
Hypothesis P_step : ∀ x, P x → ∃ y, R x y ∧ P y.

Lemma chain_or_cycle x0 n :
  P x0 →
  (∃ x, tc R x x) ∨
  ∃ h p, length p = n ∧ NoDup (h :: p) ∧ (∀ z, z ∈ h :: p → P z) ∧
         (∀ z, z ∈ p → tc R z h).
Proof.
  intros Hx0. induction n as [|n [Hc|(h & p & Hlen & Hnd & HP & Htc)]].
  - right. exists x0, []. split_and!; [done| | |].
    + apply NoDup_singleton.
    + by intros z ->%list_elem_of_singleton.
    + intros z Hz. by apply elem_of_nil in Hz.
  - by left.
  - destruct (P_step h) as (y & Hy & HPy); [apply HP; by left|].
    destruct (decide (y ∈ h :: p)) as [Hin|Hnin].
    + left. exists y. apply elem_of_cons in Hin as [->|Hin].
      * by apply tc_once.
      * eapply tc_r; [by apply Htc | done].
    + right. exists y, (h :: p). split_and!.
      * cbn [length]. by rewrite Hlen.
      * by apply NoDup_cons.
      * intros z [->|Hz]%elem_of_cons; [done | by apply HP].
      * intros z [->|Hz]%elem_of_cons; [by apply tc_once|].
        eapply tc_r; [by apply Htc | done].
Qed.

Lemma no_sink_cycle x0 : P x0 → ∃ x, tc R x x.
Proof.
  intros Hx0.
  destruct (chain_or_cycle x0 (length U) Hx0)
    as [Hc|(h & p & Hlen & Hnd & HP & _)]; [done|].
  exfalso.
  assert (h :: p ⊆+ U) as Hsub.
  { apply NoDup_submseteq; [done|]. intros z Hz. by apply P_in, HP. }
  apply submseteq_length in Hsub. cbn [length] in Hsub. lia.
Qed.

End NoSink.

(** *** The result of [topologicalSort] *)

Section KahnResult.
Variable r : DependencyResolver.
Hypothesis Hwf : wf_graph r.
Variables (result : list Element) (deg' : list (jsstring * Z)).
Hypothesis K : kahn_inv r [] deg' result.

Lemma kahn_names_NoDup : NoDup (names_of result).
Proof. pose proof (ki_nodup _ _ _ _ K) as H. by rewrite app_nil_r in H. Qed.

Lemma kahn_names_sub : names_of result ⊆+ names_of (elements r).
Proof.
  apply NoDup_submseteq; [apply kahn_names_NoDup|].
  intros x (e & -> & He)%list_elem_of_fmap.
  unfold names_of. apply list_elem_of_fmap_2. by apply (ki_result _ _ _ _ K).
Qed.

(** When the lengths agree the order covers every element, so the graph
    has no cycle. *)
Lemma kahn_full_acyclic :
  length result = length (elements r) → acyclic (elements r).
Proof.
  intros Hlen.
  assert (names_of result ≡ₚ names_of (elements r)) as Hperm.
  { apply submseteq_length_Permutation; [apply kahn_names_sub|].
    unfold names_of. rewrite !length_fmap. lia. }
  apply (topo_rev_acyclic _ (reverse (names_of result))); [apply K|].
  intros v Hv. apply elem_of_reverse. by rewrite Hperm.
Qed.

(** Without duplicate entries in the dependency lists, an element that
    was left out waits for a dependency that was left out too. *)
Lemma kahn_left_out v :
  (∀ e, e ∈ elements r → NoDup (deps_of e)) →
  v ∈ names_of (elements r) → v ∉ names_of result →
  ∃ d, depends_on (elements r) v d ∧
       d ∈ names_of (elements r) ∧ d ∉ names_of result.
Proof.
  intros Hdeps Hv Hnot.
  destruct (elementMap_name r Hwf v Hv) as (e & He & <- & _).
  destruct (decide (Forall (fun d => d ∈ names_of result) (deps_of e)))
    as [Hall|Hex].
  - exfalso. apply Hnot.
    pose proof (ki_zero _ _ _ _ K (name e) Hv) as Hz.
    rewrite app_nil_r in Hz. apply Hz.
    rewrite (ki_deg _ _ _ _ K e He). f_equal.
    rewrite filter_elem_length_eq; [lia|apply kahn_names_NoDup|by apply Hdeps|].
    by apply Forall_forall.
  - apply not_Forall_Exists in Hex; [|apply _].
    apply Exists_exists in Hex as (d & Hd & Hdn). exists d. split_and!.
    + by exists e.
    + by apply (wf_deps r Hwf e).
    + done.
Qed.

Lemma kahn_complete :
  (∀ e, e ∈ elements r → NoDup (deps_of e)) →
  acyclic (elements r) →
  ∀ v, v ∈ names_of (elements r) → v ∈ names_of result.
Proof.
  intros Hdeps Hacyc v Hv.
  destruct (decide (v ∈ names_of result)) as [|Hnot]; [done|].
  exfalso. apply Hacyc.
  apply (no_sink_cycle (depends_on (elements r))
           (fun x => x ∈ names_of (elements r) ∧ x ∉ names_of result)
           (names_of (elements r))) with (x0 := v).
  - by intros x [? _].
  - intros x [Hx Hxn]. destruct (kahn_left_out x Hdeps Hx Hxn) as (d & ? & ? & ?).
    by exists d.
  - done.
Qed.

Lemma kahn_result_Permutation :
  (∀ v, v ∈ names_of (elements r) → v ∈ names_of result) →
  result ≡ₚ elements r.
Proof.
  intros Hall.
  assert (NoDup (elements r)) as Hnd.
  { eapply NoDup_fmap_1. apply Hwf. }
  apply NoDup_Permutation; [eapply NoDup_fmap_1, kahn_names_NoDup | done |].
  intros e. split; [apply K|]. intros He.
  assert (name e ∈ names_of result) as (e' & Hn & He')%list_elem_of_fmap.
  { apply Hall. unfold names_of. by apply list_elem_of_fmap_2. }
  rewrite (elements_name_inj r Hwf e e'); [done..|by apply K|done].
Qed.

End KahnResult.

(** *** Positions in an execution order *)

Lemma topo_rev_order els (l : list jsstring) i j x y :
  topo_rev els (reverse l) → NoDup l →
  l !! i = Some x → l !! j = Some y → depends_on els y x → (i < j)%nat.
Proof.
  revert i j x y. induction l as [|v l IH] using rev_ind; intros i j x y Ht Hnd Hi Hj Hd.
  - done.
  - rewrite reverse_snoc in Ht. destruct Ht as [Hv Ht].
    assert (NoDup l) as Hndl.
    { apply NoDup_app in Hnd as (? & _ & _). done. }
    assert (∀ k z, z ∈ l → (l ++ [v]) !! k = Some z → l !! k = Some z) as Hin.
    { intros k z Hz Hk. apply list_elem_of_lookup in Hz as [k' Hk'].
      rewrite <- (NoDup_lookup _ k' k z Hnd); [done| |done].
      by apply lookup_app_l_Some. }
    destruct (decide (j < length l)%nat) as [Hjl|Hjl].
    + rewrite lookup_app_l in Hj by done.
      assert (x ∈ l) as Hx.
      { apply elem_of_reverse. eapply topo_rev_closed; [done| |done].
        apply elem_of_reverse. by eapply list_elem_of_lookup_2. }
      eapply IH; [done|done| |done|done]. by apply Hin.
    + assert (y = v) as ->.
      { apply lookup_lt_Some in Hj as Hlt. rewrite length_app in Hlt. cbn in Hlt.
        assert (j = length l) as -> by lia.
        rewrite lookup_app_r, Nat.sub_diag in Hj by lia. by injection Hj. }
      assert (x ∈ l) as Hx by (apply elem_of_reverse; by apply Hv).
      apply Hin in Hi; [|done]. apply lookup_lt_Some in Hi. lia.
Qed.

(** *** Chains and the reported cycle *)

Section Chains.
Variable els : list Element.

Lemma is_chain_snoc p x :
  is_chain els p → (∀ l, last p = Some l → depends_on els l x) →
  is_chain els (p ++ [x]).
Proof.
  induction p as [|a p IH]; intros Hc Hl; [done|].
  destruct p as [|b p].
  - cbn. split; [|done]. by apply Hl.
  - destruct Hc as [Hab Hc]. split; [done|]. apply IH; [done|].
    intros l Hlast. apply Hl. done.
Qed.

Lemma is_chain_tail a p : is_chain els (a :: p) → is_chain els p.
Proof. destruct p as [|b p]; [done|]. by intros [_ ?]. Qed.

Lemma is_chain_drop p i : is_chain els p → is_chain els (drop i p).
Proof.
  revert p. induction i as [|i IH]; intros p Hc; [by rewrite drop_0|].
  destruct p as [|a p]; [done|]. cbn [drop]. apply IH. by eapply is_chain_tail.
Qed.

Lemma indexOf_elem x (p : list jsstring) :
  x ∈ p → ∃ i, indexOf x p = Some i ∧ p !! i = Some x.
Proof.
  induction p as [|a p IH]; intros Hx; [by apply elem_of_nil in Hx|].
  cbn [indexOf]. destruct (decide (x = a)) as [->|Hne].
  - by exists 0%nat.
  - apply elem_of_cons in Hx as [?|Hx]; [done|].
    destruct (IH Hx) as (i & -> & Hi). by exists (S i).
Qed.

Lemma last_drop_lookup (p : list jsstring) i x :
  p !! i = Some x → last (drop i p) = last p.
Proof.
  revert i. induction p as [|a p IH]; intros i Hi; [done|].
  destruct i as [|i]; [done|]. cbn [drop]. cbn in Hi.
  rewrite (IH i Hi). destruct p; [done | done].
Qed.

(** The names reported for a back edge from the end of the path to a
    node on it form a closed walk. *)
Lemma cycle_names_cycle node p :
  is_chain els p → node ∈ p →
  (∀ l, last p = Some l → depends_on els l node) →
  cycle_path els (cycle_names node p).
Proof.
  intros Hc Hin Hl. unfold cycle_names, slice_from_indexOf.
  destruct (indexOf_elem node p Hin) as (i & -> & Hi).
  pose proof (last_drop_lookup p i node Hi) as Hlast.
  rewrite (drop_S _ _ _ Hi) in *.
  split_and!.
  - apply is_chain_snoc.
    + rewrite <- (drop_S _ _ _ Hi). by apply is_chain_drop.
    + intros l Hl'. apply Hl. by rewrite <- Hlast.
  - cbn [length app]. rewrite length_app. cbn. lia.
  - cbn [app head]. change (node :: drop (S i) p ++ [node])
      with ((node :: drop (S i) p) ++ [node]). by rewrite last_snoc.
Qed.

End Chains.

Lemma truthy_join (p : list jsstring) :
  (2 ≤ length p)%nat → truthy_string (join arrow_sep p) = true.
Proof.
  destruct p as [|a [|b p]]; cbn [length]; [lia..|]. intros _.
  cbn [join]. destruct a; done.
Qed.

(** *** The depth-first search of [detectCycle] *)

Lemma filter_length_mono {A} (P Q : A → Prop) `{∀ x, Decision (P x)}
    `{∀ x, Decision (Q x)} (l : list A) :
  (∀ x, P x → Q x) → (length (filter P l) ≤ length (filter Q l))%nat.
Proof.
  intros HPQ. induction l as [|a l IH]; [done|].
  rewrite !filter_cons.
  destruct (decide (P a)) as [HP|HP], (decide (Q a)) as [HQ|HQ]; cbn [length];
    [lia | by exfalso; apply HQ, HPQ | lia | lia].
Qed.

Lemma filter_length_lt {A} (P Q : A → Prop) `{∀ x, Decision (P x)}
    `{∀ x, Decision (Q x)} (l : list A) a :
  (∀ x, P x → Q x) → a ∈ l → Q a → ¬ P a →
  (length (filter P l) < length (filter Q l))%nat.
Proof.
  intros HPQ Ha HQa HPa. induction l as [|b l IH]; [by apply elem_of_nil in Ha|].
  rewrite !filter_cons.
  pose proof (filter_length_mono P Q l HPQ) as Hmono.
  apply elem_of_cons in Ha as [<-|Ha].
  - rewrite decide_False, decide_True by done. cbn [length]. lia.
  - specialize (IH Ha).
    destruct (decide (P b)) as [HP|HP], (decide (Q b)) as [HQ|HQ]; cbn [length];
      [lia | by exfalso; apply HQ, HPQ | lia | lia].
Qed.

Section Dfs.
Variable r : DependencyResolver.
Hypothesis Hwf : wf_graph r.

Lemma unvisited_mono st st' :
  visited st ⊆ visited st' →
  (length (unvisited r st') ≤ length (unvisited r st))%nat.
Proof.
  intros Hsub. unfold unvisited. apply filter_length_mono.
  intros x Hx Hin. apply Hx. by apply Hsub.
Qed.

Lemma unvisited_visit st st' node :
  node ∈ names_of (elements r) → node ∉ visited st →
  {[node]} ∪ visited st ⊆ visited st' →
  (length (unvisited r st') < length (unvisited r st))%nat.
Proof.
  intros Hn Hnot Hsub. unfold unvisited.
  apply (filter_length_lt _ _ _ node); [|done|done|].
  - intros x Hx Hin. apply Hx. apply Hsub. set_solver.
  - intros Hx. apply Hx. apply Hsub. set_solver.
Qed.

Lemma dfs_inv_visit st node :
  dfs_inv r st → node ∉ visited st →
  (∀ l, last (path st) = Some l → depends_on (elements r) l node) →
  dfs_inv r (mkDfs ({[node]} ∪ visited st) ({[node]} ∪ recursionStack st)
                   (path st ++ [node])).
Proof.
  intros [Hc Hnd Hst Hvis (fin & Hfin & Hfiniff)] Hnot Hl.
  assert (node ∉ recursionStack st) as Hns.
  { intros Hin. apply Hnot. by apply Hvis. }
  split; cbn [path recursionStack visited].
  - by apply is_chain_snoc.
  - apply NoDup_app. split_and!; [done| |apply NoDup_singleton].
    intros x Hx ->%list_elem_of_singleton. apply Hns. by apply Hst.
  - intros x. rewrite elem_of_union, elem_of_singleton, elem_of_app,
      list_elem_of_singleton, Hst. tauto.
  - set_solver.
  - exists fin. split; [done|]. intros x. rewrite Hfiniff.
    rewrite !elem_of_union, !elem_of_singleton. split.
    + intros [Hx Hxs]. split; [by right|]. intros [->|?]; done.
    + intros [[->|Hx] Hxs]; [exfalso; apply Hxs; by left|].
      split; [done|]. intros ?. apply Hxs. by right.
Qed.

(** Leaving a node whose dependencies are all finished. *)
Lemma dfs_inv_leave st s' node :
  dfs_inv r s' → node ∉ recursionStack st →
  path s' = path st ++ [node] →
  recursionStack s' = {[node]} ∪ recursionStack st →
  node ∈ visited s' →
  (∀ d, depends_on (elements r) node d → d ∈ visited s' ∧ d ∉ recursionStack s') →
  dfs_inv r (mkDfs (visited s') (recursionStack s' ∖ {[node]}) (removelast (path s'))) ∧
  removelast (path s') = path st ∧
  recursionStack s' ∖ {[node]} = recursionStack st.
Proof.
  intros [Hc Hnd Hst Hvis (fin & Hfin & Hfiniff)] Hns Hp Hs Hnv Hdeps.
  assert (removelast (path s') = path st) as Hrl.
  { rewrite Hp. apply removelast_last. }
  assert (recursionStack s' ∖ {[node]} = recursionStack st) as Hrs.
  { rewrite Hs. set_solver. }
  split; [|done]. split; cbn [path recursionStack visited]; rewrite ?Hrl, ?Hrs.
  - rewrite Hp in Hc. clear -Hc. induction (path st) as [|a p IH]; [done|].
    destruct p as [|b p]; [done|]. destruct Hc as [? Hc]. split; [done|]. by apply IH.
  - rewrite Hp in Hnd. by apply NoDup_app in Hnd as (? & _ & _).
  - intros x. split.
    + intros Hx. assert (x ∈ path s') as Hx'.
      { apply Hst. rewrite Hs. set_solver. }
      rewrite Hp in Hx'. apply elem_of_app in Hx' as [?|Hx']; [done|].
      apply list_elem_of_singleton in Hx' as ->. done.
    + intros Hx. assert (x ∈ recursionStack s') as Hx'.
      { apply Hst. rewrite Hp. apply elem_of_app. by left. }
      rewrite Hs in Hx'. apply elem_of_union in Hx' as [Hx'|?]; [|done].
      apply elem_of_singleton in Hx' as ->.
      rewrite Hp in Hnd. apply NoDup_app in Hnd as (_ & Hdisj & _).
      exfalso. apply (Hdisj node Hx). by left.
  - rewrite <- Hrs. set_solver.
  - exists (node :: fin). split.
    + cbn [topo_rev]. split; [|done]. intros d Hd. apply Hfiniff. by apply Hdeps.
    + intros x. rewrite elem_of_cons, Hfiniff, <- Hrs.
      rewrite elem_of_difference, elem_of_singleton. split.
      * intros [->|[Hx Hxs]]; [split; [done|] | split; [done|]].
        -- intros [_ ?]. done.
        -- intros [? _]. done.
      * intros [Hx Hxs]. destruct (decide (x = node)) as [->|Hne]; [by left|].
        right. split; [done|]. intros ?. by apply Hxs.
Qed.

Lemma dfs_deps_spec rec bound node deps st :
  (∀ d s, dfs_inv r s → d ∈ names_of (elements r) →
          (∀ l, last (path s) = Some l → depends_on (elements r) l d) →
          (length (unvisited r s) < bound)%nat →
          ∃ res s', rec d s = Some (res, s') ∧ dfs_post r d s res s') →
  dfs_inv r st → last (path st) = Some node →
  (∀ d, d ∈ deps → depends_on (elements r) node d) →
  (length (unvisited r st) < bound)%nat →
  ∃ res s', dfs_deps rec deps st = Some (res, s') ∧
    match res with
    | Some c => ∃ p, c = join arrow_sep p ∧ cycle_path (elements r) p
    | None =>
        dfs_inv r s' ∧ path s' = path st ∧ recursionStack s' = recursionStack st ∧
        visited st ⊆ visited s' ∧
        ∀ d, d ∈ deps → d ∈ visited s' ∧ d ∉ recursionStack s'
    end.
Proof.
  intros Hrec. revert st.
  induction deps as [|d deps IH]; intros st Hinv Hlast Hdeps Hfuel; cbn [dfs_deps].
  - exists None, st. split; [done|]. split_and!; [done..|].
    intros d Hd. by apply elem_of_nil in Hd.
  - assert (depends_on (elements r) node d) as Hd by (apply Hdeps; by left).
    assert (d ∈ names_of (elements r)) as Hdn.
    { destruct Hd as (e & He & _ & Hde). by apply (wf_deps r Hwf e). }
    destruct (Hrec d st Hinv Hdn) as (res & s1 & -> & Hpost); [|done|].
    { intros l Hl. rewrite Hlast in Hl. by injection Hl as <-. }
    destruct res as [c|]; cbn [dfs_post] in Hpost.
    + destruct Hpost as (p & -> & Hp).
      rewrite truthy_join by apply Hp.
      exists (Some (join arrow_sep p)), s1. split; [done|]. by exists p.
    + destruct Hpost as (Hinv1 & Hp1 & Hs1 & Hv1 & Hdv & Hds).
      destruct (IH s1) as (res & s' & -> & Hres); [done|by rewrite Hp1| |..].
      { intros d' Hd'. apply Hdeps. by right. }
      { pose proof (unvisited_mono st s1 Hv1). lia. }
      exists res, s'. split; [done|]. destruct res as [c|]; [done|].
      destruct Hres as (Hinv' & Hp' & Hs' & Hv' & Hall).
      split_and!; [done|congruence|congruence|set_solver|].
      intros d' [->|Hd']%elem_of_cons; [|by apply Hall].
      split; [set_solver|]. rewrite Hs'. done.
Qed.

Lemma dfs_spec fuel node st :
  dfs_inv r st → node ∈ names_of (elements r) →
  (∀ l, last (path st) = Some l → depends_on (elements r) l node) →
  (length (unvisited r st) < fuel)%nat →
  ∃ res s', dfs fuel r node st = Some (res, s') ∧ dfs_post r node st res s'.
Proof.
  revert node st. induction fuel as [|fuel IH]; intros node st Hinv Hn Hl Hfuel; [lia|].
  cbn [dfs]. destruct (decide (node ∈ recursionStack st)) as [Hstack|Hstack].
  - eexists _, _. split; [done|]. cbn [dfs_post]. eexists. split; [done|].
    apply cycle_names_cycle; [apply Hinv| |done]. by apply (di_stack _ _ Hinv).
  - destruct (decide (node ∈ visited st)) as [Hvis|Hvis].
    + exists None, st. split; [done|]. cbn [dfs_post]. done.
    + set (st1 := mkDfs ({[node]} ∪ visited st) ({[node]} ∪ recursionStack st)
                        (path st ++ [node])).
      assert (dfs_inv r st1) as Hinv1 by (by apply dfs_inv_visit).
      destruct (dfs_deps_spec (dfs fuel r) fuel node (deps_of_name r node) st1)
        as (res & s' & -> & Hres).
      * intros d s ? ? ? ?. by apply IH.
      * done.
      * cbn [st1 path]. by rewrite last_snoc.
      * intros d Hd. by apply deps_of_name_depends_on.
      * assert (length (unvisited r st1) < length (unvisited r st))%nat; [|lia].
        by apply (unvisited_visit st st1 node).
      * destruct res as [c|].
        -- exists (Some c), s'. done.
        -- destruct Hres as (Hinv' & Hp' & Hs' & Hv' & Hall).
           destruct (dfs_inv_leave st s' node) as (Hleave & Hrl & Hrs);
             [done|done|done|done| | |].
           { apply Hv'. cbn. set_solver. }
           { intros d Hd. apply Hall. by apply deps_of_name_depends_on. }
           eexists None, _. split; [done|]. cbn [dfs_post path recursionStack visited].
           split_and!; [done|done|done| | |].
           ++ etrans; [|exact Hv']. cbn. set_solver.
           ++ apply Hv'. cbn. set_solver.
           ++ rewrite Hrs. done.
Qed.

End Dfs.

Section DetectCycle.
Variable r : DependencyResolver.
Hypothesis Hwf : wf_graph r.

Lemma detectCycle_loop_spec fuel keys st :
  dfs_inv r st → path st = [] → recursionStack st = ∅ →
  (∀ k, k ∈ keys → k ∈ names_of (elements r)) →
  (length (unvisited r st) < fuel)%nat →
  ∃ c, detectCycle_loop fuel r keys st = Some c ∧
    ((∃ p, c = join arrow_sep p ∧ cycle_path (elements r) p) ∨
     (c = js "Unknown cycle detected" ∧
      ∃ st', dfs_inv r st' ∧ recursionStack st' = ∅ ∧
             visited st ⊆ visited st' ∧ ∀ k, k ∈ keys → k ∈ visited st')).
Proof.
  revert st. induction keys as [|k keys IH]; intros st Hinv Hp Hs Hkeys Hfuel;
    cbn [detectCycle_loop].
  - eexists. split; [done|]. right. split; [done|]. exists st.
    split_and!; [done..|]. intros k Hk. by apply elem_of_nil in Hk.
  - assert (∀ k', k' ∈ keys → k' ∈ names_of (elements r)) as Hkeys'.
    { intros k' Hk'. apply Hkeys. by right. }
    destruct (decide (k ∈ visited st)) as [Hvis|Hvis].
    + destruct (IH st Hinv Hp Hs Hkeys' Hfuel) as (c & -> & Hc).
      exists c. split; [done|]. destruct Hc as [Hc|(-> & st' & ? & ? & ? & Hall)]; [by left|].
      right. split; [done|]. exists st'. split_and!; [done..|].
      intros k' [->|Hk']%elem_of_cons; [set_solver | by apply Hall].
    + destruct (dfs_spec r Hwf fuel k st Hinv) as (res & s1 & -> & Hpost); [| |done|].
      { apply Hkeys. by left. }
      { intros l Hl. by rewrite Hp in Hl. }
      destruct res as [c|]; cbn [dfs_post] in Hpost.
      * destruct Hpost as (p & -> & Hcp). rewrite truthy_join by apply Hcp.
        eexists. split; [done|]. left. by exists p.
      * destruct Hpost as (Hinv1 & Hp1 & Hs1 & Hv1 & Hkv & _).
        destruct (IH s1) as (c & -> & Hc); [done|congruence|congruence|done| |].
        { pose proof (unvisited_mono r st s1 Hv1). lia. }
        exists c. split; [done|].
        destruct Hc as [Hc|(-> & st' & ? & ? & ? & Hall)]; [by left|].
        right. split; [done|]. exists st'. split_and!; [done|done|set_solver|].
        intros k' [->|Hk']%elem_of_cons; [set_solver | by apply Hall].
Qed.

Lemma dfs_inv_init : dfs_inv r (mkDfs ∅ ∅ []).
Proof.
  split; cbn [path recursionStack visited].
  - done.
  - apply NoDup_nil_2.
  - intros x. split; [set_solver | intros Hx; by apply elem_of_nil in Hx].
  - done.
  - exists []. split; [done|]. intros x. split; [intros Hx; by apply elem_of_nil in Hx | set_solver].
Qed.

(** [detectCycle] returns, and it either reports a closed walk along the
    dependencies or the graph has no cycle at all. *)
Lemma detectCycle_spec :
  ∃ c, detectCycle r = Some c ∧
    ((∃ p, c = join arrow_sep p ∧ cycle_path (elements r) p) ∨
     (c = js "Unknown cycle detected" ∧ acyclic (elements r))).
Proof.
  unfold detectCycle.
  destruct (detectCycle_loop_spec (S (length (elementMap r)))
              (map_keys (elementMap r)) (mkDfs ∅ ∅ []) dfs_inv_init)
    as (c & -> & Hc); [done|done| | |].
  - intros k. rewrite (wf_map r Hwf), map_keys_mk. done.
  - unfold unvisited. apply Nat.lt_succ_r. etrans; [apply length_filter|].
    rewrite (wf_map r Hwf). unfold names_of. by rewrite !length_fmap.
  - exists c. split; [done|].
    destruct Hc as [Hc|(-> & st' & Hinv & Hs & _ & Hall)]; [by left|].
    right. split; [done|].
    destruct (di_fin _ _ Hinv) as (fin & Hfin & Hfiniff).
    apply (topo_rev_acyclic _ fin Hfin). intros v Hv. apply Hfiniff.
    split; [|rewrite Hs; set_solver].
    apply Hall. by rewrite (wf_map r Hwf), map_keys_mk.
Qed.

End DetectCycle.

Lemma is_chain_lookup els (p : list jsstring) i x y :
  is_chain els p → p !! i = Some x → p !! S i = Some y → depends_on els x y.
Proof.
  revert i. induction p as [|a p IH]; intros i Hc Hi Hj; [done|].
  destruct p as [|b p]; [done|]. destruct Hc as [Hab Hc].
  destruct i as [|i]; cbn in Hi, Hj.
  - by simplify_eq.
  - by apply (IH i).
Qed.

Lemma wf_graph_degrees r deg :
  wf_graph r →
  wf_graph (mkResolver (elements r) (elementMap r) (adjacencyList r) deg).
Proof. intros [? ? ? ?]. by split. Qed.

(** *** [resolveExecutionOrder] *)

(** X3: On an acyclic graph in which no element lists a dependency twice,
    [resolveExecutionOrder] returns every element exactly once, each
    after all the elements it depends on. *)
Lemma resolveExecutionOrder_acyclic els r :
  new_DependencyResolver els = Ok r → acyclic els →
  (∀ e, e ∈ els → NoDup (deps_of e)) →
  ∃ result r',
    resolveExecutionOrder r = Some (Ok result, r') ∧
    result ≡ₚ els ∧
    ∀ i j dep e, result !! i = Some dep → result !! j = Some e →
                 name dep ∈ deps_of e → (i < j)%nat.
Proof.
  intros Hnew Hacyc Hnodup.
  destruct (new_DependencyResolver_wf els r Hnew) as (Hels & Hwf & Hfresh & _).
  destruct (topologicalSort_spec r Hwf Hfresh) as (result & deg' & Hts & K).
  rewrite <- Hels in Hacyc, Hnodup.
  pose proof (kahn_complete r Hwf result deg' K Hnodup Hacyc) as Hall.
  pose proof (kahn_result_Permutation r Hwf result deg' K Hall) as Hperm.
  unfold resolveExecutionOrder. rewrite Hts.
  rewrite decide_False by (rewrite (Permutation_length Hperm); by intros ?).
  eexists _, _. split; [done|]. split; [by rewrite <- Hels|].
  intros i j dep e Hi Hj Hd.
  apply (topo_rev_order (elements r) (names_of result) i j (name dep) (name e)).
  - apply K.
  - by apply (kahn_names_NoDup r result deg').
  - unfold names_of. by rewrite list_lookup_fmap, Hi.
  - unfold names_of. by rewrite list_lookup_fmap, Hj.
  - exists e. split_and!; [|done|done].
    apply (ki_result _ _ _ _ K). by eapply list_elem_of_lookup_2.
Qed.

(** *** The resolver on concrete element sets *)

Example resolve_two :
  resolve [el "B" ["A"]; el "A" []] = Some (Ok [el "A" []; el "B" ["A"]]).
Proof. vm_compute. reflexivity. Qed.

Example resolve_missing :
  resolve [el "A" []; el "B" ["A"; "C"]]
  = Some (Throw (mkError DependencyError
       (js "Element " ++ quote (js "B") ++ js " depends on " ++ quote (js "C")
          ++ js " which does not exist"))).
Proof. vm_compute. reflexivity. Qed.

Lemma ring3_has_cycle : has_cycle ring3.
Proof.
  exists (js "A").
  apply (tc_l _ _ (js "B")); [|apply (tc_l _ _ (js "C")); [|apply tc_once]].
  - exists (el "A" ["B"]). split_and!; [set_solver|done|set_solver].
  - exists (el "B" ["C"]). split_and!; [set_solver|done|set_solver].
  - exists (el "C" ["A"]). split_and!; [set_solver|done|set_solver].
Qed.

Lemma twice_listed_acyclic : acyclic twice_listed.
Proof.
  apply (topo_rev_acyclic _ [js "B"; js "A"]).
  - cbn [topo_rev]. split_and!; [| |done].
    + intros d (e & He & Hn & Hd). unfold twice_listed in He.
      apply elem_of_cons in He as [->|He]; [done|].
      apply list_elem_of_singleton in He as ->. cbn in Hd. set_solver.
    + intros d (e & He & Hn & Hd). unfold twice_listed in He.
      apply elem_of_cons in He as [->|He]; [by apply elem_of_nil in Hd|].
      apply list_elem_of_singleton in He as ->. done.
  - intros v Hv. cbn in Hv. set_solver.
Qed.

(** C1 (code defect): an acyclic element set that passes construction
    validation but lists a dependency twice is rejected with a cycle
    error instead of being ordered ([B] never reaches in-degree 0 because
    the neighbour sets drop duplicates while the in-degrees count them). *)
Theorem resolveExecutionOrder_duplicate_dependency :
  is_Ok (new_DependencyResolver twice_listed) = true ∧
  acyclic twice_listed ∧
  resolve twice_listed
  = Some (Throw (mkError DependencyError
       (js "Circular dependency detected: Unknown cycle detected"))).
Proof.
  split_and!.
  - vm_compute. reflexivity.
  - apply twice_listed_acyclic.
  - vm_compute. reflexivity.
Qed.

Lemma buildElementMap_throws els m e :
  buildElementMap els m = Throw e → err_name e = DependencyError.
Proof.
  revert m. induction els as [|el els IH]; intros m; cbn [buildElementMap]; [done|].
  destruct (map_has (name el) m); [by intros [= <-] | apply IH].
Qed.

Lemma validateDependencies_throws m els e :
  validateDependencies m els = Throw e → err_name e = DependencyError.
Proof.
  induction els as [|el els IH]; cbn [validateDependencies]; [done|].
  destruct (validateDependencies_of m el (deps_of el)) as [[]|e'] eqn:Hof; [done|].
  intros [= <-]. clear IH. revert Hof.
  induction (deps_of el) as [|d deps IHd]; cbn [validateDependencies_of]; [done|].
  destruct (decide (d = name el)); [by intros [= <-]|].
  destruct (negb (map_has d m)); [by intros [= <-] | done].
Qed.

Lemma new_DependencyResolver_throws els e :
  new_DependencyResolver els = Throw e → err_name e = DependencyError.
Proof.
  unfold new_DependencyResolver.
  destruct (buildElementMap els []) as [m|e'] eqn:Hm.
  - destruct (validateDependencies m els) as [[]|e'] eqn:Hv; [done|].
    intros [= <-]. by eapply validateDependencies_throws.
  - intros [= <-]. by eapply buildElementMap_throws.
Qed.

(** On a constructed resolver whose graph has a cycle
    [resolveExecutionOrder] throws a [DependencyError] whose message
    names a closed path along the declared dependencies. *)
Lemma resolveExecutionOrder_names_cycle els r :
  new_DependencyResolver els = Ok r → has_cycle els →
  ∃ msg r',
    resolveExecutionOrder r = Some (Throw (mkError DependencyError msg), r') ∧
    names_cycle_along (depends_on els) msg.
Proof.
  intros Hnew Hcyc.
  destruct (new_DependencyResolver_wf els r Hnew) as (Hels & Hwf & Hfresh & _).
  destruct (topologicalSort_spec r Hwf Hfresh) as (result & deg' & Hts & K).
  unfold resolveExecutionOrder. rewrite Hts.
  destruct (decide (length result ≠ length (elements r))) as [Hlen|Hlen].
  - pose proof (wf_graph_degrees r deg' Hwf) as Hwf'.
    destruct (detectCycle_spec _ Hwf') as (c & -> & Hc).
    cbn [elements] in Hc. rewrite Hels in Hc.
    destruct Hc as [(p & -> & Hchain & Hp2 & Hhl)|[_ Hacyc]]; [|by destruct Hacyc].
    eexists _, _. split; [done|]. exists p. split_and!; [done..|].
    intros i x y. by apply is_chain_lookup.
  - exfalso. apply (kahn_full_acyclic r result deg' K); [|by rewrite Hels].
    apply dec_stable. done.
Qed.


(** C2 (as amended): for every set of loaded elements whose dependency
    graph contains a cycle, resolution fails with a [DependencyError];
    when the set passes construction validation the error is thrown by
    [resolveExecutionOrder] and names a correct cycle: a closed path of
    at least two element names in which every name lists the next one
    among its dependencies (each consecutive pair is an edge of the graph
    taken from dependent to dependency), and whose first name equals its
    last. *)
Theorem resolveExecutionOrder_cycle els :
  has_cycle els →
  ∃ e, resolve els = Some (Throw e) ∧ err_name e = DependencyError ∧
       ∀ r, new_DependencyResolver els = Ok r →
            (∃ r', resolveExecutionOrder r = Some (Throw e, r')) ∧
            names_cycle_along (depends_on els) (err_message e).
Proof.
  intros Hcyc. unfold resolve.
  destruct (new_DependencyResolver els) as [r|e] eqn:Hnew.
  - destruct (resolveExecutionOrder_names_cycle els r Hnew Hcyc)
      as (msg & r' & Hres & Hnames).
    exists (mkError DependencyError msg). rewrite Hres. split_and!; [done..|].
    intros r0 [= <-]. split; [by exists r' | done].
  - exists e. split_and!; [done|by eapply new_DependencyResolver_throws|done].
Qed.

Lemma resolveExecutionOrder_cycle_witness :
  ∃ e, resolve ring3 = Some (Throw e) ∧ err_name e = DependencyError ∧
       ∀ r, new_DependencyResolver ring3 = Ok r →
            (∃ r', resolveExecutionOrder r = Some (Throw e, r')) ∧
            names_cycle_along (depends_on ring3) (err_message e).
Proof.
  apply (resolveExecutionOrder_cycle ring3). exact ring3_has_cycle.
Defined.

(** C2 (as stated) fails on [ring3]: the error names the path
    A → B → C → A, and no reading of that message is a closed path whose
    consecutive pairs are edges [dep → dependent] of the graph: the edge
    A → B would need B to depend on A. *)
Lemma resolveExecutionOrder_cycle_not_edges :
  resolve ring3
  = Some (Throw (mkError DependencyError
       (js "Circular dependency detected: "
          ++ join arrow_sep [js "A"; js "B"; js "C"; js "A"]))) ∧
  ¬ names_cycle_along (edge ring3)
      (js "Circular dependency detected: "
         ++ join arrow_sep [js "A"; js "B"; js "C"; js "A"]).
Proof.
  split; [vm_compute; reflexivity|].
  intros (p & Hmsg & Hlen & _ & Hpairs).
  apply app_inv_head in Hmsg.
  destruct p as [|x [|y rest]]; cbn [length] in Hlen; [lia..|].
  assert (edge ring3 x y) as (e & He & Hn & Hd) by (by apply (Hpairs 0%nat)).
  unfold ring3 in He. cbn [join] in Hmsg.
  apply elem_of_cons in He as [->|He];
    [|apply elem_of_cons in He as [->|He];
      [|apply list_elem_of_singleton in He as ->]];
    cbn in Hn, Hd; apply list_elem_of_singleton in Hd; subst x y;
    vm_compute in Hmsg; try discriminate Hmsg.
  destruct rest; cbn in Hmsg; discriminate Hmsg.
Qed.

(** *** The context engine: [set] *)

Lemma split_on_nonempty sep s : split_on sep s ≠ [].
Proof.
  destruct s as [|c s]; cbn [split_on]; [done|].
  destruct (decide (c = sep)); [done|]. by destruct (split_on sep s).
Qed.

Lemma split_on_cons sep s : ∃ p ps, split_on sep s = p :: ps.
Proof.
  pose proof (split_on_nonempty sep s). destruct (split_on sep s) as [|p ps]; [done|].
  by exists p, ps.
Qed.

(** Reading back the path just written yields the value written. *)
Lemma dlv_dset_keys props keys val :
  keys ≠ [] → dlv_keys (VObj (dset_keys props keys val)) keys = val.
Proof.
  revert props. induction keys as [|k keys IH]; intros props Hne; [done|].
  destruct keys as [|k2 keys].
  - cbn. by rewrite map_get_set_eq.
  - cbn [dset_keys dlv_keys prop]. rewrite map_get_set_eq. cbn [default].
    by apply IH.
Qed.

Lemma dlv_dset props key val : dlv (dset props key val) key = val.
Proof. unfold dlv, dset. apply dlv_dset_keys, split_on_nonempty. Qed.

(** A write touches one top-level property only: the first segment. *)
Lemma dset_keys_other props k keys val k' :
  k ≠ k' → map_get k' (dset_keys props (k :: keys) val) = map_get k' props.
Proof.
  intros Hne. cbn [dset_keys]. destruct keys; by rewrite map_get_set_ne.
Qed.

Lemma dset_keys_nested props k k2 keys val :
  ∃ inner, map_get k (dset_keys props (k :: k2 :: keys) val) = Some (VObj inner).
Proof. cbn [dset_keys]. rewrite map_get_set_eq. by eexists. Qed.

Lemma first_invalid_part_None parts :
  first_invalid_part parts = None ↔
  Forall (fun part => validateCamelCase part = true) parts.
Proof.
  unfold first_invalid_part. induction parts as [|p parts IH]; [done|].
  rewrite filter_cons. destruct (decide (validateCamelCase p = false)) as [Hp|Hp].
  - cbn. split; [done|]. intros [Hp' _]%Forall_cons. congruence.
  - rewrite IH. rewrite Forall_cons. apply not_false_iff_true in Hp. tauto.
Qed.

Lemma reachable_readonlyKeys c :
  reachable c →
  ∀ key, key ∈ readonlyKeys (runtimeContext c) ↔ key ∈ map_keys (readonlyContext c).
Proof.
  induction 1 as [facts|key val c c' Hc IH Hset|c Hc IH]; intros k.
  - cbn. apply elem_of_list_to_set.
  - unfold PipelineContext_set, RuntimeContext_set in Hset.
    destruct (first_invalid_part _); [done|].
    destruct (decide (key ∈ _)); [done|]. destruct (decide (key ∈ _)); [done|].
    injection Hset as <-. cbn. apply IH.
  - cbn. apply IH.
Qed.

Lemma RuntimeContext_set_Ok key val rc :
  first_invalid_part (split_dot key) = None →
  key ∉ readonlyKeys rc → key ∉ assignedKeys rc →
  RuntimeContext_set key val rc
  = Ok (mkRuntime (dset (rt_data rc) key val) (set_add key (assignedKeys rc))
                  (readonlyKeys rc)).
Proof.
  intros Hv Hro Has. unfold RuntimeContext_set. rewrite Hv.
  by rewrite !decide_False.
Qed.

Lemma RuntimeContext_set_Throw key val rc :
  ¬ (first_invalid_part (split_dot key) = None ∧
     (key ∉ readonlyKeys rc) ∧ (key ∉ assignedKeys rc)) →
  throws ContextError (RuntimeContext_set key val rc).
Proof.
  intros Hn. unfold RuntimeContext_set.
  destruct (first_invalid_part _); [done|].
  destruct (decide (key ∈ readonlyKeys rc)); [done|].
  destruct (decide (key ∈ assignedKeys rc)); [done|].
  exfalso. by apply Hn.
Qed.

Lemma PipelineContext_set_assigned key val c c' :
  PipelineContext_set key val c = Ok c' →
  ∀ k, k ∈ assignedKeys (runtimeContext c') ↔
       k = key ∨ k ∈ assignedKeys (runtimeContext c).
Proof.
  unfold PipelineContext_set, RuntimeContext_set.
  destruct (first_invalid_part _); [done|].
  destruct (decide (key ∈ _)); [done|]. destruct (decide (key ∈ _)); [done|].
  intros [= <-] k. cbn. apply set_add_elem.
Qed.

Lemma set_steps_assigned c c' k :
  rtc set_step c c' →
  k ∈ assignedKeys (runtimeContext c) → k ∈ assignedKeys (runtimeContext c').
Proof.
  induction 1 as [|c c1 c2 (key & val & Hset) _ IH]; [done|].
  intros Hk. apply IH. apply (PipelineContext_set_assigned _ _ _ _ Hset). by right.
Qed.

Lemma set_steps_reachable c c' : reachable c → rtc set_step c c' → reachable c'.
Proof.
  intros Hc. induction 1 as [|c c1 c2 (key & val & Hset) _ IH]; [done|].
  apply IH. by eapply reachable_set.
Qed.

(** C3: on every reachable context, [set(key, val)] succeeds exactly when
    every dot-separated segment of [key] is camelCase, [key] has not been
    written on the instance and [key] is not a Facts path; otherwise it
    throws a [ContextError].  A successful write stores [val] at the
    nested dot-path (only the top-level property of the first segment
    changes, and it holds a nested container when the path has more than
    one segment), and every later [set] of the same path fails. *)
Theorem PipelineContext_set_spec c key val :
  reachable c →
  (set_accepts c key →
   ∃ c', PipelineContext_set key val c = Ok c' ∧
         PipelineContext_get key c' = val ∧
         (∃ k ks, split_dot key = k :: ks ∧
            (∀ k', k ≠ k' →
               map_get k' (rt_data (runtimeContext c'))
               = map_get k' (rt_data (runtimeContext c))) ∧
            (ks ≠ [] →
               ∃ inner, map_get k (rt_data (runtimeContext c')) = Some (VObj inner))) ∧
         ∀ c'' val2, rtc set_step c' c'' →
                     throws ContextError (PipelineContext_set key val2 c'')) ∧
  (¬ set_accepts c key → throws ContextError (PipelineContext_set key val c)).
Proof.
  intros Hreach. pose proof (reachable_readonlyKeys c Hreach) as Hro. split.
  - intros (Hparts & Hassigned & Hfacts).
    apply first_invalid_part_None in Hparts.
    assert (key ∉ readonlyKeys (runtimeContext c)) as Hro' by (by rewrite Hro).
    unfold PipelineContext_set.
    rewrite (RuntimeContext_set_Ok key val _ Hparts Hro' Hassigned).
    eexists. split; [done|]. split_and!.
    + unfold PipelineContext_get, RuntimeContext_get. cbn. apply dlv_dset.
    + destruct (split_on_cons 46%N key) as (k & ks & Hsplit).
      exists k, ks. split; [done|]. cbn [runtimeContext rt_data]. unfold dset, split_dot.
      rewrite Hsplit. split.
      * intros k' Hne. by apply dset_keys_other.
      * intros Hks. destruct ks as [|k2 ks]; [done|]. apply dset_keys_nested.
    + intros c'' val2 Hsteps. unfold PipelineContext_set.
      assert (throws ContextError (RuntimeContext_set key val2 (runtimeContext c'')))
        as Hthrow.
      { apply RuntimeContext_set_Throw. intros (_ & _ & Hnot). apply Hnot.
        apply (set_steps_assigned _ _ key Hsteps). cbn. apply set_add_elem. by left. }
      by destruct (RuntimeContext_set key val2 (runtimeContext c'')).
  - intros Hnot. unfold PipelineContext_set.
    assert (throws ContextError (RuntimeContext_set key val (runtimeContext c)))
      as Hthrow.
    { apply RuntimeContext_set_Throw. intros (Hparts & Hro' & Hassigned).
      apply Hnot. split_and!; [by apply first_invalid_part_None|done|].
      by rewrite <- Hro. }
    by destruct (RuntimeContext_set key val (runtimeContext c)).
Qed.

Lemma PipelineContext_set_spec_witness :
  let c := new_PipelineContext [(js "name", VStr (js "bat"))] in
  (set_accepts c (js "a.b") →
   ∃ c', PipelineContext_set (js "a.b") (VNum 1) c = Ok c' ∧
         PipelineContext_get (js "a.b") c' = VNum 1 ∧
         (∃ k ks, split_dot (js "a.b") = k :: ks ∧
            (∀ k', k ≠ k' →
               map_get k' (rt_data (runtimeContext c'))
               = map_get k' (rt_data (runtimeContext c))) ∧
            (ks ≠ [] →
               ∃ inner, map_get k (rt_data (runtimeContext c')) = Some (VObj inner))) ∧
         ∀ c'' val2, rtc set_step c' c'' →
                     throws ContextError (PipelineContext_set (js "a.b") val2 c'')) ∧
  (¬ set_accepts c (js "a.b") →
   throws ContextError (PipelineContext_set (js "a.b") (VNum 1) c)).
Proof.
  apply (PipelineContext_set_spec (new_PipelineContext [(js "name", VStr (js "bat"))])
           (js "a.b") (VNum 1)).
  apply reachable_new.
Defined.

Example set_nested :
  PipelineContext_set (js "a.b") (VNum 1) (new_PipelineContext [])
  = Ok (mkContext (mkRuntime [(js "a", VObj [(js "b", VNum 1)])] [js "a.b"] ∅) []).
Proof. vm_compute. reflexivity. Qed.

Example set_twice :
  ∃ c, PipelineContext_set (js "a.b") (VNum 1) (new_PipelineContext []) = Ok c ∧
       throws ContextError (PipelineContext_set (js "a.b") (VNum 1) c).
Proof. eexists. split; [vm_compute; reflexivity|]. vm_compute. reflexivity. Qed.

(** X9: The written dot-paths never include a Facts path. *)
Lemma reachable_assigned_disjoint c :
  reachable c →
  ∀ key, key ∈ assignedKeys (runtimeContext c) → key ∉ map_keys (readonlyContext c).
Proof.
  induction 1 as [facts|key val c c' Hc IH Hset|c Hc IH]; intros k Hk.
  - by apply elem_of_nil in Hk.
  - pose proof (reachable_readonlyKeys c Hc) as Hro.
    apply (PipelineContext_set_assigned _ _ _ _ Hset) in Hk.
    unfold PipelineContext_set, RuntimeContext_set in Hset.
    destruct (first_invalid_part _); [done|].
    destruct (decide (key ∈ readonlyKeys _)) as [|Hnro]; [done|].
    destruct (decide (key ∈ assignedKeys _)); [done|].
    injection Hset as <-. cbn [readonlyContext].
    destruct Hk as [->|Hk]; [by rewrite <- Hro | by apply IH].
  - by apply elem_of_nil in Hk.
Qed.

(** *** The context engine: templates *)

Lemma strip_prefix_app pre s : strip_prefix pre (pre ++ s) = Some s.
Proof.
  induction pre as [|c pre IH]; [done|]. cbn. by rewrite decide_True.
Qed.

Lemma span_app_stop p (l1 l2 : jsstring) :
  Forall (fun c => p c = true) l1 →
  (∀ c l2', l2 = c :: l2' → p c = false) →
  span p (l1 ++ l2) = (l1, l2).
Proof.
  intros Hall Hstop. induction Hall as [|c l1 Hc _ IH]; cbn [app span].
  - destruct l2 as [|c l2']; [done|]. cbn [span]. by rewrite (Hstop c l2').
  - by rewrite Hc, IH.
Qed.

Lemma is_pathchar_range c : is_pathchar c = true → (46 ≤ c ∧ c ≤ 122)%N.
Proof.
  unfold is_pathchar, is_word, is_alnum, is_lower, is_upper, is_digit.
  rewrite !orb_true_iff, !andb_true_iff, !N.leb_le, !N.eqb_eq. lia.
Qed.

Lemma is_space_range c : is_space c = true → (c ≤ 32 ∨ 160 ≤ c)%N.
Proof.
  unfold is_space.
  rewrite !orb_true_iff, !andb_true_iff, !N.leb_le, !N.eqb_eq. lia.
Qed.

Lemma is_pathchar_not_space c : is_pathchar c = true → is_space c = false.
Proof.
  intros Hp%is_pathchar_range. destruct (is_space c) eqn:Hs; [|done].
  apply is_space_range in Hs. lia.
Qed.

Lemma is_space_not_pathchar c : is_space c = true → is_pathchar c = false.
Proof.
  intros Hs. destruct (is_pathchar c) eqn:Hp; [|done].
  apply is_pathchar_not_space in Hp. congruence.
Qed.

(** A string of the form [$>{{ path }}] is recognised as an Assignment
    Expression. *)
Lemma isAssignmentExpression_shape ws1 path ws2 :
  Forall (fun c => is_space c = true) ws1 →
  path ≠ [] → Forall (fun c => is_pathchar c = true) path →
  Forall (fun c => is_space c = true) ws2 →
  isAssignmentExpression (js "$>{{" ++ ws1 ++ path ++ ws2 ++ js "}}") = true.
Proof.
  intros Hws1 Hne Hpath Hws2. unfold isAssignmentExpression.
  rewrite strip_prefix_app.
  rewrite (span_app_stop is_space ws1); [|done|].
  2:{ intros c l Heq. destruct path as [|p path]; [done|].
      injection Heq as <- _. apply is_pathchar_not_space.
      by apply Forall_cons in Hpath as [? _]. }
  rewrite (span_app_stop is_pathchar path); [|done|].
  2:{ intros c l Heq. destruct ws2 as [|w ws2].
      - injection Heq as <- _. done.
      - injection Heq as <- _. apply is_space_not_pathchar.
        by apply Forall_cons in Hws2 as [? _]. }
  destruct path as [|p path]; [done|].
  rewrite (span_app_stop is_space ws2); [|done|].
  2:{ intros c l Heq. injection Heq as <- _. done. }
  by apply bool_decide_eq_true.
Qed.

(** C5: a string that is exactly an Assignment Expression [$>{{ path }}]
    (optional white space around a non-empty path of word characters and
    dots) is returned unchanged by [processTemplate], whatever the Facts
    and the Variables hold. *)
Theorem processTemplate_assignment_unchanged ws1 path ws2 readonlyCtx runtimeCtx :
  Forall (fun c => is_space c = true) ws1 →
  path ≠ [] → Forall (fun c => is_pathchar c = true) path →
  Forall (fun c => is_space c = true) ws2 →
  processTemplate (js "$>{{" ++ ws1 ++ path ++ ws2 ++ js "}}") readonlyCtx runtimeCtx
  = Ok (js "$>{{" ++ ws1 ++ path ++ ws2 ++ js "}}").
Proof.
  intros Hws1 Hne Hpath Hws2. unfold processTemplate.
  by rewrite isAssignmentExpression_shape.
Qed.

Lemma processTemplate_assignment_unchanged_witness :
  processTemplate (js "$>{{" ++ js " " ++ js "ctx.out" ++ js " " ++ js "}}")
    [(js "ctx", VNum 1)] [(js "ctx", VObj [(js "out", VStr (js "x"))])]
  = Ok (js "$>{{" ++ js " " ++ js "ctx.out" ++ js " " ++ js "}}").
Proof.
  apply (processTemplate_assignment_unchanged (js " ") (js "ctx.out") (js " ")).
  - vm_compute. repeat constructor.
  - discriminate.
  - vm_compute. repeat constructor.
  - vm_compute. repeat constructor.
Defined.

Lemma has_in_own (obj : list (jsstring * value)) k :
  k ∈ map_keys obj → has_in k obj = true.
Proof.
  intros Hk. unfold has_in. apply map_has_true in Hk. by rewrite Hk.
Qed.

Lemma has_in_false (obj : list (jsstring * value)) k :
  has_in k obj = false ↔ (k ∉ map_keys obj) ∧ (k ∉ Object_prototype_keys).
Proof.
  unfold has_in. rewrite orb_false_iff, bool_decide_eq_false.
  split; intros [Hown Hproto]; (split; [|done]).
  - intros Hin. apply map_has_true in Hin. congruence.
  - destruct (map_has k obj) eqn:Hhas; [|done].
    apply map_has_true in Hhas. done.
Qed.

(** X10: The check before the merge: a top-level Variables key that is also a
    Facts key makes every template other than an Assignment Expression
    fail with a [TemplateError]. *)
Lemma processTemplate_collision template readonlyCtx runtimeCtx k :
  isAssignmentExpression template = false →
  k ∈ map_keys runtimeCtx → k ∈ map_keys readonlyCtx →
  throws TemplateError (processTemplate template readonlyCtx runtimeCtx).
Proof.
  intros Hna Hrt Hro. unfold processTemplate. rewrite Hna.
  destruct (filter _ (map_keys runtimeCtx)) as [|k0 ks] eqn:Hf; [|done].
  assert (k ∈ filter (fun key => has_in key readonlyCtx = true) (map_keys runtimeCtx))
    as Hin.
  { apply list_elem_of_filter. split; [by apply has_in_own | done]. }
  rewrite Hf in Hin. by apply elem_of_nil in Hin.
Qed.

(** C6 (code defect): [set] compares the whole dot-path with the Facts
    keys, so a path whose first segment is a Facts key is accepted; the
    Variables record then has a top-level key that is also a Facts key,
    and the collision check of [processTemplate] fires on a state reached
    by a successful [set] only. *)
Theorem set_first_segment_collides :
  ∃ c, PipelineContext_set (js "name.x") (VNum 1)
         (new_PipelineContext [(js "name", VStr (js "bat"))]) = Ok c ∧
       reachable c ∧
       js "name" ∈ map_keys (rt_data (runtimeContext c)) ∧
       js "name" ∈ map_keys (readonlyContext c) ∧
       throws TemplateError (PipelineContext_processTemplate (js "hello") c).
Proof.
  destruct (PipelineContext_set (js "name.x") (VNum 1)
              (new_PipelineContext [(js "name", VStr (js "bat"))])) as [c|e] eqn:Hset;
    [|by vm_compute in Hset].
  exists c. split; [done|].
  assert (reachable c) as Hreach.
  { eapply reachable_set; [apply reachable_new | exact Hset]. }
  vm_compute in Hset. injection Hset as <-.
  split_and!; [done| | |].
  - vm_compute. set_solver.
  - vm_compute. set_solver.
  - vm_compute. reflexivity.
Qed.

Lemma template_matches_skip_all skip s :
  (length s ≤ skip)%nat → template_matches skip s = [].
Proof.
  revert skip. induction s as [|c s IH]; intros skip Hlen; [done|].
  cbn [length] in Hlen. destruct skip as [|skip]; [lia|].
  cbn [template_matches]. apply IH. lia.
Qed.

Lemma find_sub_self pat : find_sub pat pat = Some ([], []).
Proof.
  destruct pat as [|c pat]; [done|]. cbn [find_sub].
  pose proof (strip_prefix_app (c :: pat) []) as H. rewrite app_nil_r in H.
  by rewrite H.
Qed.

Lemma expand_replacement_plain repl matched before after :
  36%N ∉ repl → expand_replacement repl matched before after = repl.
Proof.
  induction repl as [|c repl IH]; [done|]. intros [Hc Hrepl]%not_elem_of_cons.
  cbn [expand_replacement]. rewrite decide_False by done. f_equal. by apply IH.
Qed.

Lemma match_template_at_shape ws1 path ws2 rest :
  Forall (fun c => is_space c = true) ws1 →
  path ≠ [] → Forall (fun c => is_pathchar c = true) path →
  Forall (fun c => is_space c = true) ws2 →
  match_template_at (js "${{" ++ ws1 ++ path ++ ws2 ++ js "}}" ++ rest)
  = Some (js "${{" ++ ws1 ++ path ++ ws2 ++ js "}}", path).
Proof.
  intros Hws1 Hne Hpath Hws2. unfold match_template_at.
  rewrite strip_prefix_app.
  rewrite (span_app_stop is_space ws1); [|done|].
  2:{ intros c l Heq. destruct path as [|p path]; [done|].
      injection Heq as <- _. apply is_pathchar_not_space.
      by apply Forall_cons in Hpath as [? _]. }
  rewrite (span_app_stop is_pathchar path); [|done|].
  2:{ intros c l Heq. destruct ws2 as [|w ws2].
      - injection Heq as <- _. done.
      - injection Heq as <- _. apply is_space_not_pathchar.
        by apply Forall_cons in Hws2 as [? _]. }
  destruct path as [|p path]; [done|].
  rewrite (span_app_stop is_space ws2); [|done|].
  2:{ intros c l Heq. injection Heq as <- _. done. }
  by rewrite strip_prefix_app.
Qed.

(** X11: A template that is exactly one expression [${{ path }}] whose path
    has camelCase segments and is resolved along own properties, with no
    Variables key found in the Facts object: an unresolved path and a
    non-primitive value fail with a [TemplateError]; a primitive (a
    number being a safe integer) is substituted through the
    replacement-pattern rules of [String.prototype.replace], which leave
    a string form without dollar signs as it is. *)
Lemma processTemplate_single_expression ws1 path ws2 readonlyCtx runtimeCtx :
  Forall (fun c => is_space c = true) ws1 →
  path ≠ [] → Forall (fun c => is_pathchar c = true) path →
  Forall (fun c => is_space c = true) ws2 →
  Forall (fun part => validateCamelCase part = true) (split_dot path) →
  (∀ k, k ∈ map_keys runtimeCtx → has_in k readonlyCtx = false) →
  resolves_own (merge_contexts readonlyCtx runtimeCtx) path →
  (∀ n, resolvePath (merge_contexts readonlyCtx runtimeCtx) path = VNum n →
        is_safe_integer n = true) →
  let template := js "${{" ++ ws1 ++ path ++ ws2 ++ js "}}" in
  let value := resolvePath (merge_contexts readonlyCtx runtimeCtx) path in
  match String_of_primitive value with
  | Some stringValue =>
      processTemplate template readonlyCtx runtimeCtx
      = Ok (expand_replacement stringValue template [] []) ∧
      (36%N ∉ stringValue →
       processTemplate template readonlyCtx runtimeCtx = Ok stringValue)
  | None => throws TemplateError (processTemplate template readonlyCtx runtimeCtx)
  end.
Proof.
  intros Hws1 Hne Hpath Hws2 Hparts Hdisj _ _ template value.
  assert (processTemplate template readonlyCtx runtimeCtx
          = expand_matches (merge_contexts readonlyCtx runtimeCtx)
              [(template, path)] template) as ->.
  { unfold processTemplate.
    assert (isAssignmentExpression template = false) as -> by done.
    destruct (filter _ (map_keys runtimeCtx)) as [|k0 ks] eqn:Hf.
    - f_equal. pose proof (match_template_at_shape ws1 path ws2 [] Hws1 Hne Hpath Hws2) as Hm.
      rewrite !app_nil_r in Hm. fold template in Hm.
      assert (∃ t, template = 36%N :: t) as [t Ht] by (by eexists).
      rewrite Ht at 1. cbn [template_matches]. rewrite <- Ht, Hm. f_equal.
      apply template_matches_skip_all. rewrite Ht. cbn [length]. lia.
    - exfalso. assert (k0 ∈ filter (fun key => has_in key readonlyCtx = true)
                                   (map_keys runtimeCtx)) as Hin
        by (rewrite Hf; by left).
      apply list_elem_of_filter in Hin as [Hro Hrt].
      rewrite (Hdisj k0 Hrt) in Hro. done. }
  cbn [expand_matches]. apply first_invalid_part_None in Hparts. rewrite Hparts.
  fold value. destruct (String_of_primitive value) as [stringValue|] eqn:Hsv.
  - unfold replace_first. rewrite find_sub_self. cbn [app]. rewrite app_nil_r.
    split; [done|]. intros Hplain. by rewrite expand_replacement_plain.
  - by destruct (is_object value).
Qed.

Example template_round_trip :
  ∃ c, PipelineContext_set (js "ctx.x") (VStr (js "v")) (new_PipelineContext []) = Ok c ∧
       PipelineContext_processTemplate (js "${{ ctx.x }}") c = Ok (js "v").
Proof. eexists. split; vm_compute; reflexivity. Qed.

Example template_unset :
  throws TemplateError
    (PipelineContext_processTemplate (js "${{ ctx.x }}") (new_PipelineContext [])).
Proof. vm_compute. reflexivity. Qed.

Example template_object :
  ∃ c, PipelineContext_set (js "ctx.x") (VStr (js "v")) (new_PipelineContext []) = Ok c ∧
       throws TemplateError (PipelineContext_processTemplate (js "${{ ctx }}") c).
Proof. eexists. split; vm_compute; reflexivity. Qed.

Example template_number :
  ∃ c, PipelineContext_set (js "ctx.n") (VNum (-42)) (new_PipelineContext []) = Ok c ∧
       PipelineContext_processTemplate (js "n=${{ctx.n}}") c = Ok (js "n=-42").
Proof. eexists. split; vm_compute; reflexivity. Qed.

(** The replacement is made in the text as rewritten so far: a value
    that contains the text of a later expression takes its place. *)
Example template_value_with_expression :
  processTemplate (js "${{ a }} ${{ b }}") []
    [(js "a", VStr (js "${{ b }}")); (js "b", VStr (js "X"))]
  = Ok (js "X ${{ b }}").
Proof. vm_compute. reflexivity. Qed.

(** C4 (code defect): the value is passed to [String.prototype.replace]
    as the replacement text, where [$$] stands for one dollar sign: the
    expression [${{ ctx.x }}] with [ctx.x = "a$$b"] becomes ["a$b"], not
    the string form of the value. *)
Theorem processTemplate_dollar_in_value :
  ∃ c, PipelineContext_set (js "ctx.x") (VStr (js "a$$b")) (new_PipelineContext []) = Ok c ∧
       PipelineContext_get (js "ctx.x") c = VStr (js "a$$b") ∧
       PipelineContext_processTemplate (js "${{ ctx.x }}") c = Ok (js "a$b").
Proof. eexists. split_and!; vm_compute; reflexivity. Qed.

(** *** Pseudo-terminal automation *)



Lemma pty_run_snoc prompts quiet chunks data :
  pty_run prompts quiet (chunks ++ [data])
  = onData prompts quiet (pty_run prompts quiet chunks) data.
Proof. unfold pty_run. by rewrite foldl_app. Qed.



Lemma pty_run_buffer prompts quiet chunks :
  buffer (pty_run prompts quiet chunks) = concat chunks.
Proof.
  induction chunks as [|data chunks IH] using rev_ind; [done|].
  rewrite pty_run_snoc, concat_app. cbn [concat]. rewrite app_nil_r, <- IH.
  unfold onData. by repeat case_match.
Qed.

Lemma pty_run_visibleBuffer prompts quiet chunks :
  visibleBuffer (pty_run prompts quiet chunks) = concat (stripVT <$> chunks).
Proof.
  induction chunks as [|data chunks IH] using rev_ind; [done|].
  rewrite pty_run_snoc, fmap_app, concat_app. cbn [fmap list_fmap concat].
  rewrite app_nil_r, <- IH.
  unfold onData. by repeat case_match.
Qed.




(** The example of the specification: one prompt, two chunks, exit 0. *)
Example pty_continue :
  let st := pty_run [mkPrompt (js "Continue?") (js "y")] true
              [js "Continue? "; js "done"] in
  written st = [js "y" ++ [10%N]] ∧
  onExit true st (Some 0) = (Ok (js "Continue? done"), false).
Proof. vm_compute. done. Qed.

(** The match text of an answered prompt coming back does not answer it
    again, and a later prompt is not answered before an earlier one. *)
Example pty_no_rematch :
  written (pty_run [mkPrompt (js "a") (js "1"); mkPrompt (js "b") (js "2")] true
             [js "b"; js "ab"; js "a"; js "a"])
  = [js "1" ++ [10%N]; js "2" ++ [10%N]].
Proof. vm_compute. reflexivity. Qed.

(** *** Overstrike normalisation *)

Example normalizeOverstrikes_backspace :
  normalizeOverstrikes (js "abc" ++ [8%N; 8%N] ++ js "X") = js "aX".
Proof. vm_compute. reflexivity. Qed.

Example normalizeOverstrikes_carriage_return :
  normalizeOverstrikes (js "hello world" ++ [13%N] ++ js "HELP" ++ [10%N]
                          ++ js "ab" ++ [13%N; 10%N] ++ js "c")
  = js "HELPo world" ++ [10%N] ++ js "ab" ++ [10%N] ++ js "c".
Proof. vm_compute. reflexivity. Qed.

Lemma overwrite_lookup buf part i :
  overwrite buf part !! i
  = match part !! i with Some c => Some c | None => buf !! i end.
Proof.
  unfold overwrite. destruct (part !! i) as [c|] eqn:Hp.
  - by apply lookup_app_l_Some.
  - apply lookup_ge_None in Hp. rewrite lookup_app_r by done.
    rewrite lookup_drop. f_equal. lia.
Qed.

(** The code unit in column [i] of the overlaid parts comes from the
    last part that reaches column [i]. *)
Lemma overwrite_fold_lookup (parts : list jsstring) i c :
  foldl overwrite [] parts !! i = Some c ↔
  ∃ before part after,
    parts = before ++ part :: after ∧ part !! i = Some c ∧
    Forall (fun p => p !! i = None) after.
Proof.
  induction parts as [|q parts IH] using rev_ind.
  - split; [done|]. intros (b & p & a & Heq & _). by destruct b.
  - rewrite foldl_app. cbn [foldl]. rewrite overwrite_lookup.
    destruct (q !! i) as [c'|] eqn:Hq.
    + split.
      * intros [= ->]. exists parts, q, []. done.
      * intros (b & p & a & Heq & Hp & Ha).
        destruct a as [|x a _] using rev_ind.
        -- apply app_inj_tail in Heq as [_ ->]. congruence.
        -- rewrite app_comm_cons, app_assoc in Heq.
           apply app_inj_tail in Heq as [_ ->].
           apply Forall_app in Ha as [_ Hx]. rewrite Forall_singleton in Hx.
           congruence.
    + rewrite IH. split.
      * intros (b & p & a & -> & Hp & Ha). exists b, p, (a ++ [q]).
        split_and!; [by rewrite <- app_assoc | done |].
        apply Forall_app. split; [done|]. by apply Forall_singleton.
      * intros (b & p & a & Heq & Hp & Ha).
        destruct a as [|x a _] using rev_ind.
        -- apply app_inj_tail in Heq as [_ ->]. congruence.
        -- rewrite app_comm_cons, app_assoc in Heq.
           apply app_inj_tail in Heq as [-> ->].
           apply Forall_app in Ha as [Ha _]. by exists b, p, a.
Qed.

Lemma codePoints_cons2 c d s :
  codePoints (c :: d :: s)
  = if is_high_surrogate c && is_low_surrogate d
    then [c; d] :: codePoints s
    else [c] :: codePoints (d :: s).
Proof. done. Qed.

Lemma concat_codePoints s : concat (codePoints s) = s.
Proof.
  assert (∀ n (s : jsstring), (length s ≤ n)%nat → concat (codePoints s) = s) as H;
    [|by apply (H (length s))].
  clear s. induction n as [|n IH]; intros s Hn.
  - destruct s; [done | cbn in Hn; lia].
  - destruct s as [|c [|d s]]; [done..|]. rewrite codePoints_cons2.
    cbn [length] in Hn.
    destruct (is_high_surrogate c && is_low_surrogate d); rewrite concat_cons.
    + rewrite IH; [done | lia].
    + rewrite IH; [done | cbn [length]; lia].
Qed.

Lemma elem_of_concat_2 (x : N) (l : jsstring) (ls : list jsstring) :
  l ∈ ls → x ∈ l → x ∈ concat ls.
Proof.
  induction ls as [|l0 ls IH]; intros Hl Hx; [by apply elem_of_nil in Hl|].
  rewrite concat_cons. apply elem_of_app.
  apply elem_of_cons in Hl as [->|Hl]; [by left | right; by apply IH].
Qed.

Lemma codePoints_backspace s : [8%N] ∈ codePoints s → 8%N ∈ s.
Proof.
  intros Hin. rewrite <- (concat_codePoints s).
  apply (elem_of_concat_2 _ [8%N]); [done | by left].
Qed.

Lemma backspace_fold_id (out cps : list jsstring) :
  [8%N] ∉ cps → foldl backspace_step out cps = out ++ cps.
Proof.
  revert out. induction cps as [|ch cps IH]; intros out Hn.
  - by rewrite app_nil_r.
  - apply not_elem_of_cons in Hn as [Hch Hn]. cbn [foldl].
    unfold backspace_step at 2. rewrite decide_False by done.
    rewrite IH by done. by rewrite <- app_assoc.
Qed.

Lemma split_on_no_sep sep s : sep ∉ s → split_on sep s = [s].
Proof.
  induction s as [|c s IH]; [done|]. intros [Hc Hs]%not_elem_of_cons.
  cbn [split_on]. rewrite decide_False by done. by rewrite IH.
Qed.

Lemma split_on_app sep (l s : jsstring) :
  sep ∉ l → split_on sep (l ++ sep :: s) = l :: split_on sep s.
Proof.
  induction l as [|c l IH]; intros Hn.
  - cbn [app split_on]. by rewrite decide_True.
  - apply not_elem_of_cons in Hn as [Hc Hl]. cbn [app split_on].
    rewrite decide_False by done. by rewrite IH.
Qed.

Lemma split_on_join sep (lines : list jsstring) :
  lines ≠ [] → Forall (fun l => sep ∉ l) lines →
  split_on sep (join [sep] lines) = lines.
Proof.
  induction lines as [|l lines IH]; [done|]. intros _ [Hl Hlines]%Forall_cons.
  destruct lines as [|l2 lines].
  - cbn [join]. by apply split_on_no_sep.
  - cbn [join]. cbn [join] in IH. change ([sep] ++ ?x) with (sep :: x).
    rewrite split_on_app by done. f_equal. by apply IH.
Qed.

Lemma elem_of_join sep (lines : list jsstring) x :
  x ∈ join [sep] lines → x = sep ∨ ∃ l, l ∈ lines ∧ x ∈ l.
Proof.
  induction lines as [|l lines IH]; [intros H; by apply elem_of_nil in H|].
  destruct lines as [|l2 lines].
  - cbn [join]. intros Hx. right. exists l. split; [by left | done].
  - cbn [join]. cbn [join] in IH. rewrite !elem_of_app, list_elem_of_singleton.
    intros [Hx|[Hx|Hx]]; [right; exists l; split; [by left | done] | by left |].
    destruct (IH Hx) as [?|(l' & Hl' & Hxl')]; [by left|].
    right. exists l'. split; [by right | done].
Qed.

(** The passes of [normalizeOverstrikes], also for the empty string. *)
Lemma normalizeOverstrikes_passes (input : jsstring) :
  normalizeOverstrikes input
  = join [10%N] (normalizeLine <$>
                   split_on 10%N (concat (foldl backspace_step [] (codePoints input)))).
Proof. by destruct input. Qed.

(** The code points of a text are those of its two halves, unless the
    cut falls inside a surrogate pair. *)
Lemma codePoints_app (a r : jsstring) :
  (∀ d, head r = Some d → is_low_surrogate d = false) →
  codePoints (a ++ r) = codePoints a ++ codePoints r.
Proof.
  intros Hr.
  assert (∀ n (a : jsstring), (length a ≤ n)%nat →
            codePoints (a ++ r) = codePoints a ++ codePoints r) as H;
    [|by apply (H (length a))].
  clear a. induction n as [|n IH]; intros a Hn.
  - destruct a; [done | cbn in Hn; lia].
  - destruct a as [|c [|d a]]; [done| |].
    + destruct r as [|d r]; [done|]. cbn [app]. rewrite codePoints_cons2.
      rewrite (Hr d eq_refl), andb_false_r. done.
    + cbn [app length] in *. rewrite !codePoints_cons2.
      destruct (is_high_surrogate c && is_low_surrogate d).
      * rewrite IH by lia. done.
      * pose proof (IH (d :: a)) as IH'. cbn [app length] in IH'.
        rewrite IH' by lia. done.
Qed.

Lemma codePoints_backspace_cons (b : jsstring) :
  codePoints (8%N :: b) = [8%N] :: codePoints b.
Proof. by destruct b. Qed.

Lemma backspace_fold_pop (cpa cpb : list jsstring) (ch : jsstring) :
  ch ≠ [8%N] →
  foldl backspace_step [] (cpa ++ ch :: [8%N] :: cpb)
  = foldl backspace_step [] (cpa ++ cpb).
Proof.
  intros Hch. rewrite !foldl_app. cbn [foldl]. f_equal.
  unfold backspace_step at 2. rewrite decide_False by done.
  unfold backspace_step at 1. rewrite decide_True by done.
  apply removelast_last.
Qed.

(** A line without backspaces and line feeds goes through the second
    pass only. *)
Lemma normalizeOverstrikes_line (line : jsstring) :
  8%N ∉ line → 10%N ∉ line → normalizeOverstrikes line = normalizeLine line.
Proof.
  intros H8 H10. rewrite normalizeOverstrikes_passes.
  rewrite backspace_fold_id by (by intros Hin%codePoints_backspace).
  cbn [app]. rewrite concat_codePoints, split_on_no_sep by done. done.
Qed.

Lemma join_no_sep_singleton sep (parts : list jsstring) :
  parts ≠ [] → sep ∉ join [sep] parts → ∃ p, parts = [p].
Proof.
  intros Hne Hn. destruct parts as [|p [|q parts]]; [done | by exists p |].
  exfalso. apply Hn. cbn [join]. apply elem_of_app. right.
  apply elem_of_app. left. by left.
Qed.

Lemma normalizeOverstrikes_overlay (parts : list jsstring) :
  parts ≠ [] →
  Forall (fun p => (8%N ∉ p) ∧ (10%N ∉ p) ∧ (13%N ∉ p)) parts →
  normalizeOverstrikes (join [13%N] parts) = foldl overwrite [] parts.
Proof.
  intros Hne Hparts. rewrite Forall_forall in Hparts.
  rewrite normalizeOverstrikes_line.
  - unfold normalizeLine. destruct (decide (13%N ∈ join [13%N] parts)) as [Hin|Hn].
    + rewrite split_on_join; [done|done|].
      apply Forall_forall. intros p Hp. by destruct (Hparts p Hp) as (_ & _ & ?).
    + destruct (join_no_sep_singleton _ _ Hne Hn) as [p ->]. cbn [join foldl].
      unfold overwrite. by rewrite drop_nil, app_nil_r.
  - intros [?|(p & Hp & Hx)]%elem_of_join; [done|].
    by destruct (Hparts p Hp) as (? & _ & _).
  - intros [?|(p & Hp & Hx)]%elem_of_join; [done|].
    by destruct (Hparts p Hp) as (_ & ? & _).
Qed.

Lemma high_not_low (c : N) : is_high_surrogate c = true → is_low_surrogate c = false.
Proof.
  unfold is_high_surrogate, is_low_surrogate.
  intros [_ H]%andb_true_iff. apply N.leb_le in H.
  apply andb_false_iff. left. apply N.leb_gt. lia.
Qed.

(** A code point followed by a backspace is as if neither had been
    there. *)
Lemma normalizeOverstrikes_pop (a ch b : jsstring) :
  codePoints ch = [ch] → ch ≠ [8%N] →
  (∀ c, head ch = Some c → is_low_surrogate c = false) →
  (∀ d, head b = Some d → is_low_surrogate d = false) →
  normalizeOverstrikes (a ++ ch ++ [8%N] ++ b) = normalizeOverstrikes (a ++ b).
Proof.
  intros Hcp Hch Hhead Hb. rewrite !normalizeOverstrikes_passes.
  rewrite (codePoints_app a (ch ++ [8%N] ++ b)).
  2:{ intros d Hd. destruct ch as [|c ch]; [done|]. apply Hhead.
      by injection Hd as ->. }
  rewrite (codePoints_app ch ([8%N] ++ b)) by (by intros d [= <-]).
  cbn [app]. rewrite codePoints_backspace_cons, Hcp, (codePoints_app a b Hb).
  cbn [app]. by rewrite backspace_fold_pop.
Qed.

(** C9: a backspace deletes the previous character: a code unit that
    is no backspace, or a surrogate pair, followed by a backspace leaves
    the result as if neither had been there (the text is not cut inside
    a surrogate pair), and a backspace with nothing before it is
    dropped.  Within a line, the text after each carriage return
    overwrites the columns it covers, so that each column shows the code
    unit of the last part that reaches it, and what an earlier part has
    beyond the later ones remains.  The carriage returns are handled line
    by line: for lines free of line feeds and backspaces the result is
    the line-wise result. *)
Theorem normalizeOverstrikes_spec :
  (∀ (a : jsstring) (c : N) (b : jsstring),
     c ≠ 8%N → is_low_surrogate c = false →
     (∀ d, head b = Some d → is_low_surrogate d = false) →
     normalizeOverstrikes (a ++ [c; 8%N] ++ b) = normalizeOverstrikes (a ++ b)) ∧
  (∀ (a : jsstring) (hi lo : N) (b : jsstring),
     is_high_surrogate hi = true → is_low_surrogate lo = true →
     (∀ d, head b = Some d → is_low_surrogate d = false) →
     normalizeOverstrikes (a ++ [hi; lo; 8%N] ++ b) = normalizeOverstrikes (a ++ b)) ∧
  (∀ b : jsstring, normalizeOverstrikes ([8%N] ++ b) = normalizeOverstrikes b) ∧
  (∀ (parts : list jsstring) (i : nat) (c : N),
     parts ≠ [] →
     Forall (fun p => (8%N ∉ p) ∧ (10%N ∉ p) ∧ (13%N ∉ p)) parts →
     (normalizeOverstrikes (join [13%N] parts) !! i = Some c ↔
      ∃ before part after,
        parts = before ++ part :: after ∧ part !! i = Some c ∧
        Forall (fun p => (length p ≤ i)%nat) after)) ∧
  (∀ lines : list jsstring,
     lines ≠ [] →
     Forall (fun l => (10%N ∉ l) ∧ (8%N ∉ l)) lines →
     normalizeOverstrikes (join [10%N] lines)
     = join [10%N] (normalizeOverstrikes <$> lines)).
Proof.
  split_and!.
  - intros a c b Hc Hlow Hb.
    apply (normalizeOverstrikes_pop a [c] b); [done | congruence | | done].
    by intros c' [= <-].
  - intros a hi lo b Hhi Hlo Hb.
    apply (normalizeOverstrikes_pop a [hi; lo] b); [|done| |done].
    + rewrite codePoints_cons2, Hhi, Hlo. done.
    + intros c' [= <-]. by apply high_not_low.
  - intros b. rewrite !normalizeOverstrikes_passes. cbn [app].
    rewrite codePoints_backspace_cons. done.
  - intros parts i c Hne Hparts.
    rewrite normalizeOverstrikes_overlay, overwrite_fold_lookup by done.
    split.
    + intros (b & p & a & ? & ? & Ha). exists b, p, a. split_and!; [done..|].
      eapply Forall_impl; [exact Ha|]. intros x Hx. by apply lookup_ge_None.
    + intros (b & p & a & ? & ? & Ha). exists b, p, a. split_and!; [done..|].
      eapply Forall_impl; [exact Ha|]. intros x Hx. by apply lookup_ge_None.
  - intros lines Hne Hlines. rewrite normalizeOverstrikes_passes.
    rewrite backspace_fold_id.
    + cbn [app]. rewrite concat_codePoints. rewrite split_on_join; [|done|].
      2:{ eapply Forall_impl; [exact Hlines|]. by intros l [? _]. }
      f_equal. apply Forall_fmap_ext. eapply Forall_impl; [exact Hlines|].
      intros l [H10 H8]. cbn beta. by rewrite normalizeOverstrikes_line.
    + intros Hin%codePoints_backspace.
      apply elem_of_join in Hin as [?|(l & Hl & Hx)]; [done|].
      rewrite Forall_forall in Hlines. by destruct (Hlines l Hl).
Qed.

Lemma normalizeOverstrikes_spec_witness :
  normalizeOverstrikes (js "ab" ++ [99%N; 8%N] ++ js "d")
  = normalizeOverstrikes (js "ab" ++ js "d") ∧
  normalizeOverstrikes (js "ab" ++ [55357%N; 56832%N; 8%N] ++ js "d")
  = normalizeOverstrikes (js "ab" ++ js "d") ∧
  normalizeOverstrikes ([8%N] ++ js "x") = normalizeOverstrikes (js "x") ∧
  (normalizeOverstrikes (join [13%N] [js "hello"; js "HE"]) !! 3%nat = Some 108%N ↔
   ∃ before part after,
     [js "hello"; js "HE"] = before ++ part :: after ∧ part !! 3%nat = Some 108%N ∧
     Forall (fun p => (length p ≤ 3)%nat) after) ∧
  normalizeOverstrikes (join [10%N] [js "hello" ++ [13%N] ++ js "HE"; js "x"])
  = join [10%N] (normalizeOverstrikes <$> [js "hello" ++ [13%N] ++ js "HE"; js "x"]).
Proof.
  pose proof normalizeOverstrikes_spec as (Hback & Hpair & Hfirst & Hover & Hlines).
  split_and!.
  - apply Hback; [discriminate | reflexivity |]. intros d [= <-]. reflexivity.
  - apply Hpair; [reflexivity | reflexivity |]. intros d [= <-]. reflexivity.
  - apply Hfirst.
  - apply Hover; [discriminate|]. vm_compute. repeat constructor; set_solver.
  - apply Hlines; [discriminate|]. vm_compute. repeat constructor; set_solver.
Defined.

(** *** The promise pool *)


(** Ten tasks, three workers, and a schedule in which later tasks
    complete before earlier ones. *)
Example pool_ten_three :
  let tasks := Fulfilled <$> seq 100 10 in
  let schedule := [0; 1; 2; 2; 2; 2; 2; 1; 1; 2; 0; 0; 1; 2; 0; 1; 2;
                   0; 1; 2; 0; 1; 2; 0; 1; 2]%nat in
  let p := pool_schedule tasks schedule (pool_start 10 (poolSize tasks 3)) in
  workers p = [Finished; Finished; Finished] ∧
  results p = Some <$> seq 100 10 ∧
  started p = seq 0 10.
Proof. vm_compute. done. Qed.

Example pool_rejects_concurrency_zero :
  runPromisePool (Fulfilled <$> [1%nat]) 0
    (Throw (mkError Error (js "Concurrency must be a positive integer"))).
Proof. apply pool_invalid. lia. Qed.

(** *** execute-bash-command *)

(** C10: when [quiet] is true and [output-assign] is set (a non-empty
    string, the only strings JavaScript counts as true), [execute] throws
    at once: the context is as it was and nothing has been done, neither
    a template processed nor a command run. *)
Theorem execute_quiet_outputAssign pf params context effects :
  quiet params = Some true →
  (∃ c path, outputAssign params = Some (c :: path)) →
  execute pf params (context, effects)
  = (Throw (mkError Error
             (js "Cannot use both 'quiet' and 'output-assign' options together")),
     (context, effects)).
Proof.
  intros Hquiet (c & path & Hout). unfold execute. by rewrite Hquiet, Hout.
Qed.

Lemma execute_quiet_outputAssign_witness :
  execute (calm_platform (js "x"))
    (mkParams (js "pwd") None None (Some true) (Some (js "$>{{ ctx.dir }}")) None None)
    (new_PipelineContext [], [])
  = (Throw (mkError Error
             (js "Cannot use both 'quiet' and 'output-assign' options together")),
     (new_PipelineContext [], [])).
Proof.
  apply execute_quiet_outputAssign.
  - reflexivity.
  - eexists _, _. vm_compute. reflexivity.
Defined.

(** Without [quiet] the same parameters run the command and store its
    output under the assigned path. *)
Example execute_assigns_output :
  let '(res, (context, effects)) :=
    execute (calm_platform (js " /home/me" ++ [10%N]))
      (mkParams (js "pwd") None None None (Some (js "$>{{ ctx.dir }}")) None None)
      (new_PipelineContext [], []) in
  res = Ok tt ∧
  PipelineContext_get (js "ctx.dir") context = VStr (js "/home/me") ∧
  effects = [TemplateProcessed (js "pwd");
             CommandRun [js "bash"; js "-c"; js "pwd"] None].
Proof. vm_compute. done. Qed.

(** An empty [output-assign] counts as not set: with [quiet] the command
    runs and nothing is assigned. *)
Example execute_quiet_empty_outputAssign :
  execute (calm_platform (js "x"))
    (mkParams (js "pwd") None None (Some true) (Some []) None None)
    (new_PipelineContext [], [])
  = (Ok tt, (new_PipelineContext [],
             [TemplateProcessed (js "pwd");
              CommandRun [js "bash"; js "-c"; js "pwd"] None])).
Proof. vm_compute. reflexivity. Qed.

(** *** The resolver: construction and outcome *)

Lemma buildElementMap_Ok els pre :
  NoDup (names_of (pre ++ els)) →
  buildElementMap els ((fun e => (name e, e)) <$> pre)
  = Ok ((fun e => (name e, e)) <$> (pre ++ els)).
Proof.
  revert pre. induction els as [|e els IH]; intros pre Hnd; cbn [buildElementMap].
  - by rewrite app_nil_r.
  - assert (name e ∉ names_of pre) as Hfresh.
    { unfold names_of in Hnd. rewrite fmap_app in Hnd.
      apply NoDup_app in Hnd as (_ & Hd & _). intros Hin.
      apply (Hd _ Hin). cbn. by left. }
    destruct (map_has (name e) _) eqn:Hhas.
    { apply map_has_true in Hhas. by rewrite map_keys_mk in Hhas. }
    rewrite map_set_fresh by (by rewrite map_keys_mk).
    replace (((fun e0 => (name e0, e0)) <$> pre) ++ [(name e, e)])
      with ((fun e0 => (name e0, e0)) <$> (pre ++ [e]))
      by (by rewrite fmap_app).
    rewrite IH; [by rewrite <- app_assoc|]. by rewrite <- app_assoc.
Qed.

Lemma validateDependencies_of_Ok m e deps :
  (∀ d, d ∈ deps → d ≠ name e ∧ d ∈ map_keys m) →
  validateDependencies_of m e deps = Ok tt.
Proof.
  induction deps as [|d deps IH]; intros H; cbn [validateDependencies_of]; [done|].
  destruct (H d) as [Hne Hin]; [by left|].
  rewrite decide_False by done.
  apply map_has_true in Hin. rewrite Hin. cbn [negb].
  apply IH. intros d' Hd'. apply H. by right.
Qed.

Lemma validateDependencies_Ok m els :
  (∀ e d, e ∈ els → d ∈ deps_of e → d ≠ name e ∧ d ∈ map_keys m) →
  validateDependencies m els = Ok tt.
Proof.
  induction els as [|e els IH]; intros H; cbn [validateDependencies]; [done|].
  rewrite validateDependencies_of_Ok.
  - apply IH. intros e' d He'. apply H. by right.
  - intros d. apply H. by left.
Qed.

Lemma new_DependencyResolver_Ok_intro els :
  NoDup (names_of els) →
  (∀ e d, e ∈ els → d ∈ deps_of e → d ≠ name e ∧ d ∈ names_of els) →
  is_Ok (new_DependencyResolver els) = true.
Proof.
  intros Hnd Hdeps. unfold new_DependencyResolver.
  pose proof (buildElementMap_Ok els [] Hnd) as Hm.
  cbn [fmap list_fmap app] in Hm. rewrite Hm.
  rewrite validateDependencies_Ok; [done|].
  intros e d He Hd. rewrite map_keys_mk. by apply Hdeps.
Qed.

(** X1: The constructor accepts an element list exactly when the names are
    pairwise distinct and every listed dependency is the name of another
    element of the list. *)
Theorem new_DependencyResolver_Ok_iff els :
  is_Ok (new_DependencyResolver els) = true ↔
  NoDup (names_of els) ∧
  ∀ e d, e ∈ els → d ∈ deps_of e → d ≠ name e ∧ d ∈ names_of els.
Proof.
  split.
  - destruct (new_DependencyResolver els) as [r|] eqn:Hnew; [intros _|done].
    destruct (new_DependencyResolver_wf els r Hnew) as (Hels & Hwf & _ & Hself).
    rewrite <- Hels. split; [apply Hwf|]. intros e d He Hd. split.
    + rewrite Hels in He. by apply Hself.
    + by apply (wf_deps r Hwf e).
  - intros [Hnd Hdeps]. by apply new_DependencyResolver_Ok_intro.
Qed.

Lemma cycle_path_names els p :
  cycle_path els p →
  names_cycle_along (depends_on els)
    (js "Circular dependency detected: " ++ join arrow_sep p).
Proof.
  intros (Hchain & Hlen & Hhl). exists p. split_and!; [done..|].
  intros i x y. by apply is_chain_lookup.
Qed.

(** X2: [resolveExecutionOrder] always returns.  A list it returns holds
    every element exactly once, each after the elements it depends on,
    and the graph has no cycle.  An error it throws is a
    [DependencyError] that names a closed path along the dependencies,
    or, on a graph without cycles in which some element lists a
    dependency twice, the text "Unknown cycle detected". *)
Theorem resolveExecutionOrder_returns els r :
  new_DependencyResolver els = Ok r →
  ∃ out r', resolveExecutionOrder r = Some (out, r') ∧
    match out with
    | Ok result =>
        result ≡ₚ els ∧ acyclic els ∧
        ∀ i j dep e, result !! i = Some dep → result !! j = Some e →
                     name dep ∈ deps_of e → (i < j)%nat
    | Throw e =>
        err_name e = DependencyError ∧
        (names_cycle_along (depends_on els) (err_message e) ∨
         (err_message e
          = js "Circular dependency detected: Unknown cycle detected" ∧
          acyclic els ∧ ∃ x, x ∈ els ∧ ¬ NoDup (deps_of x)))
    end.
Proof.
  intros Hnew.
  destruct (new_DependencyResolver_wf els r Hnew) as (Hels & Hwf & Hfresh & _).
  destruct (topologicalSort_spec r Hwf Hfresh) as (result & deg' & Hts & K).
  unfold resolveExecutionOrder. rewrite Hts.
  destruct (decide (length result ≠ length (elements r))) as [Hlen|Hlen].
  - pose proof (wf_graph_degrees r deg' Hwf) as Hwf'.
    destruct (detectCycle_spec _ Hwf') as (c & -> & Hc).
    cbn [elements] in Hc. rewrite Hels in Hc.
    eexists _, _. split; [done|]. cbn [err_name err_message]. split; [done|].
    destruct Hc as [(p & -> & Hp)|[-> Hacyc]].
    + left. by apply cycle_path_names.
    + right. split_and!; [done|done|].
      destruct (decide (Forall (fun e => NoDup (deps_of e)) els)) as [Hall|Hex].
      * exfalso. apply Hlen. rewrite <- Hels in Hall, Hacyc.
        apply Permutation_length.
        apply (kahn_result_Permutation r Hwf result deg' K).
        apply (kahn_complete r Hwf result deg' K); [|done].
        by apply Forall_forall.
      * apply not_Forall_Exists in Hex; [|apply _].
        by apply Exists_exists in Hex.
  - apply dec_stable in Hlen.
    eexists _, _. split; [done|].
    assert (names_of result ≡ₚ names_of (elements r)) as Hperm.
    { apply submseteq_length_Permutation; [by apply (kahn_names_sub r result deg')|].
      unfold names_of. rewrite !length_fmap. lia. }
    split_and!.
    + rewrite <- Hels. apply (kahn_result_Permutation r Hwf result deg' K).
      intros v Hv. by rewrite Hperm.
    + rewrite <- Hels. by apply (kahn_full_acyclic r result deg' K).
    + intros i j dep e Hi Hj Hd.
      apply (topo_rev_order (elements r) (names_of result) i j (name dep) (name e)).
      * apply K.
      * by apply (kahn_names_NoDup r result deg').
      * unfold names_of. by rewrite list_lookup_fmap, Hi.
      * unfold names_of. by rewrite list_lookup_fmap, Hj.
      * exists e. split_and!; [|done|done].
        apply (ki_result _ _ _ _ K). by eapply list_elem_of_lookup_2.
Qed.

Lemma kahn_full_Permutation r result deg' :
  wf_graph r → kahn_inv r [] deg' result →
  length result = length (elements r) → result ≡ₚ elements r.
Proof.
  intros Hwf K Hlen.
  assert (names_of result ≡ₚ names_of (elements r)) as Hperm.
  { apply submseteq_length_Permutation; [by apply (kahn_names_sub r result deg')|].
    unfold names_of. rewrite !length_fmap. lia. }
  apply (kahn_result_Permutation r Hwf result deg' K).
  intros v Hv. by rewrite Hperm.
Qed.

Lemma kahn_order r result deg' i j dep e :
  kahn_inv r [] deg' result →
  result !! i = Some dep → result !! j = Some e →
  name dep ∈ deps_of e → (i < j)%nat.
Proof.
  intros K Hi Hj Hd.
  apply (topo_rev_order (elements r) (names_of result) i j (name dep) (name e)).
  - apply K.
  - by apply (kahn_names_NoDup r result deg').
  - unfold names_of. by rewrite list_lookup_fmap, Hi.
  - unfold names_of. by rewrite list_lookup_fmap, Hj.
  - exists e. split_and!; [|done|done].
    apply (ki_result _ _ _ _ K). by eapply list_elem_of_lookup_2.
Qed.

Lemma relax_fold_queue ns deg q :
  ∃ pushed, (foldl relax (deg, q) ns).2 = q ++ pushed.
Proof.
  revert deg q. induction ns as [|w ns IH]; intros deg q; cbn [foldl].
  - exists []. by rewrite app_nil_r.
  - unfold relax at 2. cbn [fst snd].
    destruct (decide (default 0 (map_get w deg) - 1 = 0)).
    + destruct (IH (map_set w (default 0 (map_get w deg) - 1) deg) (q ++ [w]))
        as [pushed ->].
      exists (w :: pushed). by rewrite <- app_assoc.
    + apply IH.
Qed.

Lemma topologicalSort_loop_extends fuel r queue deg result res deg' :
  topologicalSort_loop fuel r queue deg result = Some (res, deg') →
  ∃ rest, res = result ++ rest.
Proof.
  revert queue deg result. induction fuel as [|fuel IH]; intros queue deg result.
  - destruct queue; cbn [topologicalSort_loop]; [|done].
    intros [= <- _]. exists []. by rewrite app_nil_r.
  - destruct queue as [|c q]; cbn [topologicalSort_loop].
    + intros [= <- _]. exists []. by rewrite app_nil_r.
    + destruct (map_get c (elementMap r)) as [e|]; [|done].
      intros [rest ->]%IH. exists (e :: rest). by rewrite <- app_assoc.
Qed.

(** The loop takes the names that wait in the queue in order, before
    any name it pushes. *)
Lemma topologicalSort_loop_prefix r q1 :
  ∀ fuel q2 deg result res deg',
  topologicalSort_loop fuel r (q1 ++ q2) deg result = Some (res, deg') →
  ∃ es rest,
    Forall2 (fun n e => map_get n (elementMap r) = Some e) q1 es ∧
    res = result ++ es ++ rest.
Proof.
  induction q1 as [|c q1 IH]; intros fuel q2 deg result res deg' Hloop.
  - apply topologicalSort_loop_extends in Hloop as [rest ->].
    exists [], rest. split; [constructor | done].
  - destruct fuel as [|fuel]; [done|].
    cbn [app topologicalSort_loop] in Hloop.
    destruct (map_get c (elementMap r)) as [e|] eqn:Hc; [|done].
    destruct (relax_fold_queue (default [] (map_get c (adjacencyList r))) deg (q1 ++ q2))
      as [pushed Hq].
    rewrite Hq, <- app_assoc in Hloop.
    apply IH in Hloop as (es & rest & Hes & ->).
    exists (e :: es), rest. split; [by constructor|]. by rewrite <- app_assoc.
Qed.

Lemma assoc_list_eq {A V} (f : A → jsstring) (g : A → V) (l : list A)
    (m : list (jsstring * V)) :
  map_keys m = f <$> l → NoDup (f <$> l) →
  (∀ a, a ∈ l → map_get (f a) m = Some (g a)) →
  m = (fun a => (f a, g a)) <$> l.
Proof.
  revert m. induction l as [|a l IH]; intros m Hk Hnd Hget.
  - by destruct m.
  - destruct m as [|[k v] m]; [done|]. cbn in Hk. injection Hk as -> Hk.
    apply NoDup_cons in Hnd as [Ha Hnd].
    pose proof (Hget a (list_elem_of_here _ _)) as Hga. cbn [map_get] in Hga.
    rewrite decide_True in Hga by done. injection Hga as ->.
    cbn [fmap list_fmap]. f_equal. apply IH; [done|done|].
    intros b Hb. specialize (Hget b (list_elem_of_further _ _ _ Hb)). cbn [map_get] in Hget.
    rewrite decide_False in Hget; [done|].
    intros Heq. apply Ha. rewrite <- Heq. by apply list_elem_of_fmap_2.
Qed.

(** The queue with which [topologicalSort] starts holds the names of the
    independent elements, in the order of the element list. *)
Lemma initial_queue_independent r :
  wf_graph r → fresh_degrees r →
  fst <$> filter (fun kd => kd.2 = 0) (inDegree r)
  = names_of (getIndependentElements r).
Proof.
  intros Hwf [Hkeys Hdeg].
  rewrite (assoc_list_eq name (fun e => Z.of_nat (length (deps_of e)))
             (elements r) (inDegree r)); [|done|apply Hwf|done].
  unfold getIndependentElements. clear.
  induction (elements r) as [|e l IH]; [done|].
  cbn [fmap list_fmap]. rewrite !filter_cons. cbn [snd].
  destruct (decide (Z.of_nat (length (deps_of e)) = 0)) as [Hz|Hz];
    destruct (decide (length (deps_of e) = 0%nat)) as [Hn|Hn]; try lia.
  - cbn [fmap list_fmap names_of fst]. f_equal. apply IH.
  - apply IH.
Qed.

Lemma Forall2_elementMap r l es :
  wf_graph r → (∀ e, e ∈ l → e ∈ elements r) →
  Forall2 (fun n e => map_get n (elementMap r) = Some e) (names_of l) es →
  es = l.
Proof.
  intros Hwf. revert es. induction l as [|e l IH]; intros es Hsub HF.
  - by inversion HF.
  - cbn in HF. inversion HF as [|? e' ? es' Hget HF']; subst.
    rewrite (elementMap_lookup r Hwf e) in Hget by (apply Hsub; by left).
    injection Hget as <-. f_equal. apply IH; [|done].
    intros x Hx. apply Hsub. by right.
Qed.

(** What a successful call of [resolveExecutionOrder] on a freshly
    constructed resolver went through. *)
Lemma resolveExecutionOrder_Ok_inv els r result r' :
  new_DependencyResolver els = Ok r →
  resolveExecutionOrder r = Some (Ok result, r') →
  wf_graph r ∧ elements r = els ∧ elements r' = els ∧
  (∃ deg', kahn_inv r [] deg' result) ∧
  length result = length els ∧
  ∃ rest, result = getIndependentElements r ++ rest.
Proof.
  intros Hnew Hres.
  destruct (new_DependencyResolver_wf els r Hnew) as (Hels & Hwf & Hfresh & _).
  destruct (topologicalSort_spec r Hwf Hfresh) as (result0 & deg' & Hts & K).
  unfold resolveExecutionOrder in Hres. rewrite Hts in Hres.
  destruct (decide (length result0 ≠ length (elements r))) as [Hlen|Hlen].
  { destruct (detectCycle _); done. }
  apply dec_stable in Hlen. injection Hres as <- <-.
  split_and!; [done|done|done|by exists deg'|by rewrite <- Hels|].
  unfold topologicalSort in Hts.
  destruct (topologicalSort_loop _ _ _ _ _) as [[res d]|] eqn:Hloop; [|done].
  injection Hts as -> ->.
  rewrite (initial_queue_independent r Hwf Hfresh) in Hloop.
  rewrite <- (app_nil_r (names_of _)) in Hloop.
  apply topologicalSort_loop_prefix in Hloop as (es & rest & Hes & ->).
  apply Forall2_elementMap in Hes as ->; [by exists rest|done|].
  intros e He. unfold getIndependentElements in He.
  by apply list_elem_of_filter in He as [_ He].
Qed.

(** X4: The execution order starts with the independent elements, in the
    order in which they were loaded; every element after them has a
    dependency. *)
Theorem resolveExecutionOrder_independent_first els r result r' :
  new_DependencyResolver els = Ok r →
  resolveExecutionOrder r = Some (Ok result, r') →
  ∃ rest, result = getIndependentElements r ++ rest ∧
          ∀ e, e ∈ rest → deps_of e ≠ [].
Proof.
  intros Hnew Hres.
  destruct (resolveExecutionOrder_Ok_inv els r result r' Hnew Hres)
    as (Hwf & Hels & _ & [deg' K] & Hlen & rest & Hrest).
  exists rest. split; [done|]. intros e He Hdeps.
  assert (NoDup (names_of result)) as Hnd by (by apply (kahn_names_NoDup r result deg')).
  apply NoDup_fmap_1 in Hnd. rewrite Hrest in Hnd.
  apply NoDup_app in Hnd as (_ & Hdisj & _).
  apply (Hdisj e); [|done].
  unfold getIndependentElements. apply list_elem_of_filter. split.
  - by rewrite Hdeps.
  - apply (ki_result _ _ _ _ K). rewrite Hrest. apply elem_of_app. by right.
Qed.

Lemma b_needs_a_acyclic : acyclic b_needs_a.
Proof.
  apply (topo_rev_acyclic _ [js "B"; js "A"]).
  - cbn [topo_rev]. split_and!; [| |done].
    + intros d (e & He & Hn & Hd). unfold b_needs_a in He.
      apply elem_of_cons in He as [->|He]; [cbn in Hd; set_solver|].
      apply list_elem_of_singleton in He as ->. done.
    + intros d (e & He & Hn & Hd). unfold b_needs_a in He.
      apply elem_of_cons in He as [->|He]; [done|].
      apply list_elem_of_singleton in He as ->. by apply elem_of_nil in Hd.
  - intros v Hv. cbn in Hv. set_solver.
Qed.

Lemma resolveExecutionOrder_returns_witness :
  ∃ r, new_DependencyResolver b_needs_a = Ok r ∧
  ∃ out r', resolveExecutionOrder r = Some (out, r') ∧
    match out with
    | Ok result =>
        result ≡ₚ b_needs_a ∧ acyclic b_needs_a ∧
        ∀ i j dep e, result !! i = Some dep → result !! j = Some e →
                     name dep ∈ deps_of e → (i < j)%nat
    | Throw e =>
        err_name e = DependencyError ∧
        (names_cycle_along (depends_on b_needs_a) (err_message e) ∨
         (err_message e
          = js "Circular dependency detected: Unknown cycle detected" ∧
          acyclic b_needs_a ∧ ∃ x, x ∈ b_needs_a ∧ ¬ NoDup (deps_of x)))
    end.
Proof.
  eexists. split; [vm_compute; reflexivity|].
  apply (resolveExecutionOrder_returns b_needs_a). vm_compute. reflexivity.
Defined.

Lemma resolveExecutionOrder_acyclic_witness :
  ∃ r, new_DependencyResolver b_needs_a = Ok r ∧
  ∃ result r',
    resolveExecutionOrder r = Some (Ok result, r') ∧
    result ≡ₚ b_needs_a ∧
    ∀ i j dep e, result !! i = Some dep → result !! j = Some e →
                 name dep ∈ deps_of e → (i < j)%nat.
Proof.
  eexists. split; [vm_compute; reflexivity|].
  apply (resolveExecutionOrder_acyclic b_needs_a).
  - vm_compute. reflexivity.
  - apply b_needs_a_acyclic.
  - intros e He. unfold b_needs_a in He.
    apply elem_of_cons in He as [->|He];
      [|apply list_elem_of_singleton in He as ->]; vm_compute; repeat constructor.
    set_solver.
Defined.

Lemma resolveExecutionOrder_independent_first_witness :
  ∃ r result r',
    new_DependencyResolver b_needs_a = Ok r ∧
    resolveExecutionOrder r = Some (Ok result, r') ∧
    ∃ rest, result = getIndependentElements r ++ rest ∧
            ∀ e, e ∈ rest → deps_of e ≠ [].
Proof.
  eexists _, _, _. split; [vm_compute; reflexivity|].
  split; [vm_compute; reflexivity|].
  eapply (resolveExecutionOrder_independent_first b_needs_a).
  - vm_compute. reflexivity.
  - vm_compute. reflexivity.
Defined.

(** *** The resolver: a second call *)

Lemma relax_fold_keys ns deg q :
  (∀ w, w ∈ ns → w ∈ map_keys deg) →
  map_keys (foldl relax (deg, q) ns).1 = map_keys deg.
Proof.
  revert deg q. induction ns as [|w ns IH]; intros deg q Hns; cbn [foldl]; [done|].
  unfold relax at 2. cbn [fst snd].
  assert (w ∈ map_keys deg) as Hw by (apply Hns; by left).
  rewrite IH.
  - by apply map_keys_set_in.
  - intros w' Hw'. rewrite map_keys_set_in by done. apply Hns. by right.
Qed.

Lemma topologicalSort_loop_keys r fuel queue deg result res deg' :
  wf_graph r → map_keys deg = names_of (elements r) →
  (∀ v, v ∈ queue → v ∈ names_of (elements r)) →
  topologicalSort_loop fuel r queue deg result = Some (res, deg') →
  map_keys deg' = names_of (elements r).
Proof.
  intros Hwf. revert queue deg result.
  induction fuel as [|fuel IH]; intros queue deg result Hk Hq.
  - destruct queue; cbn [topologicalSort_loop]; [|done]. by intros [= _ <-].
  - destruct queue as [|c q]; cbn [topologicalSort_loop]; [by intros [= _ <-]|].
    destruct (map_get c (elementMap r)) as [e|]; [|done].
    destruct (wf_adj r Hwf c) as (ns & Hns & _ & Hnsiff); [apply Hq; by left|].
    rewrite Hns. change (default [] (Some ns)) with ns.
    assert (∀ w, w ∈ ns → w ∈ names_of (elements r)) as Hnames.
    { intros w (e' & He' & <- & _)%Hnsiff. by apply list_elem_of_fmap_2. }
    apply IH.
    + rewrite relax_fold_keys; [done|]. intros w Hw. rewrite Hk. by apply Hnames.
    + destruct (relax_fold_queue ns deg q) as [pushed Hpushed].
      assert (∀ ns deg q v, (∀ w, w ∈ ns → w ∈ names_of (elements r)) →
                v ∈ (foldl relax (deg, q) ns).2 →
                v ∈ q ∨ v ∈ names_of (elements r)) as Hin.
      { clear. induction ns as [|w ns IHns]; intros deg q v Hns; cbn [foldl]; [by left|].
        intros [Hv|Hv]%IHns; [|by right|intros w' Hw'; apply Hns; by right].
        unfold relax in Hv. cbn [fst snd] in Hv. destruct (decide _); [|by left].
        apply elem_of_app in Hv as [?|Hv%list_elem_of_singleton]; [by left|].
        subst v. right. apply Hns. by left. }
      intros v Hv. destruct (Hin ns deg q v Hnames Hv) as [?|?]; [|done].
      apply Hq. by right.
Qed.

Lemma relax_fold_nonpos ns deg q :
  (∀ v, default 0 (map_get v deg) ≤ 0) →
  (foldl relax (deg, q) ns).2 = q ∧
  ∀ v, default 0 (map_get v (foldl relax (deg, q) ns).1) ≤ 0.
Proof.
  revert deg. induction ns as [|w ns IH]; intros deg Hdeg; cbn [foldl]; [done|].
  unfold relax at 2 4. cbn [fst snd].
  pose proof (Hdeg w) as Hw.
  rewrite decide_False by lia. apply IH.
  intros v. rewrite map_get_set. destruct (decide (w = v)); [cbn; lia | apply Hdeg].
Qed.

(** Once every in-degree is at most 0 the loop pushes nothing: it takes
    the queue as it is. *)
Lemma topologicalSort_loop_spent r (l : list Element) :
  ∀ fuel deg result,
  (∀ v, default 0 (map_get v deg) ≤ 0) →
  (∀ e, e ∈ l → map_get (name e) (elementMap r) = Some e) →
  (length l ≤ fuel)%nat →
  ∃ deg', topologicalSort_loop fuel r (names_of l) deg result
          = Some (result ++ l, deg').
Proof.
  induction l as [|e l IH]; intros fuel deg result Hdeg Hmap Hfuel.
  - exists deg. rewrite app_nil_r. by destruct fuel.
  - destruct fuel as [|fuel]; [cbn in Hfuel; lia|].
    cbn [names_of fmap list_fmap topologicalSort_loop].
    rewrite (Hmap e) by (by left).
    destruct (relax_fold_nonpos (default [] (map_get (name e) (adjacencyList r))) deg
                (name <$> l) Hdeg) as [-> Hdeg'].
    destruct (IH fuel _ (result ++ [e]) Hdeg') as [deg' Hloop].
    + intros e' He'. apply Hmap. by right.
    + cbn in Hfuel. lia.
    + exists deg'. unfold names_of in Hloop. rewrite Hloop. by rewrite <- app_assoc.
Qed.

(** X5: [resolveExecutionOrder] uses up the in-degree table of the resolver:
    after a call that returned an order, a second call on the same
    resolver returns the elements in the order in which they were
    loaded, whatever they depend on. *)
Theorem resolveExecutionOrder_twice els r result r' :
  new_DependencyResolver els = Ok r →
  resolveExecutionOrder r = Some (Ok result, r') →
  ∃ r'', resolveExecutionOrder r' = Some (Ok els, r'').
Proof.
  intros Hnew Hres.
  destruct (new_DependencyResolver_wf els r Hnew) as (Hels & Hwf & Hfresh & _).
  destruct (topologicalSort_spec r Hwf Hfresh) as (result0 & deg' & Hts & K).
  unfold resolveExecutionOrder in Hres. rewrite Hts in Hres.
  destruct (decide (length result0 ≠ length (elements r))) as [Hlen|Hlen].
  { destruct (detectCycle _); done. }
  apply dec_stable in Hlen. injection Hres as <- <-.
  pose proof (kahn_full_Permutation r result0 deg' Hwf K Hlen) as Hperm.
  assert (map_keys deg' = names_of (elements r)) as Hkeys.
  { unfold topologicalSort in Hts.
    destruct (topologicalSort_loop _ _ _ _ _) as [[res d]|] eqn:Hloop; [|done].
    injection Hts as -> ->.
    eapply topologicalSort_loop_keys; [done|apply Hfresh| |exact Hloop].
    intros v Hv. rewrite (initial_queue_independent r Hwf Hfresh) in Hv.
    apply list_elem_of_fmap in Hv as (e & -> & He).
    apply list_elem_of_fmap_2. unfold getIndependentElements in He.
    by apply list_elem_of_filter in He as [_ ?]. }
  assert (∀ e, e ∈ elements r → map_get (name e) deg' = Some 0) as Hzero.
  { intros e He. apply (ki_zero _ _ _ _ K); [by apply list_elem_of_fmap_2|].
    rewrite app_nil_r. apply list_elem_of_fmap_2. by rewrite Hperm. }
  assert (deg' = (fun e => (name e, 0)) <$> elements r) as Hdeg.
  { apply (assoc_list_eq name (fun _ => 0)); [done|apply Hwf|done]. }
  unfold resolveExecutionOrder, topologicalSort.
  cbn [inDegree elements elementMap adjacencyList].
  assert (fst <$> filter (fun kd : jsstring * Z => kd.2 = 0) deg'
          = names_of (elements r)) as ->.
  { rewrite Hdeg. clear. induction (elements r) as [|e l IH]; [done|].
    cbn [fmap list_fmap]. rewrite filter_cons, decide_True by done.
    cbn [fmap list_fmap names_of fst]. f_equal. apply IH. }
  destruct (topologicalSort_loop_spent
              (mkResolver (elements r) (elementMap r) (adjacencyList r) deg')
              (elements r) (length deg') deg' [])
    as [deg'' Hloop].
  - intros v. destruct (map_get v deg') as [d|] eqn:Hv; [|done]. cbn.
    apply map_get_Some_key in Hv as Hk. rewrite Hkeys in Hk.
    apply list_elem_of_fmap in Hk as (e & -> & He).
    rewrite (Hzero e He) in Hv. injection Hv as <-. done.
  - intros e He. by apply (elementMap_lookup r Hwf).
  - rewrite Hdeg, length_fmap. done.
  - rewrite Hloop. cbn [app]. rewrite decide_False by (by intros ?).
    rewrite <- Hels. by eexists.
Qed.

Lemma resolveExecutionOrder_twice_witness :
  ∃ r result r',
    new_DependencyResolver b_needs_a = Ok r ∧
    resolveExecutionOrder r = Some (Ok result, r') ∧
    ∃ r'', resolveExecutionOrder r' = Some (Ok b_needs_a, r'').
Proof.
  eexists _, _, _. split; [vm_compute; reflexivity|].
  split; [vm_compute; reflexivity|].
  eapply (resolveExecutionOrder_twice b_needs_a).
  - vm_compute. reflexivity.
  - vm_compute. reflexivity.
Defined.

(** *** The [install] command: batches *)

Lemma filter_app_disjoint {A} (P : A → Prop) `{∀ x, Decision (P x)} (l1 l2 : list A) :
  (∀ x, x ∈ l1 → ¬ P x) → (∀ x, x ∈ l2 → P x) →
  filter P (l1 ++ l2) = l2.
Proof.
  intros H1 H2. rewrite filter_app.
  assert (filter P l1 = []) as ->.
  { induction l1 as [|a l1 IH]; [done|]. rewrite filter_cons.
    rewrite decide_False by (apply H1; by left).
    apply IH. intros x Hx. apply H1. by right. }
  cbn [app]. induction l2 as [|a l2 IH]; [done|]. rewrite filter_cons.
  rewrite decide_True by (apply H2; by left).
  f_equal. apply IH. intros x Hx. apply H2. by right.
Qed.

(** X6: The [install] command runs every element exactly once.  The
    parallel batch is made of the elements without dependencies, all of
    them, in load order; every element of the sequential batch has a
    dependency and runs after every element it depends on: each of its
    dependencies is in the parallel batch or earlier in the sequence.  A
    failure to plan is a [DependencyError]. *)
Theorem install_batches_spec els :
  ∃ out, install_batches els = Some out ∧
    match out with
    | Ok (parallel, sequential) =>
        parallel ++ sequential ≡ₚ els ∧
        parallel = filter (fun e => deps_of e = []) els ∧
        (∀ e, e ∈ sequential → deps_of e ≠ []) ∧
        ∀ j e d, sequential !! j = Some e → d ∈ deps_of e →
          d ∈ names_of parallel ∨
          ∃ i dep, (i < j)%nat ∧ sequential !! i = Some dep ∧ name dep = d
    | Throw e => err_name e = DependencyError
    end.
Proof.
  unfold install_batches.
  destruct (new_DependencyResolver els) as [r|e] eqn:Hnew;
    [|exists (Throw e); split; [done | by eapply new_DependencyResolver_throws]].
  destruct (new_DependencyResolver_wf els r Hnew) as (Hels & Hwf & Hfresh & _).
  destruct (topologicalSort_spec r Hwf Hfresh) as (result0 & deg0 & Hts & _).
  destruct (resolveExecutionOrder r) as [[[result|e] r']|] eqn:Hres.
  - destruct (resolveExecutionOrder_Ok_inv els r result r' Hnew Hres)
      as (_ & _ & Hels' & [deg' K] & Hlen & rest & Hrest).
    assert (getIndependentElements r' = getIndependentElements r) as Hind.
    { unfold getIndependentElements. by rewrite Hels, Hels'. }
    rewrite Hind. eexists. split; [done|]. cbn beta iota.
    assert (NoDup (names_of result)) as Hnd
      by (by apply (kahn_names_NoDup r result deg')).
    assert (filter (fun element : Element =>
                      name element ∉ (list_to_set (name <$> getIndependentElements r)
                                        : gset jsstring)) result = rest) as ->.
    { rewrite Hrest. apply filter_app_disjoint.
      - intros x Hx Hnot. apply Hnot. apply elem_of_list_to_set.
        by apply list_elem_of_fmap_2.
      - intros x Hx Hin. apply elem_of_list_to_set in Hin.
        rewrite Hrest in Hnd. unfold names_of in Hnd. rewrite fmap_app in Hnd.
        apply NoDup_app in Hnd as (_ & Hdisj & _).
        apply (Hdisj _ Hin). by apply list_elem_of_fmap_2. }
    split_and!.
    + rewrite <- Hrest, <- Hels.
      apply (kahn_full_Permutation r result deg' Hwf K). by rewrite Hels.
    + unfold getIndependentElements. rewrite Hels.
      apply list_filter_iff. intros e. by destruct (deps_of e).
    + intros e He Hdeps.
      assert (e ∈ getIndependentElements r) as Hind'.
      { unfold getIndependentElements. apply list_elem_of_filter.
        split; [by rewrite Hdeps|].
        apply (ki_result _ _ _ _ K). rewrite Hrest. apply elem_of_app. by right. }
      rewrite Hrest in Hnd. unfold names_of in Hnd. rewrite fmap_app in Hnd.
      apply NoDup_app in Hnd as (_ & Hdisj & _).
      apply (Hdisj (name e)); by apply list_elem_of_fmap_2.
    + intros j e d Hj Hd.
      assert (result !! (length (getIndependentElements r) + j)%nat = Some e) as Hj'.
      { rewrite Hrest, lookup_app_r by lia. rewrite <- Hj. f_equal. lia. }
      assert (e ∈ elements r) as He.
      { apply (ki_result _ _ _ _ K). by eapply list_elem_of_lookup_2. }
      assert (d ∈ names_of result) as (dep & -> & Hdep)%list_elem_of_fmap.
      { assert (names_of result ≡ₚ names_of (elements r)) as ->.
        { unfold names_of. apply fmap_Permutation.
          apply (kahn_full_Permutation r result deg' Hwf K). by rewrite Hels. }
        by apply (wf_deps r Hwf e). }
      apply list_elem_of_lookup in Hdep as [i Hi].
      pose proof (kahn_order r result deg' i _ dep e K Hi Hj' Hd) as Hlt.
      destruct (decide (i < length (getIndependentElements r))%nat) as [Hpar|Hseq].
      * left. apply list_elem_of_fmap_2.
        rewrite Hrest, lookup_app_l in Hi by done. by eapply list_elem_of_lookup_2.
      * right. exists (i - length (getIndependentElements r))%nat, dep.
        split_and!; [lia| |done].
        rewrite Hrest, lookup_app_r in Hi by lia. done.
  - eexists. split; [done|]. cbn beta iota.
    unfold resolveExecutionOrder in Hres. rewrite Hts in Hres.
    destruct (decide _); [|done].
    destruct (detectCycle _); [|done]. by injection Hres as <- _.
  - exfalso. unfold resolveExecutionOrder in Hres. rewrite Hts in Hres.
    destruct (decide _); [|done].
    pose proof (wf_graph_degrees r deg0 Hwf) as Hwf'.
    destruct (detectCycle_spec _ Hwf') as (c & Hc & _). by rewrite Hc in Hres.
Qed.

(** *** The [install] command: the element filter *)

Lemma elementLookup_of_mk els :
  NoDup (names_of els) → elementLookup_of els = (fun e => (name e, e)) <$> els.
Proof.
  unfold elementLookup_of.
  change (@nil (jsstring * Element)) with ((fun e => (name e, e)) <$> @nil Element).
  rewrite <- (app_nil_l els) at 1 3. generalize (@nil Element) as pre.
  induction els as [|e els IH]; intros pre Hnd; cbn [foldl].
  - by rewrite app_nil_r.
  - assert (name e ∉ names_of pre) as Hfresh.
    { unfold names_of in Hnd. rewrite fmap_app in Hnd.
      apply NoDup_app in Hnd as (_ & Hd & _). intros Hin.
      apply (Hd _ Hin). cbn. by left. }
    rewrite map_set_fresh by (by rewrite map_keys_mk).
    replace (((fun e0 => (name e0, e0)) <$> pre) ++ [(name e, e)])
      with ((fun e0 => (name e0, e0)) <$> (pre ++ [e]))
      by (by rewrite fmap_app).
    rewrite IH; [by rewrite <- app_assoc|]. by rewrite <- app_assoc.
Qed.


Lemma sum_list_cons (a : nat) (l : list nat) :
  sum_list (a :: l) = (a + sum_list l)%nat.
Proof. reflexivity. Qed.

Lemma pending_nil lookup : pending lookup [] = required_fuel lookup [].
Proof.
  unfold pending, required_fuel. cbn [length Nat.add]. f_equal. f_equal.
  induction lookup as [|kv l IH]; [done|].
  rewrite filter_cons, decide_True by apply not_elem_of_nil. by rewrite IH.
Qed.

Lemma pending_add lookup required c e :
  NoDup (map_keys lookup) → (c, e) ∈ lookup → c ∉ required →
  (pending lookup (required ++ [c]) + length (deps_of e))%nat
  = pending lookup required.
Proof.
  unfold pending. intros Hnd Hin Hc.
  induction lookup as [|[k v] l IH]; [by apply elem_of_nil in Hin|].
  cbn in Hnd. apply NoDup_cons in Hnd as [Hk Hnd].
  rewrite !filter_cons. cbn [fst].
  apply elem_of_cons in Hin as [[= <- <-]|Hin].
  - rewrite decide_False by (intros H; apply H, elem_of_app; right; by left).
    rewrite decide_True by done. rewrite fmap_cons, sum_list_cons. cbn [snd].
    assert (filter (fun kv : jsstring * Element => kv.1 ∉ required ++ [c]) l
            = filter (fun kv : jsstring * Element => kv.1 ∉ required) l) as ->;
      [|lia].
    apply filter_ext_elem. intros [k' v'] Hkv. cbn [fst].
    rewrite elem_of_app, list_elem_of_singleton.
    split; [tauto|]. intros Hn [?|Heq]; [done|]. subst k'.
    apply Hk. by apply (list_elem_of_fmap_2 fst) in Hkv.
  - assert (k ≠ c) as Hne.
    { intros ->. apply Hk. by apply (list_elem_of_fmap_2 fst) in Hin. }
    specialize (IH Hnd Hin).
    destruct (decide (k ∉ required)) as [Hkr|Hkr].
    + rewrite decide_True.
      * rewrite !fmap_cons, !sum_list_cons. lia.
      * rewrite elem_of_app, list_elem_of_singleton. tauto.
    + rewrite decide_False; [done|].
      rewrite elem_of_app, list_elem_of_singleton. tauto.
Qed.

Section ElementFilter.
Variable els : list Element.
Variable elementFilters : list jsstring.
Hypothesis Hnd : NoDup (names_of els).

Local Abbreviation lookup := ((fun e : Element => (name e, e)) <$> els).

Local Abbreviation needed := (needed els elementFilters).
Local Abbreviation filter_inv := (filter_inv els elementFilters).

Lemma push_dependencies_spec required current deps stack :
  match push_dependencies lookup required current deps stack with
  | inl _ => ∃ d, d ∈ deps ∧ d ∉ names_of els
  | inr stack' =>
      (∀ n, n ∈ stack' → n ∈ stack ∨ (n ∈ deps ∧ n ∈ names_of els)) ∧
      (∀ n, n ∈ stack → n ∈ stack') ∧
      (∀ d, d ∈ deps → d ∈ required ∨ d ∈ stack') ∧
      (length stack' ≤ length stack + length deps)%nat
  end.
Proof.
  revert stack. induction deps as [|d deps IH]; intros stack;
    cbn [push_dependencies].
  - split_and!; [by left|done| |cbn; lia]. intros d Hd. by apply elem_of_nil in Hd.
  - destruct (decide (d ∈ required)) as [Hd|Hd].
    + specialize (IH stack).
      destruct (push_dependencies lookup required current deps stack) as [msg|stack'].
      * destruct IH as (d' & ? & ?). exists d'. split; [by right | done].
      * destruct IH as (I1 & I2 & I3 & I4). split_and!; [|done| |cbn; lia].
        -- intros n Hn. destruct (I1 n Hn) as [?|[? ?]]; [by left|right].
           split; [by right | done].
        -- intros d' [->|Hd']%elem_of_cons; [by left | by apply I3].
    + destruct (map_has d lookup) eqn:Hhas.
      * apply map_has_true in Hhas. rewrite map_keys_mk in Hhas.
        specialize (IH (d :: stack)).
        destruct (push_dependencies lookup required current deps (d :: stack))
          as [msg|stack'].
        -- destruct IH as (d' & ? & ?). exists d'. split; [by right | done].
        -- destruct IH as (I1 & I2 & I3 & I4). split_and!.
           ++ intros n Hn.
              destruct (I1 n Hn) as [[->|?]%elem_of_cons|[? ?]].
              ** right. split; [by left | done].
              ** by left.
              ** right. split; [by right | done].
           ++ intros n Hn. apply I2. by right.
           ++ intros d' [->|Hd']%elem_of_cons; [|by apply I3].
              right. apply I2. by left.
           ++ cbn [length] in *. lia.
      * exists d. split; [by left|]. intros Hin.
        assert (map_has d lookup = true) as Ht; [|congruence].
        apply map_has_true. by rewrite map_keys_mk.
Qed.

Lemma required_loop_spec fuel stack required :
  filter_inv stack required →
  (length stack + pending lookup required ≤ fuel)%nat →
  ∃ out, required_loop fuel lookup stack required = Some out ∧
    match out with
    | inr required' => filter_inv [] required'
    | inl _ => ∃ n, needed n ∧ n ∉ names_of els
    end.
Proof.
  revert stack required.
  induction fuel as [|fuel IH]; intros stack required Hinv Hfuel.
  - destruct stack; [|cbn in Hfuel; lia]. by exists (inr required).
  - destruct stack as [|c s]; [by exists (inr required)|].
    cbn [required_loop].
    destruct (decide (c ∈ required)) as [Hc|Hc].
    + apply IH; [|cbn in Hfuel; lia]. split.
      * intros n [Hn|Hn]; apply (fi_needed _ _ _ _ Hinv); [left; by right | by right].
      * intros n d Hn Hd.
        destruct (fi_closed _ _ _ _ Hinv n d Hn Hd) as [?|[->|?]%elem_of_cons];
          [by left | by left | by right].
      * intros f Hf.
        destruct (fi_filters _ _ _ _ Hinv f Hf) as [?|[->|?]%elem_of_cons];
          [by left | by left | by right].
    + destruct (fi_needed _ _ _ _ Hinv c) as [Hcn (f & Hf & Hfc)]; [left; by left|].
      apply list_elem_of_fmap in Hcn as (e & -> & He).
      rewrite (map_get_mk_elem els e Hnd He).
      unfold set_add. rewrite decide_False by done.
      pose proof (push_dependencies_spec (required ++ [name e]) (name e) (deps_of e) s)
        as Hpush.
      destruct (push_dependencies lookup (required ++ [name e]) (name e) (deps_of e) s)
        as [msg|stack'].
      * destruct Hpush as (d & Hd & Hdn). eexists. split; [done|].
        exists d. split; [|done]. exists f. split; [done|].
        eapply rtc_r; [done|]. by exists e.
      * destruct Hpush as (P1 & P2 & P3 & P4).
        apply IH.
        -- split.
           ++ intros n [Hn|Hn].
              ** destruct (P1 n Hn) as [Hs|[Hd Hnn]].
                 --- apply (fi_needed _ _ _ _ Hinv). left. by right.
                 --- split; [done|]. exists f. split; [done|].
                     eapply rtc_r; [done|]. by exists e.
              ** apply elem_of_app in Hn as [Hn|Hn%list_elem_of_singleton].
                 --- apply (fi_needed _ _ _ _ Hinv). by right.
                 --- subst n. split; [by apply list_elem_of_fmap_2 | by exists f].
           ++ intros n d [Hn|Hn%list_elem_of_singleton]%elem_of_app Hd; [|subst n].
              ** destruct (fi_closed _ _ _ _ Hinv n d Hn Hd) as [?|[->|?]%elem_of_cons].
                 --- left. apply elem_of_app. by left.
                 --- left. apply elem_of_app. right. by left.
                 --- right. by apply P2.
              ** destruct Hd as (e' & He' & Hn' & Hd).
                 assert (e' = e) as ->.
                 { pose proof (map_get_mk_elem els e' Hnd He') as H1.
                   pose proof (map_get_mk_elem els e Hnd He) as H2.
                   rewrite Hn' in H1. congruence. }
                 by apply P3.
           ++ intros f' Hf'.
              destruct (fi_filters _ _ _ _ Hinv f' Hf') as [?|[->|?]%elem_of_cons].
              ** left. apply elem_of_app. by left.
              ** left. apply elem_of_app. right. by left.
              ** right. by apply P2.
        -- assert ((pending lookup (required ++ [name e]) + length (deps_of e))%nat
                   = pending lookup required) as Hp.
           { apply pending_add; [|by apply (list_elem_of_fmap_2 (fun e => (name e, e)))|done].
             rewrite map_keys_mk. done. }
           cbn [length] in Hfuel. lia.
Qed.

Lemma filter_inv_closed required n :
  filter_inv [] required → needed n → n ∈ required.
Proof.
  intros Hinv (f & Hf & Hfn). revert n Hfn. apply rtc_ind_r.
  - destruct (fi_filters _ _ _ _ Hinv f Hf) as [?|Hn]; [done | by apply elem_of_nil in Hn].
  - intros y z _ Hyz IH.
    destruct (fi_closed _ _ _ _ Hinv y z IH Hyz) as [?|Hn]; [done | by apply elem_of_nil in Hn].
Qed.

End ElementFilter.

Lemma filter_elements_outcome els elementFilters :
  NoDup (names_of els) → elementFilters ≠ [] →
  ∃ out, filter_elements els elementFilters = Some out ∧
    match out with
    | inr selected =>
        ∃ required : list jsstring,
          selected = filter (fun e => name e ∈ required) els ∧
          (∀ n, n ∈ required ↔ needed els elementFilters n) ∧
          (∀ n, n ∈ required → n ∈ names_of els)
    | inl _ => ∃ n, needed els elementFilters n ∧ n ∉ names_of els
    end.
Proof.
  intros Hnd Hne. unfold filter_elements.
  destruct elementFilters as [|f0 fs] eqn:Hfilters; [done|]. rewrite <- Hfilters.
  rewrite (elementLookup_of_mk els Hnd).
  destruct (filter _ elementFilters) as [|m ms] eqn:Hmissing.
  - assert (∀ f, f ∈ elementFilters → f ∈ names_of els) as Hall.
    { intros f Hf. destruct (decide (f ∈ names_of els)) as [|Hnot]; [done|].
      assert (f ∈ filter (fun n => map_has n ((fun e => (name e, e)) <$> els) = false)
                         elementFilters) as Hin.
      { apply list_elem_of_filter. split; [|done].
        apply not_true_is_false. intros Hhas. apply Hnot.
        apply map_has_true in Hhas. by rewrite map_keys_mk in Hhas. }
      rewrite Hmissing in Hin. by apply elem_of_nil in Hin. }
    destruct (required_loop_spec els elementFilters Hnd
                (required_fuel ((fun e => (name e, e)) <$> els) elementFilters)
                (reverse elementFilters) [])
      as (out & -> & Hout).
    + split.
      * intros n [Hn|Hn]; [|by apply elem_of_nil in Hn].
        rewrite elem_of_reverse in Hn. split; [by apply Hall|]. exists n. split; [done | apply rtc_refl].
      * intros n d Hn. by apply elem_of_nil in Hn.
      * intros f Hf. right. by rewrite elem_of_reverse.
    + rewrite length_reverse, pending_nil. unfold required_fuel. cbn [length]. lia.
    + destruct out as [msg|required]; (eexists; split; [done|]); [done|].
      exists required. split_and!; [done| |].
      * intros n. split.
        -- intros Hn. destruct (fi_needed _ _ _ _ Hout n) as [? ?]; [by right | done].
        -- by eapply filter_inv_closed.
      * intros n Hn. destruct (fi_needed _ _ _ _ Hout n) as [? ?]; [by right | done].
  - eexists. split; [done|]. exists m.
    assert (m ∈ filter (fun n => map_has n ((fun e => (name e, e)) <$> els) = false)
                       elementFilters) as [Hhas Hin]%list_elem_of_filter
      by (rewrite Hmissing; by left).
    split; [exists m; split; [done | apply rtc_refl]|]. intros Hm.
    rewrite <- map_keys_mk in Hm. apply map_has_true in Hm. congruence.
Qed.

(** X7: The element filter of the [install] command.  With the names given,
    it keeps exactly the elements that a requested element needs: the
    requested ones and everything they depend on, directly or through
    other elements, in the order in which the elements were loaded.  It
    gives up exactly when a needed name is not the name of an element. *)
Theorem filter_elements_closure els elementFilters :
  NoDup (names_of els) → elementFilters ≠ [] →
  ∃ out, filter_elements els elementFilters = Some out ∧
    match out with
    | inr selected =>
        sublist selected els ∧
        (∀ e, e ∈ selected ↔ e ∈ els ∧ needed els elementFilters (name e)) ∧
        (∀ n, needed els elementFilters n → n ∈ names_of els)
    | inl _ => ∃ n, needed els elementFilters n ∧ n ∉ names_of els
    end.
Proof.
  intros Hnd Hne.
  destruct (filter_elements_outcome els elementFilters Hnd Hne) as (out & Hout & H).
  exists out. split; [done|]. destruct out as [msg|selected]; [done|].
  destruct H as (required & -> & Hreq & Hnames). split_and!.
  - apply sublist_filter.
  - intros e. rewrite list_elem_of_filter, Hreq. tauto.
  - intros n Hn. by apply Hnames, Hreq.
Qed.

(** X8: On an element list that the resolver accepts, filtering by names of
    loaded elements always succeeds, and the resolver accepts the
    filtered list as well: no dependency of a kept element is missing. *)
Theorem filter_elements_valid els elementFilters :
  is_Ok (new_DependencyResolver els) = true →
  (∀ f, f ∈ elementFilters → f ∈ names_of els) →
  ∃ selected, filter_elements els elementFilters = Some (inr selected) ∧
              is_Ok (new_DependencyResolver selected) = true.
Proof.
  intros Hok Hfilters.
  destruct (new_DependencyResolver els) as [r|] eqn:Hnew; [|done].
  destruct (new_DependencyResolver_wf els r Hnew) as (Hels & Hwf & _ & Hself).
  assert (NoDup (names_of els)) as Hnd by (rewrite <- Hels; apply Hwf).
  assert (∀ e d, e ∈ els → d ∈ deps_of e → d ∈ names_of els) as Hdeps.
  { intros e d He Hd. rewrite <- Hels in *. by apply (wf_deps r Hwf e). }
  destruct (decide (elementFilters = [])) as [->|Hne].
  { exists els. split; [done|]. by rewrite Hnew. }
  assert (∀ n, needed els elementFilters n → n ∈ names_of els) as Hneeded.
  { intros n (f & Hf & Hfn). revert n Hfn. apply rtc_ind_r; [by apply Hfilters|].
    intros y z _ (e & He & _ & Hd) _. by apply (Hdeps e). }
  destruct (filter_elements_outcome els elementFilters Hnd Hne) as (out & Hout & H).
  destruct out as [msg|selected].
  { destruct H as (n & Hn & Hnot). by apply Hneeded in Hn. }
  exists selected. split; [done|].
  destruct H as (required & -> & Hreq & _).
  apply new_DependencyResolver_Ok_intro.
  - unfold names_of. eapply sublist_NoDup; [exact Hnd|].
    apply fmap_sublist, sublist_filter.
  - intros e d [Hin He]%list_elem_of_filter Hd. split; [by apply Hself|].
    pose proof (Hdeps e d He Hd) as (e' & -> & He')%list_elem_of_fmap.
    apply list_elem_of_fmap_2. apply list_elem_of_filter. split; [|done].
    apply Hreq. apply Hreq in Hin as (f & Hf & Hfn).
    exists f. split; [done|]. eapply rtc_r; [done|]. by exists e.
Qed.

Lemma filter_elements_closure_witness :
  ∃ out, filter_elements abc [js "B"] = Some out ∧
    match out with
    | inr selected =>
        sublist selected abc ∧
        (∀ e, e ∈ selected ↔ e ∈ abc ∧ needed abc [js "B"] (name e)) ∧
        (∀ n, needed abc [js "B"] n → n ∈ names_of abc)
    | inl _ => ∃ n, needed abc [js "B"] n ∧ n ∉ names_of abc
    end.
Proof.
  apply (filter_elements_closure abc [js "B"]).
  - apply (bool_decide_unpack _). vm_compute. reflexivity.
  - discriminate.
Defined.

Lemma filter_elements_valid_witness :
  ∃ selected, filter_elements abc [js "B"] = Some (inr selected) ∧
              is_Ok (new_DependencyResolver selected) = true.
Proof.
  apply (filter_elements_valid abc [js "B"]).
  - vm_compute. reflexivity.
  - intros f Hf. apply list_elem_of_singleton in Hf. subst f.
    apply (bool_decide_unpack _). vm_compute. reflexivity.
Defined.

(** Asking for [B] alone runs [A] and [B], in the order in which they
    were loaded. *)
Example filter_elements_abc :
  filter_elements abc [js "B"] = Some (inr [el "A" []; el "B" ["A"]]).
Proof. vm_compute. reflexivity. Qed.

(** *** The context engine: expressions *)

Lemma span_spec p s a b :
  span p s = (a, b) → s = a ++ b ∧ Forall (fun c => p c = true) a.
Proof.
  revert a b. induction s as [|c s IH]; intros a b; cbn [span].
  - intros [= <- <-]. done.
  - destruct (p c) eqn:Hc.
    + destruct (span p s) as [a' b'] eqn:Hs. intros [= <- <-].
      destruct (IH a' b' eq_refl) as [-> Hall]. split; [done|]. by constructor.
    + intros [= <- <-]. done.
Qed.

Lemma strip_prefix_Some pre s rest :
  strip_prefix pre s = Some rest → s = pre ++ rest.
Proof.
  revert s. induction pre as [|c pre IH]; intros s; cbn [strip_prefix].
  - by intros [= ->].
  - destruct s as [|d s]; [done|]. destruct (decide (c = d)) as [->|]; [|done].
    intros H%IH. by rewrite H.
Qed.

Lemma match_template_at_Some s fullMatch variablePath :
  match_template_at s = Some (fullMatch, variablePath) →
  variablePath ≠ [] ∧ Forall (fun c => is_pathchar c = true) variablePath ∧
  ∃ rest, s = fullMatch ++ rest.
Proof.
  unfold match_template_at.
  destruct (strip_prefix (js "${{") s) as [s1|] eqn:H1; [|done].
  destruct (span is_space s1) as [ws1 s2] eqn:H2.
  destruct (span is_pathchar s2) as [p s3] eqn:H3.
  destruct p as [|c p]; [done|].
  destruct (span is_space s3) as [ws2 s4] eqn:H4.
  destruct (strip_prefix (js "}}") s4) as [rest|] eqn:H5; [|done].
  intros [= <- <-].
  apply strip_prefix_Some in H1, H5.
  apply span_spec in H2 as [-> _], H3 as [-> Hp], H4 as [-> _].
  split_and!; [done|done|]. exists rest. subst.
  change (js "${{") with [36%N; 123%N; 123%N].
  change (js "}}") with [125%N; 125%N].
  cbn [app]. do 3 f_equal. rewrite <- !app_assoc. do 2 f_equal.
  cbn [app]. by rewrite <- !app_assoc.
Qed.

Lemma template_matches_paths skip s fullMatch variablePath :
  (fullMatch, variablePath) ∈ template_matches skip s → variablePath ≠ [].
Proof.
  revert skip. induction s as [|c s IH]; intros skip; cbn [template_matches].
  - intros H. by apply elem_of_nil in H.
  - destruct skip as [|k]; [|apply IH].
    destruct (match_template_at (c :: s)) as [[fm vp]|] eqn:Hm; [|apply IH].
    intros [[= -> ->]|H]%elem_of_cons; [|by eapply IH].
    by apply match_template_at_Some in Hm as [? _].
Qed.

Lemma extractVariablePaths_matches template :
  extractVariablePaths template = snd <$> template_matches O template.
Proof.
  unfold extractVariablePaths.
  assert (∀ m, m ∈ template_matches O template → m.2 ≠ []) as H.
  { intros [fm vp] Hm. by eapply template_matches_paths. }
  induction (template_matches O template) as [|m ms IH]; [done|].
  cbn [fmap list_fmap]. rewrite filter_cons.
  pose proof (H m (list_elem_of_here _ _)) as Hm.
  destruct (decide (truthy_string m.2 = true)) as [|Hf].
  - f_equal. apply IH. intros m' Hm'. apply H. by right.
  - by destruct (m.2).
Qed.

Lemma hasTemplateExpressions_false s :
  hasTemplateExpressions s = false ↔ template_matches O s = [].
Proof.
  induction s as [|c s IH]; [done|].
  cbn [hasTemplateExpressions template_matches].
  destruct (match_template_at (c :: s)) as [[fm vp]|]; [done | apply IH].
Qed.

(** X13: [hasTemplateExpressions] holds exactly of the strings from which
    [extractVariablePaths] extracts a path. *)
Theorem hasTemplateExpressions_extractVariablePaths str :
  hasTemplateExpressions str = true ↔ extractVariablePaths str ≠ [].
Proof.
  rewrite extractVariablePaths_matches.
  pose proof (hasTemplateExpressions_false str) as H.
  destruct (hasTemplateExpressions str).
  - split; [|done]. intros _ Hnil. apply fmap_nil_inv in Hnil.
    apply H in Hnil. done.
  - split; [done|]. intros Hne. exfalso. apply Hne.
    destruct H as [H _]. by rewrite H.
Qed.

(** X14: A string without template expressions is returned as it is when
    no Variables key is found in the Facts object by the [in] test of the
    check before the merge: none is a Facts key, and none is the name of
    a member of [Object.prototype]. *)
Theorem processTemplate_no_expression template readonlyCtx runtimeCtx :
  hasTemplateExpressions template = false →
  (∀ k, k ∈ map_keys runtimeCtx →
        (k ∉ map_keys readonlyCtx) ∧ (k ∉ Object_prototype_keys)) →
  processTemplate template readonlyCtx runtimeCtx = Ok template.
Proof.
  intros Hno Hdisj. unfold processTemplate.
  destruct (isAssignmentExpression template); [done|].
  destruct (filter _ (map_keys runtimeCtx)) as [|k ks] eqn:Hf.
  - apply hasTemplateExpressions_false in Hno. by rewrite Hno.
  - exfalso.
    assert (k ∈ filter (fun key => has_in key readonlyCtx = true) (map_keys runtimeCtx))
      as [Hhas Hin]%list_elem_of_filter by (rewrite Hf; by left).
    apply Hdisj, has_in_false in Hin. congruence.
Qed.

Lemma expand_matches_Ok merged ms result out :
  expand_matches merged ms result = Ok out →
  ∀ fm p, (fm, p) ∈ ms →
    first_invalid_part (split_dot p) = None ∧
    ∃ s, String_of_primitive (resolvePath merged p) = Some s.
Proof.
  revert result. induction ms as [|[fm0 p0] ms IH]; intros result Hok fm p Hin.
  - by apply elem_of_nil in Hin.
  - cbn [expand_matches] in Hok.
    destruct (first_invalid_part (split_dot p0)) eqn:Hparts; [done|].
    destruct (String_of_primitive (resolvePath merged p0)) as [s|] eqn:Hs;
      [|by destruct (is_object _)].
    apply elem_of_cons in Hin as [[= -> ->]|Hin].
    + split; [done | by exists s].
    + by eapply IH.
Qed.

Lemma processTemplate_Ok_inv template readonlyCtx runtimeCtx out :
  isAssignmentExpression template = false →
  processTemplate template readonlyCtx runtimeCtx = Ok out →
  (∀ k, k ∈ map_keys runtimeCtx → k ∉ map_keys readonlyCtx) ∧
  expand_matches (merge_contexts readonlyCtx runtimeCtx)
    (template_matches O template) template = Ok out.
Proof.
  intros Hna. unfold processTemplate. rewrite Hna.
  destruct (filter _ (map_keys runtimeCtx)) as [|k ks] eqn:Hf; [|done].
  intros Hok. split; [|done]. intros k Hk Hro.
  assert (k ∈ filter (fun key => has_in key readonlyCtx = true) (map_keys runtimeCtx))
    as Hin.
  { apply list_elem_of_filter. split; [by apply has_in_own | done]. }
  rewrite Hf in Hin. by apply elem_of_nil in Hin.
Qed.

(** X15: What [processTemplate] has checked when it returns: every path
    that occurs in the template has camelCase segments; none leads,
    along own properties, to an object or an array; and a path that is
    resolved along own properties has a primitive value, so that none of
    these is left unresolved. *)
Theorem processTemplate_Ok_resolved template readonlyCtx runtimeCtx out :
  isAssignmentExpression template = false →
  processTemplate template readonlyCtx runtimeCtx = Ok out →
  ∀ p, p ∈ extractVariablePaths template →
    Forall (fun part => validateCamelCase part = true) (split_dot p) ∧
    is_object (resolvePath (merge_contexts readonlyCtx runtimeCtx) p) = false ∧
    (resolves_own (merge_contexts readonlyCtx runtimeCtx) p →
     ∃ s, String_of_primitive
            (resolvePath (merge_contexts readonlyCtx runtimeCtx) p) = Some s).
Proof.
  intros Hna Hok p Hp.
  apply processTemplate_Ok_inv in Hok as [_ Hok]; [|done].
  rewrite extractVariablePaths_matches in Hp.
  apply list_elem_of_fmap in Hp as ([fm p'] & -> & Hin).
  destruct (expand_matches_Ok _ _ _ _ Hok fm p' Hin) as [Hparts [s Hs]].
  split_and!; [by apply first_invalid_part_None | | by exists s].
  cbn [snd]. by destruct (resolvePath _ p').
Qed.

Lemma merge_contexts_get readonlyCtx runtimeCtx k :
  k ∉ map_keys runtimeCtx →
  map_get k (merge_contexts readonlyCtx runtimeCtx) = map_get k readonlyCtx.
Proof.
  unfold merge_contexts. revert readonlyCtx.
  induction runtimeCtx as [|[k' v'] rt IH]; intros ro Hk; [done|].
  cbn [foldl fst snd]. cbn in Hk. apply not_elem_of_cons in Hk as [Hne Hk].
  rewrite IH by done. by apply map_get_set_ne.
Qed.

(** X16: A Variable never shadows a Fact: whenever [processTemplate] expands
    a template, every Facts key resolves to the value of the Fact in the
    merged context. *)
Theorem processTemplate_facts_not_shadowed template readonlyCtx runtimeCtx out :
  isAssignmentExpression template = false →
  processTemplate template readonlyCtx runtimeCtx = Ok out →
  ∀ k v, map_get k readonlyCtx = Some v →
         resolvePath (merge_contexts readonlyCtx runtimeCtx) k = v.
Proof.
  intros Hna Hok k v Hk.
  apply processTemplate_Ok_inv in Hok as [Hdisj _]; [|done].
  unfold resolvePath. rewrite merge_contexts_get, Hk; [done|].
  intros Hin. apply (Hdisj k Hin). by eapply map_get_Some_key.
Qed.

(** X12: [parseAssignmentExpression] returns a path exactly for the strings
    [$>{{ path }}]: the marker, optional white space around a non-empty
    path of word characters and dots, and the closing braces, with
    nothing before or after; the path it returns is the one between the
    braces. *)
Theorem parseAssignmentExpression_spec expr path :
  parseAssignmentExpression expr = Some path ↔
  ∃ ws1 ws2,
    expr = js "$>{{" ++ ws1 ++ path ++ ws2 ++ js "}}" ∧
    Forall (fun c => is_space c = true) ws1 ∧
    path ≠ [] ∧ Forall (fun c => is_pathchar c = true) path ∧
    Forall (fun c => is_space c = true) ws2.
Proof.
  split.
  - unfold parseAssignmentExpression.
    destruct (strip_prefix (js "$>{{") expr) as [s1|] eqn:H1; [|done].
    destruct (span is_space s1) as [ws1 s2] eqn:H2.
    destruct (span is_pathchar s2) as [p s3] eqn:H3.
    destruct p as [|c p]; [done|].
    destruct (span is_space s3) as [ws2 s4] eqn:H4.
    destruct (bool_decide (s4 = js "}}")) eqn:H5; [|done].
    apply bool_decide_eq_true in H5. intros [= <-].
    apply strip_prefix_Some in H1.
    apply span_spec in H2 as [-> Hws1], H3 as [-> Hp], H4 as [-> Hws2].
    exists ws1, ws2. subst. done.
  - intros (ws1 & ws2 & -> & Hws1 & Hne & Hpath & Hws2).
    unfold parseAssignmentExpression.
    rewrite strip_prefix_app.
    rewrite (span_app_stop is_space ws1); [|done|].
    2:{ intros c l Heq. destruct path as [|p path]; [done|].
        injection Heq as <- _. apply is_pathchar_not_space.
        by apply Forall_cons in Hpath as [? _]. }
    rewrite (span_app_stop is_pathchar path); [|done|].
    2:{ intros c l Heq. destruct ws2 as [|w ws2].
        - injection Heq as <- _. done.
        - injection Heq as <- _. apply is_space_not_pathchar.
          by apply Forall_cons in Hws2 as [? _]. }
    destruct path as [|p path]; [done|].
    rewrite (span_app_stop is_space ws2); [|done|].
    2:{ intros c l Heq. injection Heq as <- _. done. }
    by rewrite bool_decide_eq_true_2.
Qed.

(** [isAssignmentExpression] accepts exactly the strings that
    [parseAssignmentExpression] parses. *)
Lemma isAssignmentExpression_parse expr :
  isAssignmentExpression expr = true ↔ is_Some (parseAssignmentExpression expr).
Proof.
  unfold isAssignmentExpression, parseAssignmentExpression.
  destruct (strip_prefix (js "$>{{") expr) as [s1|]; [|by split; [|intros []]].
  destruct (span is_space s1) as [ws1 s2].
  destruct (span is_pathchar s2) as [p s3].
  destruct p as [|c p]; [by split; [|intros []]|].
  destruct (span is_space s3) as [ws2 s4].
  destruct (bool_decide (s4 = js "}}")); split; done.
Qed.

Lemma dlv_keys_undefined keys : dlv_keys VUndefined keys = VUndefined.
Proof. induction keys as [|k keys IH]; [done|]. cbn. apply IH. Qed.

Lemma dlv_empty key : dlv [] key = VUndefined.
Proof.
  unfold dlv. destruct (split_on_cons 46%N key) as (k & ks & Hs).
  unfold split_dot. rewrite Hs. cbn. apply dlv_keys_undefined.
Qed.

Lemma reachable_assigned_valid c :
  reachable c →
  ∀ key, key ∈ assignedKeys (runtimeContext c) →
         first_invalid_part (split_dot key) = None ∧
         key ∉ readonlyKeys (runtimeContext c).
Proof.
  induction 1 as [facts|key val c c' Hc IH Hset|c Hc IH]; intros k Hk.
  - by apply elem_of_nil in Hk.
  - apply (PipelineContext_set_assigned _ _ _ _ Hset) in Hk.
    unfold PipelineContext_set, RuntimeContext_set in Hset.
    destruct (first_invalid_part _) eqn:Hparts; [done|].
    destruct (decide (key ∈ readonlyKeys _)) as [|Hnro]; [done|].
    destruct (decide (key ∈ assignedKeys _)); [done|].
    injection Hset as <-. cbn [runtimeContext readonlyKeys].
    destruct Hk as [->|Hk]; [done | by apply IH].
  - by apply elem_of_nil in Hk.
Qed.

(** X17: [clear] forgets the Variables and keeps the Facts: afterwards the
    record of Variables and the set of written paths are empty, every
    path that had been written can be written again, and a Facts path is
    still refused. *)
Theorem PipelineContext_clear_spec c :
  reachable c →
  readonlyContext (PipelineContext_clear c) = readonlyContext c ∧
  rt_data (runtimeContext (PipelineContext_clear c)) = [] ∧
  assignedKeys (runtimeContext (PipelineContext_clear c)) = [] ∧
  (∀ key val, key ∈ assignedKeys (runtimeContext c) →
     is_Ok (PipelineContext_set key val (PipelineContext_clear c)) = true) ∧
  (∀ key val, key ∈ map_keys (readonlyContext c) →
     throws ContextError (PipelineContext_set key val (PipelineContext_clear c))).
Proof.
  intros Hreach. split_and!; [done..| |].
  - intros key val Hkey.
    destruct (reachable_assigned_valid c Hreach key Hkey) as [Hparts Hro].
    unfold PipelineContext_set, PipelineContext_clear, RuntimeContext_clear.
    cbn [runtimeContext readonlyContext].
    by rewrite RuntimeContext_set_Ok; [|done|done|apply not_elem_of_nil].
  - intros key val Hkey. apply (reachable_readonlyKeys c Hreach) in Hkey.
    unfold PipelineContext_set, PipelineContext_clear, RuntimeContext_clear.
    cbn [runtimeContext readonlyContext].
    assert (throws ContextError
              (RuntimeContext_set key val (mkRuntime [] [] (readonlyKeys (runtimeContext c)))))
      as Hthrow.
    { apply RuntimeContext_set_Throw. intros (_ & Hnot & _). by apply Hnot. }
    by destruct (RuntimeContext_set key val _).
Qed.

Lemma processTemplate_throws template readonlyCtx runtimeCtx e :
  processTemplate template readonlyCtx runtimeCtx = Throw e →
  err_name e = TemplateError.
Proof.
  unfold processTemplate. destruct (isAssignmentExpression template); [done|].
  destruct (filter _ (map_keys runtimeCtx)); [|by intros [= <-]].
  generalize template at 2 as result.
  induction (template_matches O template) as [|[fm p] ms IH]; intros result;
    cbn [expand_matches]; [done|].
  destruct (first_invalid_part (split_dot p)); [by intros [= <-]|].
  destruct (String_of_primitive _); [apply IH|].
  destruct (is_object _); by intros [= <-].
Qed.

(** X18: Expanding the parameters of a pipeline step fails with a
    [TemplateError] only, at whatever depth the failing string is. *)
Theorem processObjectTemplate_throws obj readonlyCtx runtimeCtx e :
  processObjectTemplate obj readonlyCtx runtimeCtx = Throw e →
  err_name e = TemplateError.
Proof.
  revert obj e. fix IH 1. intros obj e. destruct obj as [| | | |s|items|props];
    cbn [processObjectTemplate]; try done.
  - destruct (processTemplate s readonlyCtx runtimeCtx) as [s'|e'] eqn:Hs; [done|].
    intros [= <-]. by eapply processTemplate_throws.
  - match goal with |- match ?g items with _ => _ end = _ → _ => set (go := g) end.
    assert (∀ l e', go l = Throw e' → err_name e' = TemplateError) as Hgo.
    { induction l as [|item l IHl]; intros e'; [done|]. cbn.
      destruct (processObjectTemplate item readonlyCtx runtimeCtx) as [item'|e1] eqn:Hi.
      - destruct (go l) as [r|e2] eqn:Hl; [done|]. intros [= <-]. by apply IHl.
      - intros [= <-]. by apply (IH item). }
    destruct (go items) as [r|e'] eqn:Hr; [done|]. intros [= <-]. by apply (Hgo items).
  - match goal with |- match ?g props [] with _ => _ end = _ → _ => set (go := g) end.
    assert (∀ l result e', go l result = Throw e' → err_name e' = TemplateError) as Hgo.
    { induction l as [|[key val] l IHl]; intros result e'; [done|]. cbn.
      destruct (truthy_string key); [|apply IHl].
      destruct (processObjectTemplate val readonlyCtx runtimeCtx) as [val'|e1] eqn:Hv.
      - apply IHl.
      - intros [= <-]. by apply (IH val). }
    destruct (go props []) as [r|e'] eqn:Hr; [done|]. intros [= <-]. by apply (Hgo props []).
Qed.

Lemma reachable_assigned_disjoint_witness :
  ∃ c, PipelineContext_set (js "a.b") (VNum 1)
         (new_PipelineContext [(js "name", VStr (js "bat"))]) = Ok c ∧
       ∀ key, key ∈ assignedKeys (runtimeContext c) →
              key ∉ map_keys (readonlyContext c).
Proof.
  eexists. split; [vm_compute; reflexivity|].
  apply reachable_assigned_disjoint.
  apply (reachable_set (js "a.b") (VNum 1)
           (new_PipelineContext [(js "name", VStr (js "bat"))]));
    [apply reachable_new | vm_compute; reflexivity].
Defined.

Lemma processTemplate_collision_witness :
  throws TemplateError
    (processTemplate (js "hello") [(js "name", VStr (js "bat"))]
       [(js "name", VObj [(js "x", VNum 1)])]).
Proof.
  apply (processTemplate_collision _ _ _ (js "name")).
  - vm_compute. reflexivity.
  - apply (bool_decide_unpack _). vm_compute. reflexivity.
  - apply (bool_decide_unpack _). vm_compute. reflexivity.
Defined.

Lemma processTemplate_single_expression_witness :
  let facts := [(js "name", VStr (js "bat")); (js "size", VNum 42)] in
  let variables := [(js "ctx", VObj [(js "x", VNum 7)])] in
  let template := js "${{" ++ [32%N] ++ js "size" ++ [32%N] ++ js "}}" in
  let value := resolvePath (merge_contexts facts variables) (js "size") in
  match String_of_primitive value with
  | Some stringValue =>
      processTemplate template facts variables
      = Ok (expand_replacement stringValue template [] []) ∧
      (36%N ∉ stringValue →
       processTemplate template facts variables = Ok stringValue)
  | None => throws TemplateError (processTemplate template facts variables)
  end.
Proof.
  apply (processTemplate_single_expression [32%N] (js "size") [32%N]
           [(js "name", VStr (js "bat")); (js "size", VNum 42)]
           [(js "ctx", VObj [(js "x", VNum 7)])]).
  - repeat constructor.
  - discriminate.
  - vm_compute. repeat constructor.
  - repeat constructor.
  - vm_compute. repeat constructor.
  - intros k Hk. change (k ∈ [js "ctx"]) in Hk.
    apply list_elem_of_singleton in Hk as ->. vm_compute. reflexivity.
  - left. vm_compute. discriminate.
  - intros n Hn. vm_compute in Hn. injection Hn as <-. reflexivity.
Defined.

Lemma processTemplate_no_expression_witness :
  processTemplate (js "cargo install ${ x }") [(js "name", VStr (js "bat"))]
    [(js "ctx", VObj [(js "x", VNum 7)])]
  = Ok (js "cargo install ${ x }").
Proof.
  apply processTemplate_no_expression.
  - vm_compute. reflexivity.
  - intros k [->|Hk]%elem_of_cons; [|by apply elem_of_nil in Hk].
    split; apply (bool_decide_unpack _); vm_compute; reflexivity.
Defined.

Lemma processTemplate_Ok_resolved_witness :
  let merged := merge_contexts [(js "name", VStr (js "bat"))]
                  [(js "ctx", VObj [(js "x", VNum 7)])] in
  Forall (fun part => validateCamelCase part = true) (split_dot (js "ctx.x")) ∧
  is_object (resolvePath merged (js "ctx.x")) = false ∧
  (resolves_own merged (js "ctx.x") →
   ∃ s, String_of_primitive (resolvePath merged (js "ctx.x")) = Some s).
Proof.
  apply (processTemplate_Ok_resolved (js "${{ name }}-${{ ctx.x }}") _ _ (js "bat-7")).
  - vm_compute. reflexivity.
  - vm_compute. reflexivity.
  - apply (bool_decide_unpack _). vm_compute. reflexivity.
Defined.

Lemma processTemplate_facts_not_shadowed_witness :
  resolvePath (merge_contexts [(js "name", VStr (js "bat"))]
                 [(js "ctx", VObj [(js "x", VNum 7)])]) (js "name")
  = VStr (js "bat").
Proof.
  apply (processTemplate_facts_not_shadowed (js "${{ name }}-${{ ctx.x }}") _ _
           (js "bat-7")).
  - vm_compute. reflexivity.
  - vm_compute. reflexivity.
  - vm_compute. reflexivity.
Defined.

Lemma PipelineContext_clear_spec_witness :
  ∃ c, PipelineContext_set (js "a.b") (VNum 1)
         (new_PipelineContext [(js "name", VStr (js "bat"))]) = Ok c ∧
    readonlyContext (PipelineContext_clear c) = readonlyContext c ∧
    rt_data (runtimeContext (PipelineContext_clear c)) = [] ∧
    assignedKeys (runtimeContext (PipelineContext_clear c)) = [] ∧
    (∀ key val, key ∈ assignedKeys (runtimeContext c) →
       is_Ok (PipelineContext_set key val (PipelineContext_clear c)) = true) ∧
    (∀ key val, key ∈ map_keys (readonlyContext c) →
       throws ContextError (PipelineContext_set key val (PipelineContext_clear c))).
Proof.
  eexists. split; [vm_compute; reflexivity|].
  apply PipelineContext_clear_spec.
  apply (reachable_set (js "a.b") (VNum 1)
           (new_PipelineContext [(js "name", VStr (js "bat"))]));
    [apply reachable_new | vm_compute; reflexivity].
Defined.

Lemma processObjectTemplate_throws_witness :
  ∃ e, processObjectTemplate
         (VObj [(js "paths", VArr [VStr (js "${{ ctx.missing }}")])]) [] []
       = Throw e ∧
       err_name e = TemplateError.
Proof.
  eexists. split; [vm_compute; reflexivity|].
  eapply (processObjectTemplate_throws
            (VObj [(js "paths", VArr [VStr (js "${{ ctx.missing }}")])]) [] []).
  vm_compute. reflexivity.
Defined.

(** The parameters of a step are expanded at every depth; the marker of
    [output-assign] stays as it is, and an entry with the empty key is
    left out. *)
Example processObjectTemplate_with :
  processObjectTemplate
    (VObj [(js "command", VStr (js "echo ${{ name }}"));
           (js "outputAssign", VStr (js "$>{{ ctx.out }}"));
           ([], VNum 1);
           (js "paths", VArr [VStr (js "${{ name }}/x"); VBool true])])
    [(js "name", VStr (js "bat"))] []
  = Ok (VObj [(js "command", VStr (js "echo bat"));
              (js "outputAssign", VStr (js "$>{{ ctx.out }}"));
              (js "paths", VArr [VStr (js "bat/x"); VBool true])]).
Proof. vm_compute. reflexivity. Qed.

(** *** Terminal text utilities *)

Lemma match_vt_at_plain c s :
  c ≠ 27%N → ¬ (128 ≤ c ∧ c ≤ 159)%N → match_vt_at (c :: s) = None.
Proof.
  intros H27 Hc1. unfold match_vt_at.
  destruct (N.eqb_spec c 27) as [|_]; [done|].
  destruct (N.eqb_spec c 155) as [|_]; [lia|].
  destruct (N.eqb_spec c 157) as [|_]; [lia|].
  destruct (N.eqb_spec c 144) as [|_]; [lia|].
  destruct (N.eqb_spec c 158) as [|_]; [lia|].
  destruct (N.eqb_spec c 159) as [|_]; [lia|]. cbn [orb].
  destruct (N.leb_spec 128 c); [|done].
  destruct (N.leb_spec c 159); [lia|done].
Qed.

Lemma match_vt_at_None c s :
  match_vt_at (c :: s) = None → ¬ (128 ≤ c ∧ c ≤ 159)%N.
Proof.
  unfold match_vt_at.
  destruct (N.eqb_spec c 27) as [->|_]; [intros _; lia|].
  destruct (c =? 155)%N; [done|]. destruct (c =? 157)%N; [done|].
  destruct ((c =? 144) || (c =? 158) || (c =? 159))%N; [done|].
  destruct (N.leb_spec 128 c); [|intros _; lia].
  destruct (N.leb_spec c 159); [done | intros _; lia].
Qed.

Lemma stripVT_from_skip (a b : jsstring) :
  stripVT_from (length a) (a ++ b) = stripVT_from O b.
Proof. induction a as [|c a IH]; [done|]. cbn. apply IH. Qed.

Lemma stripVT_plain_app (a b : jsstring) :
  is_vt_free a → stripVT (a ++ b) = a ++ stripVT b.
Proof.
  unfold stripVT. induction 1 as [|c a [H27 Hc1] _ IH]; [done|].
  cbn [app stripVT_from]. rewrite match_vt_at_plain by done. by rewrite IH.
Qed.

(** X19: Text without an escape character and without C1 control characters
    passes through [stripVT] unchanged. *)
Theorem stripVT_plain (s : jsstring) : is_vt_free s → stripVT s = s.
Proof.
  intros H. rewrite <- (app_nil_r s) at 1.
  rewrite stripVT_plain_app by done. by rewrite app_nil_r.
Qed.

Lemma stripVT_from_sublist skip s :
  sublist (stripVT_from skip s) s ∧
  ∀ c, c ∈ stripVT_from skip s → ¬ (128 ≤ c ∧ c ≤ 159)%N.
Proof.
  revert skip. induction s as [|c s IH]; intros skip; cbn [stripVT_from].
  - split; [done|]. intros c Hc. by apply elem_of_nil in Hc.
  - destruct skip as [|k].
    + destruct (match_vt_at (c :: s)) as [n|] eqn:Hm.
      * destruct (IH (n - 1)%nat) as [I1 I2]. split; [by apply sublist_cons | done].
      * destruct (IH O) as [I1 I2]. split; [by apply sublist_skip|].
        intros x [->|Hx]%elem_of_cons; [by eapply match_vt_at_None | by apply I2].
    + destruct (IH k) as [I1 I2]. split; [by apply sublist_cons | done].
Qed.

(** X20: [stripVT] only deletes: what it returns is the input with some code
    units left out, and no C1 control character is among those kept. *)
Theorem stripVT_deletes (s : jsstring) :
  sublist (stripVT s) s ∧
  (length (stripVT s) ≤ length s)%nat ∧
  ∀ c, c ∈ stripVT s → ¬ (128 ≤ c ∧ c ≤ 159)%N.
Proof.
  destruct (stripVT_from_sublist O s) as [H1 H2].
  split_and!; [done | by apply sublist_length | done].
Qed.

Lemma csi_body_shape (params inters : jsstring) (final : N) (rest : jsstring) :
  Forall (fun c => is_csi_param c = true) params →
  Forall (fun c => is_csi_inter c = true) inters →
  is_csi_final final = true →
  csi_body (params ++ inters ++ final :: rest)
  = Some (length params + length inters + 1)%nat.
Proof.
  intros Hp Hi Hf. unfold csi_body.
  assert (is_csi_param final = false ∧ is_csi_inter final = false) as [Hfp Hfi].
  { unfold is_csi_final, is_csi_param, is_csi_inter in *.
    apply andb_true_iff in Hf as [H1%N.leb_le H2%N.leb_le].
    split; apply andb_false_iff.
    - right. apply N.leb_gt. lia.
    - right. apply N.leb_gt. lia. }
  rewrite (span_app_stop is_csi_param params); [|done|].
  2:{ intros c l Heq. destruct inters as [|i inters].
      - injection Heq as <- _. done.
      - injection Heq as <- _. apply Forall_cons in Hi as [Hi _].
        unfold is_csi_param, is_csi_inter in *.
        apply andb_true_iff in Hi as [H1%N.leb_le H2%N.leb_le].
        apply andb_false_iff. left. apply N.leb_gt. lia. }
  rewrite (span_app_stop is_csi_inter inters); [|done|].
  2:{ intros c l Heq. injection Heq as <- _. done. }
  by rewrite Hf.
Qed.

(** X21: A complete CSI sequence (the escape character, an opening bracket,
    parameter bytes, intermediate bytes and a final byte, as in the
    colour code [ESC [ 3 1 m]) is removed, and the plain text before it
    is kept. *)
Theorem stripVT_csi (text params inters : jsstring) (final : N) (rest : jsstring) :
  is_vt_free text →
  Forall (fun c => is_csi_param c = true) params →
  Forall (fun c => is_csi_inter c = true) inters →
  is_csi_final final = true →
  stripVT (text ++ [27%N; 91%N] ++ params ++ inters ++ [final] ++ rest)
  = text ++ stripVT rest.
Proof.
  intros Ht Hp Hi Hf. rewrite stripVT_plain_app by done. f_equal.
  unfold stripVT. cbn [app stripVT_from match_vt_at N.eqb Pos.eqb].
  rewrite csi_body_shape by done. cbn [fmap option_fmap option_map Nat.sub].
  replace (params ++ inters ++ final :: rest)
    with ((params ++ inters ++ [final]) ++ rest)
    by (by rewrite <- !app_assoc).
  replace (length params + length inters + 1)%nat
    with (length (params ++ inters ++ [final]))
    by (rewrite !length_app; cbn [length]; lia).
  apply stripVT_from_skip.
Qed.

Lemma join_split_on sep (s : jsstring) : join [sep] (split_on sep s) = s.
Proof.
  induction s as [|c s IH]; [done|]. cbn [split_on].
  destruct (decide (c = sep)) as [->|Hne].
  - destruct (split_on_cons sep s) as (p & ps & Hs). rewrite Hs in *.
    cbn [join]. cbn [join] in IH. by rewrite IH.
  - destruct (split_on_cons sep s) as (p & ps & Hs). rewrite Hs in *.
    destruct ps as [|p2 ps]; cbn [join] in *; by rewrite <- IH.
Qed.

Lemma split_on_elem sep (s l : jsstring) :
  l ∈ split_on sep s → (sep ∉ l) ∧ ∀ x, x ∈ l → x ∈ s.
Proof.
  revert l. induction s as [|c s IH]; intros l; cbn [split_on].
  - intros ->%list_elem_of_singleton. split; [apply not_elem_of_nil|done].
  - destruct (decide (c = sep)) as [->|Hne].
    + intros [->|Hl]%elem_of_cons.
      * split; [apply not_elem_of_nil|]. intros x Hx. by apply elem_of_nil in Hx.
      * destruct (IH l Hl) as [? Hsub]. split; [done|]. intros x Hx. right. by apply Hsub.
    + destruct (split_on_cons sep s) as (p & ps & Hs). rewrite Hs in *.
      intros [->|Hl]%elem_of_cons.
      * destruct (IH p (list_elem_of_here _ _)) as [Hp Hsub]. split.
        -- by intros [?|?]%elem_of_cons.
        -- intros x [->|Hx]%elem_of_cons; [by left | right; by apply Hsub].
      * destruct (IH l (list_elem_of_further _ _ _ Hl)) as [? Hsub].
        split; [done|]. intros x Hx. right. by apply Hsub.
Qed.

Lemma elem_of_overwrite_fold (parts : list jsstring) (buf : jsstring) x :
  x ∈ foldl overwrite buf parts → x ∈ buf ∨ ∃ p, p ∈ parts ∧ x ∈ p.
Proof.
  revert buf. induction parts as [|p parts IH]; intros buf; cbn [foldl]; [by left|].
  intros [Hx|(q & Hq & Hx)]%IH.
  - unfold overwrite in Hx. apply elem_of_app in Hx as [Hx|Hx].
    + right. exists p. split; [by left | done].
    + left. eapply elem_of_sublist; [exact Hx | apply sublist_drop].
  - right. exists q. split; [by right | done].
Qed.

Lemma normalizeLine_elem line x :
  x ∈ normalizeLine line → x ∈ line ∧ x ≠ 13%N.
Proof.
  unfold normalizeLine. destruct (decide (13%N ∈ line)) as [Hin|Hnin].
  - intros [Hx|(p & Hp & Hx)]%elem_of_overwrite_fold; [by apply elem_of_nil in Hx|].
    apply split_on_elem in Hp as [Hsep Hsub]. split; [by apply Hsub|].
    intros ->. done.
  - intros Hx. split; [done|]. intros ->. done.
Qed.

Lemma normalizeLine_plain line : 13%N ∉ line → normalizeLine line = line.
Proof. intros H. unfold normalizeLine. by rewrite decide_False. Qed.

Lemma codePoints_elem (s cp : jsstring) :
  cp ∈ codePoints s → 8%N ∈ cp → cp = [8%N].
Proof.
  assert (∀ n s, (length s ≤ n)%nat → cp ∈ codePoints s → 8%N ∈ cp → cp = [8%N]) as H;
    [|apply (H (length s) s); lia].
  clear s. induction n as [|n IH]; intros s Hlen.
  - destruct s; [|cbn in Hlen; lia]. intros Hcp. by apply elem_of_nil in Hcp.
  - destruct s as [|c [|d s]]; cbn [codePoints].
    + intros Hcp. by apply elem_of_nil in Hcp.
    + intros ->%list_elem_of_singleton ->%list_elem_of_singleton. done.
    + cbn [length] in Hlen.
      destruct (is_high_surrogate c && is_low_surrogate d) eqn:Hsur.
      * intros [->|Hcp]%elem_of_cons; [|apply (IH s); [lia | done]].
        apply andb_true_iff in Hsur as [Hh Hl].
        unfold is_high_surrogate, is_low_surrogate in *.
        apply andb_true_iff in Hh as [Hh%N.leb_le _], Hl as [Hl%N.leb_le _].
        intros [H|[H|H]%elem_of_cons]%elem_of_cons;
          [lia | lia | by apply elem_of_nil in H].
      * intros [->|Hcp]%elem_of_cons; [|apply (IH (d :: s)); [cbn; lia | done]].
        by intros ->%list_elem_of_singleton.
Qed.

Lemma elem_of_concat_inv (x : N) (ls : list jsstring) :
  x ∈ concat ls → ∃ l, l ∈ ls ∧ x ∈ l.
Proof.
  induction ls as [|l ls IH]; cbn [concat]; [intros H; by apply elem_of_nil in H|].
  intros [Hx|Hx]%elem_of_app.
  - exists l. split; [by left | done].
  - destruct (IH Hx) as (l' & ? & ?). exists l'. split; [by right | done].
Qed.

Lemma backspace_fold_Forall (P : jsstring → Prop) (cps out : list jsstring) :
  Forall P out → (∀ ch, ch ∈ cps → ch ≠ [8%N] → P ch) →
  Forall P (foldl backspace_step out cps).
Proof.
  revert out. induction cps as [|ch cps IH]; intros out Hout Hcps; cbn [foldl]; [done|].
  apply IH; [|intros ch' Hch'; apply Hcps; by right].
  unfold backspace_step. destruct (decide (ch = [8%N])) as [->|Hne].
  - rewrite removelast_firstn_len. by apply Forall_take.
  - apply Forall_app. split; [done|]. apply Forall_singleton.
    apply Hcps; [by left | done].
Qed.

Lemma normalizeOverstrikes_elem (s : jsstring) x :
  x ∈ normalizeOverstrikes s → x ≠ 8%N ∧ x ≠ 13%N.
Proof.
  unfold normalizeOverstrikes. destruct s as [|c0 s0]; [intros H; by apply elem_of_nil in H|].
  cbn zeta. set (out := foldl backspace_step [] (codePoints (c0 :: s0))).
  assert (Forall (fun cp => 8%N ∉ cp) out) as Hout.
  { apply backspace_fold_Forall; [done|].
    intros ch Hch Hne H8. by apply Hne, (codePoints_elem (c0 :: s0)). }
  intros [->|(l & Hl & Hx)]%elem_of_join; [done|].
  apply list_elem_of_fmap in Hl as (line & -> & Hline).
  apply normalizeLine_elem in Hx as [Hx H13]. split; [|done].
  apply split_on_elem in Hline as [_ Hsub]. apply Hsub in Hx.
  intros ->. apply elem_of_concat_inv in Hx as (cp & Hcp & H8).
  rewrite Forall_forall in Hout. by apply (Hout cp).
Qed.

Lemma normalizeOverstrikes_id (s : jsstring) :
  8%N ∉ s → 13%N ∉ s → normalizeOverstrikes s = s.
Proof.
  intros H8 H13. unfold normalizeOverstrikes. destruct s as [|c0 s0]; [done|].
  cbn zeta. rewrite backspace_fold_id by (by intros Hin%codePoints_backspace).
  cbn [app]. rewrite concat_codePoints.
  rewrite <- (join_split_on 10%N (c0 :: s0)) at 2. f_equal.
  apply list_eq. intros i. rewrite list_lookup_fmap.
  destruct (split_on 10%N (c0 :: s0) !! i) as [line|] eqn:Hi; [|done].
  cbn. f_equal. apply normalizeLine_plain.
  apply list_elem_of_lookup_2, split_on_elem in Hi as [_ Hsub].
  intros Hin. by apply H13, Hsub.
Qed.

(** X23: What [normalizeOverstrikes] returns holds no backspace and no
    carriage return, so normalising it again changes nothing. *)
Theorem normalizeOverstrikes_idempotent (s : jsstring) :
  (8%N ∉ normalizeOverstrikes s) ∧ (13%N ∉ normalizeOverstrikes s) ∧
  normalizeOverstrikes (normalizeOverstrikes s) = normalizeOverstrikes s.
Proof.
  assert ((8%N ∉ normalizeOverstrikes s) ∧ (13%N ∉ normalizeOverstrikes s)) as [H8 H13].
  { split; intros H; by destruct (normalizeOverstrikes_elem s _ H). }
  split_and!; [done|done|]. by apply normalizeOverstrikes_id.
Qed.

(** X22: Text without backspaces, carriage returns, escape characters and C1
    control characters passes through [normalizeOverstrikes] and
    [cleanTTY] unchanged. *)
Theorem cleanTTY_plain (s : jsstring) :
  8%N ∉ s → 13%N ∉ s → is_vt_free s →
  normalizeOverstrikes s = s ∧ cleanTTY s = s.
Proof.
  intros H8 H13 Hvt. unfold cleanTTY.
  rewrite normalizeOverstrikes_id by done. split; [done|].
  rewrite <- (app_nil_r s) at 1. rewrite stripVT_plain_app by done.
  by rewrite app_nil_r.
Qed.

(** X24: What [cleanTTY] returns holds no backspace, no carriage return and
    no C1 control character. *)
Theorem cleanTTY_output (s : jsstring) (c : N) :
  c ∈ cleanTTY s → c ≠ 8%N ∧ c ≠ 13%N ∧ ¬ (128 ≤ c ∧ c ≤ 159)%N.
Proof.
  unfold cleanTTY, stripVT. intros Hc.
  destruct (stripVT_from_sublist O (normalizeOverstrikes s)) as [Hsub Hc1].
  pose proof (elem_of_sublist _ _ _ Hc Hsub) as Hin.
  apply normalizeOverstrikes_elem in Hin as [? ?].
  split_and!; [done|done|by apply Hc1].
Qed.

Lemma stripVT_plain_witness : stripVT (js "hello") = js "hello".
Proof.
  apply stripVT_plain. unfold is_vt_free.
  apply (bool_decide_unpack _). vm_compute. reflexivity.
Defined.

Lemma stripVT_csi_witness :
  stripVT (js "a" ++ [27%N; 91%N] ++ js "31" ++ [] ++ [109%N] ++ js "b")
  = js "a" ++ stripVT (js "b").
Proof.
  apply (stripVT_csi (js "a") (js "31") [] 109%N (js "b")).
  - unfold is_vt_free. apply (bool_decide_unpack _). vm_compute. reflexivity.
  - repeat constructor.
  - constructor.
  - reflexivity.
Defined.

Lemma cleanTTY_plain_witness :
  normalizeOverstrikes (js "hello") = js "hello" ∧ cleanTTY (js "hello") = js "hello".
Proof.
  apply cleanTTY_plain.
  - apply (bool_decide_unpack _). vm_compute. reflexivity.
  - apply (bool_decide_unpack _). vm_compute. reflexivity.
  - unfold is_vt_free. apply (bool_decide_unpack _). vm_compute. reflexivity.
Defined.

Lemma cleanTTY_output_witness :
  98%N ≠ 8%N ∧ 98%N ≠ 13%N ∧ ¬ (128 ≤ 98 ∧ 98 ≤ 159)%N.
Proof.
  apply (cleanTTY_output (js "a" ++ [13%N] ++ js "b")).
  apply (bool_decide_unpack _). vm_compute. reflexivity.
Defined.

(** A coloured word whose first letter was struck over. *)
Example cleanTTY_coloured :
  cleanTTY ([27%N; 91%N] ++ js "31m" ++ js "x" ++ [8%N] ++ js "red"
              ++ [27%N; 91%N] ++ js "0m")
  = js "red".
Proof. vm_compute. reflexivity. Qed.

(** *** Pseudo-terminal automation: the text matched *)

Lemma strip_prefix_app_r pat s t after :
  strip_prefix pat s = Some after → strip_prefix pat (s ++ t) = Some (after ++ t).
Proof.
  revert s. induction pat as [|c pat IH]; intros s; cbn [strip_prefix].
  - by intros [= ->].
  - destruct s as [|d s]; [done|]. cbn [app].
    destruct (decide (c = d)); [apply IH | done].
Qed.

Lemma includes_app pat s t :
  includes s pat = true → includes (s ++ t) pat = true.
Proof.
  unfold includes.
  assert (∀ s, is_Some (find_sub pat s) → is_Some (find_sub pat (s ++ t))) as H.
  { clear s. induction s as [|c s IH].
    - cbn [find_sub app]. destruct (strip_prefix pat []) as [after|] eqn:Hp; [|by intros []].
      intros _. apply (strip_prefix_app_r _ _ t) in Hp. cbn [app] in Hp.
      destruct t as [|d t]; cbn [find_sub]; rewrite Hp; done.
    - cbn [find_sub app].
      destruct (strip_prefix pat (c :: s)) as [after|] eqn:Hp.
      + intros _. apply (strip_prefix_app_r _ _ t) in Hp. cbn [app] in Hp.
        by rewrite Hp.
      + destruct (strip_prefix pat (c :: s ++ t)); [done|].
        destruct (find_sub pat s) as [[b a]|] eqn:Hs; [|by intros []].
        intros _. destruct (IH (ltac:(done))) as [[b' a'] ->]. done. }
  destruct (find_sub pat s) eqn:Hs; [|done]. intros _.
  destruct (H s) as [x ->]; [by rewrite Hs | done].
Qed.

(** X25: The text against which the prompts are matched is the whole output
    so far, each chunk stripped of its terminal sequences on its own; it
    is never cleared.  So a prompt whose match text has already been
    printed when its turn comes is answered at the next chunk, whatever
    that chunk holds. *)
Theorem pty_matches_history prompts quiet chunks data next :
  let st := pty_run prompts quiet chunks in
  prompts !! nextPromptIndex st = Some next →
  includes (visibleBuffer st) (prompt_match next) = true →
  visibleBuffer st = concat (stripVT <$> chunks) ∧
  written (onData prompts quiet st data) = written st ++ [toSend next] ∧
  nextPromptIndex (onData prompts quiet st data) = S (nextPromptIndex st).
Proof.
  cbn zeta. intros Hnext Hinc. split; [apply pty_run_visibleBuffer|].
  unfold onData. rewrite Hnext.
  by rewrite (includes_app _ _ (stripVT data) Hinc).
Qed.

Lemma pty_matches_history_witness :
  let prompts := [mkPrompt (js "a") (js "1"); mkPrompt (js "b") (js "2")] in
  let st := pty_run prompts true [js "ab"] in
  visibleBuffer st = concat (stripVT <$> [js "ab"]) ∧
  written (onData prompts true st (js "zzz"))
  = written st ++ [toSend (mkPrompt (js "b") (js "2"))] ∧
  nextPromptIndex (onData prompts true st (js "zzz")) = S (nextPromptIndex st).
Proof.
  apply (pty_matches_history
           [mkPrompt (js "a") (js "1"); mkPrompt (js "b") (js "2")] true
           [js "ab"] (js "zzz") (mkPrompt (js "b") (js "2"))).
  - vm_compute. reflexivity.
  - vm_compute. reflexivity.
Defined.

(** *** The promise pool with tasks that may reject *)

Section PoolAnyFacts.
Context {T : Type}.
Variable tasks : list (Settled T).







End PoolAnyFacts.

Section PoolStarted.
Context {T : Type}.
Variable tasks : list (Settled T).



End PoolStarted.





(** *** execute-bash-command and the context *)

Lemma exec_frame_ret {A} (a : A) E : exec_frame (exec_ret a) E.
Proof. intros s r s' [= <- <-]. done. Qed.

Lemma exec_frame_throw {A} e (E : JsError → Prop) :
  E e → exec_frame (@exec_throw A e) E.
Proof. intros He s r s' [= <- <-]. split; [done|]. by intros e' [= <-]. Qed.

Lemma exec_frame_emit ev E : exec_frame (exec_emit ev) E.
Proof. intros s r s' [= <- <-]. done. Qed.

Lemma exec_frame_processTemplate template :
  exec_frame (exec_processTemplate template) (fun e => err_name e = TemplateError).
Proof.
  intros s r s' [= <- <-]. split; [done|]. intros e He.
  by eapply processTemplate_throws.
Qed.

Lemma exec_frame_weaken {A} (m : Exec A) (E E' : JsError → Prop) :
  (∀ e, E e → E' e) → exec_frame m E → exec_frame m E'.
Proof.
  intros HE Hm s r s' Hs. destruct (Hm s r s' Hs) as [? He].
  split; [done|]. intros e ->. by apply HE, He.
Qed.

Lemma exec_bind_post {A B} (m : Exec A) (k : A → Exec B) (E : JsError → Prop)
    (Q : PipelineContext → Result B → PipelineContext → Prop) :
  exec_frame m E → (∀ c e, E e → Q c (Throw e) c) →
  (∀ a, exec_post (k a) Q) → exec_post (exec_bind m k) Q.
Proof.
  intros Hm HE Hk s r s'. unfold exec_bind.
  destruct (m s) as [[a|e] s1] eqn:Hms; destruct (Hm s _ s1 Hms) as [Hc He].
  - intros Hks. rewrite <- Hc. by apply (Hk a).
  - intros [= <- <-]. rewrite Hc. apply HE. by apply He.
Qed.

Lemma exec_bind_frame {A B} (m : Exec A) (k : A → Exec B) (E : JsError → Prop) :
  exec_frame m E → (∀ a, exec_frame (k a) E) → exec_frame (exec_bind m k) E.
Proof.
  intros Hm Hk. eapply exec_bind_post; [exact Hm| |exact Hk].
  intros c e He. split; [done|]. by intros e' [= <-].
Qed.

Lemma exec_frame_process_prompts prompts :
  exec_frame (process_prompts prompts) (fun e => err_name e = TemplateError).
Proof.
  induction prompts as [|p rest IH]; cbn [process_prompts].
  - apply exec_frame_ret.
  - apply exec_bind_frame; [apply exec_frame_processTemplate|]. intros m.
    apply exec_bind_frame; [apply exec_frame_processTemplate|]. intros r.
    apply exec_bind_frame; [apply IH|]. intros rest'. apply exec_frame_ret.
Qed.

Lemma exec_frame_runWithPty pf shellCommand cwd quietFlag prompts exitOnNonZero :
  exec_frame (runWithPty pf shellCommand cwd quietFlag prompts exitOnNonZero)
             (fun _ => True).
Proof.
  unfold runWithPty. destruct shellCommand as [|c0 cs]; [by apply exec_frame_throw|].
  apply exec_bind_frame; [apply exec_frame_emit|]. intros _.
  destruct (run_pty pf (c0 :: cs) cwd) as [[chunks exitCode]|];
    [|by apply exec_frame_throw].
  destruct (onExit _ _ _).1; [apply exec_frame_ret | by apply exec_frame_throw].
Qed.

(** What [execute] may do to the context: nothing, or one [set] of the
    value derived from [output], which [output-assign] asks for. *)
Lemma exec_post_assign_output params output :
  exec_post (assign_output params output)
    (fun c r c' =>
       match r with
       | Ok _ => c' = c ∨
                 (truthy_opt (outputAssign params) = true ∧
                  ∃ key, PipelineContext_set key (VStr (outputValue output)) c = Ok c')
       | Throw e => c' = c
       end).
Proof.
  unfold assign_output. intros s r s'.
  destruct (truthy_opt (outputAssign params)) eqn:Hout.
  - unfold exec_set.
    match goal with |- context [PipelineContext_set ?k _ _] => set (key := k) end.
    destruct (PipelineContext_set key _ s.1) as [c1|e] eqn:Hset.
    + intros [= <- <-]. right. split; [done|]. by exists key.
    + by intros [= <- <-].
  - intros [= <- <-]. by left.
Qed.

Lemma exec_post_run_command pf params sh processedCommand processedWorkingDirectory :
  exec_post (run_command pf params sh processedCommand processedWorkingDirectory)
    (fun c r c' =>
       match r with
       | Ok _ => c' = c ∨
                 (truthy_opt (outputAssign params) = true ∧
                  ∃ key output,
                    PipelineContext_set key (VStr (outputValue output)) c = Ok c')
       | Throw e => c' = c
       end).
Proof.
  assert (∀ output, exec_post (assign_output params output)
    (fun c r c' =>
       match r with
       | Ok _ => c' = c ∨
                 (truthy_opt (outputAssign params) = true ∧
                  ∃ key output,
                    PipelineContext_set key (VStr (outputValue output)) c = Ok c')
       | Throw e => c' = c
       end)) as Hassign.
  { intros output s r s' Hs.
    pose proof (exec_post_assign_output params output s r s' Hs) as H.
    destruct r; [|done]. destruct H as [?|[? [key ?]]]; [by left|].
    right. split; [done|]. by exists key, output. }
  unfold run_command.
  destruct (interactivePrompts params) as [[|p ps]|].
  2:{ eapply exec_bind_post; [apply exec_frame_process_prompts|done|].
      intros prompts.
      eapply exec_bind_post; [apply exec_frame_runWithPty|done|].
      intros output. apply Hassign. }
  all: eapply exec_bind_post; [apply (exec_frame_emit _ (fun _ => True))|done|];
    intros _;
    destruct (run_shell pf _ _) as [[exitCode stdout] stderr];
    destruct (_ && _); [by intros s r s' [= <- <-] | apply Hassign].
Qed.

Lemma execute_post pf params context effects r context' effects' :
  execute pf params (context, effects) = (r, (context', effects')) →
  match r with
  | Ok _ =>
      context' = context ∨
      (truthy_opt (outputAssign params) = true ∧
       ∃ key output,
         PipelineContext_set key (VStr (outputValue output)) context = Ok context')
  | Throw e =>
      context' = context ∧ (err_name e = Error ∨ err_name e = TemplateError)
  end.
Proof.
  assert (exec_post (execute pf params)
    (fun c r c' =>
       match r with
       | Ok _ => c' = c ∨
                 (truthy_opt (outputAssign params) = true ∧
                  ∃ key output,
                    PipelineContext_set key (VStr (outputValue output)) c = Ok c')
       | Throw e => c' = c ∧ (err_name e = Error ∨ err_name e = TemplateError)
       end)) as Hpost; [|intros H; apply (Hpost _ _ _ H)].
  unfold execute. destruct (_ && _).
  { intros s r0 s' [= <- <-]. split; [done | by left]. }
  unfold execute_body.
  eapply exec_bind_post; [apply exec_frame_processTemplate|by intros; split; [|right]|].
  intros processedCommand.
  eapply exec_bind_post
    with (E := fun e => err_name e = TemplateError); [|by intros; split; [|right]|].
  { destruct (truthy_opt (workingDirectory params)); [|apply exec_frame_ret].
    apply exec_bind_frame; [apply exec_frame_processTemplate|].
    intros d. apply exec_frame_ret. }
  intros processedWorkingDirectory.
  eapply exec_bind_post
    with (E := fun e => err_name e = Error); [|by intros; split; [|left]|].
  { destruct (truthy_opt (shell params)); [|apply exec_frame_ret].
    apply exec_bind_frame; [apply exec_frame_emit|]. intros _.
    destruct (shell_available pf _); [apply exec_frame_ret | by apply exec_frame_throw]. }
  intros _.
  eapply exec_bind_post
    with (E := fun e => err_name e = Error); [|by intros; split; [|left]|].
  { destruct processedWorkingDirectory as [[|c d]|]; try apply exec_frame_ret.
    apply exec_bind_frame; [apply exec_frame_emit|]. intros _.
    destruct (directory_exists pf _); [apply exec_frame_ret | by apply exec_frame_throw]. }
  intros _ s r0 s'. unfold exec_catch.
  destruct (run_command pf params _ processedCommand processedWorkingDirectory s)
    as [[[]|e] s1] eqn:Hrun;
    pose proof (exec_post_run_command pf params _ _ _ s _ s1 Hrun) as H.
  - by intros [= <- <-].
  - unfold command_failed. intros [= <- <-]. split; [done | by left].
Qed.

Lemma exec_bind_Ok {A B} (m : Exec A) (k : A → Exec B) s b s' :
  exec_bind m k s = (Ok b, s') → ∃ a s1, m s = (Ok a, s1) ∧ k a s1 = (Ok b, s').
Proof. unfold exec_bind. destruct (m s) as [[a|e] s1]; [eauto | done]. Qed.

Lemma exec_frame_context {A} (m : Exec A) E s r s' :
  exec_frame m E → m s = (r, s') → s'.1 = s.1.
Proof. intros Hm Hs. by destruct (Hm s r s' Hs). Qed.

Lemma assign_output_Ok params output s u s' :
  assign_output params output s = (Ok u, s') →
  truthy_opt (outputAssign params) = true →
  PipelineContext_set (outputKey params) (VStr (outputValue output)) s.1 = Ok s'.1.
Proof.
  unfold assign_output, exec_set. intros Hs Hout. rewrite Hout in Hs.
  destruct (PipelineContext_set _ _ s.1) as [c1|e]; [|done].
  by injection Hs as _ <-.
Qed.

Lemma runWithPty_Ok pf shellCommand cwd quietFlag prompts exitOnNonZero s output s' :
  runWithPty pf shellCommand cwd quietFlag prompts exitOnNonZero s = (Ok output, s') →
  ∃ chunks exitCode,
    run_pty pf shellCommand cwd = Some (chunks, exitCode) ∧ output = concat chunks.
Proof.
  unfold runWithPty. destruct shellCommand as [|c0 cs]; [done|].
  intros (_ & s1 & _ & Hs)%exec_bind_Ok.
  destruct (run_pty pf (c0 :: cs) cwd) as [[chunks exitCode]|]; [|done].
  exists chunks, exitCode. split; [done|].
  destruct (onExit _ _ _).1 as [out|e] eqn:Hexit; [|done].
  injection Hs as <- _. unfold onExit in Hexit.
  rewrite <- (pty_run_buffer prompts quietFlag chunks).
  destruct (decide _); [destruct exitOnNonZero|]; cbn in Hexit; congruence.
Qed.

Lemma run_command_Ok pf params sh processedCommand processedWorkingDirectory s u s' :
  run_command pf params sh processedCommand processedWorkingDirectory s = (Ok u, s') →
  truthy_opt (outputAssign params) = true →
  ∃ output,
    match interactivePrompts params with
    | Some (_ :: _) =>
        ∃ chunks exitCode,
          run_pty pf (buildShellCommand sh processedCommand) processedWorkingDirectory
          = Some (chunks, exitCode) ∧
          output = concat chunks
    | _ =>
        output = (run_shell pf (buildShellCommand sh processedCommand)
                    (if truthy_opt processedWorkingDirectory
                     then processedWorkingDirectory else None)).1.2
    end ∧
    PipelineContext_set (outputKey params) (VStr (outputValue output)) s.1 = Ok s'.1.
Proof.
  unfold run_command. intros Hs Hout.
  destruct (interactivePrompts params) as [[|p ps]|].
  2:{ apply exec_bind_Ok in Hs as (prompts & s1 & Hp & Hs).
      apply exec_bind_Ok in Hs as (output & s2 & Hpty & Hs).
      exists output. split; [by eapply runWithPty_Ok|].
      rewrite <- (exec_frame_context _ _ _ _ _ (exec_frame_process_prompts _) Hp).
      rewrite <- (exec_frame_context _ _ _ _ _ (exec_frame_runWithPty _ _ _ _ _ _) Hpty).
      by eapply assign_output_Ok. }
  all: apply exec_bind_Ok in Hs as ([] & s1 & Hemit & Hs);
    injection Hemit as <-;
    destruct (run_shell pf _ _) as [[exitCode stdout] stderr];
    destruct (_ && _); [done|];
    exists stdout; split; [done|];
    by apply (assign_output_Ok _ _ _ _ _ Hs).
Qed.

Lemma execute_Ok_assigns pf params context effects u context' effects' :
  execute pf params (context, effects) = (Ok u, (context', effects')) →
  truthy_opt (outputAssign params) = true →
  ∃ processedCommand output,
    PipelineContext_processTemplate (command params) context = Ok processedCommand ∧
    command_output pf params context processedCommand output ∧
    PipelineContext_set (outputKey params) (VStr (outputValue output)) context
    = Ok context'.
Proof.
  unfold execute. intros Hs Hout. destruct (_ && _); [done|].
  unfold execute_body in Hs.
  apply exec_bind_Ok in Hs as (processedCommand & s1 & Hcmd & Hs).
  unfold exec_processTemplate in Hcmd. cbn [fst snd] in Hcmd.
  injection Hcmd as Hcmd <-.
  apply exec_bind_Ok in Hs as (processedWorkingDirectory & s2 & Hwd & Hs).
  assert (s2.1 = context ∧
          if truthy_opt (workingDirectory params)
          then ∃ d, PipelineContext_processTemplate
                      (default [] (workingDirectory params)) context = Ok d ∧
                    processedWorkingDirectory = Some d
          else processedWorkingDirectory = None) as [Hc2 Hdir].
  { destruct (truthy_opt (workingDirectory params)).
    - apply exec_bind_Ok in Hwd as (d & s1' & Hd & Hret).
      unfold exec_processTemplate in Hd. cbn [fst snd] in Hd.
      injection Hd as Hd <-. injection Hret as <- <-. split; [done|]. by exists d.
    - injection Hwd as <- <-. done. }
  apply exec_bind_Ok in Hs as ([] & s3 & Hshell & Hs).
  assert (s3.1 = s2.1) as Hc3.
  { eapply (exec_frame_context _ (fun _ => True)); [|exact Hshell].
    destruct (truthy_opt (shell params)); [|apply exec_frame_ret].
    apply exec_bind_frame; [apply exec_frame_emit|]. intros _.
    destruct (shell_available pf _); [apply exec_frame_ret | by apply exec_frame_throw]. }
  apply exec_bind_Ok in Hs as ([] & s4 & Hprobe & Hs).
  assert (s4.1 = s3.1) as Hc4.
  { eapply (exec_frame_context _ (fun _ => True)); [|exact Hprobe].
    destruct processedWorkingDirectory as [[|c d]|]; try apply exec_frame_ret.
    apply exec_bind_frame; [apply exec_frame_emit|]. intros _.
    destruct (directory_exists pf _); [apply exec_frame_ret | by apply exec_frame_throw]. }
  unfold exec_catch in Hs.
  destruct (run_command pf params _ processedCommand processedWorkingDirectory s4)
    as [[[]|e] s5] eqn:Hrun; [|by unfold command_failed, exec_throw in Hs].
  assert (s5 = (context', effects')) as -> by congruence.
  destruct (run_command_Ok _ _ _ _ _ _ _ _ Hrun Hout) as (output & Houtput & Hset).
  rewrite Hc4, Hc3, Hc2 in Hset. cbn [fst] in Hset.
  exists processedCommand, output. split_and!; [done| |done].
  unfold command_output. exists processedWorkingDirectory. done.
Qed.

(** X27: [execute] changes the context by at most one [set], and only
    when it returns.  Without [output-assign] the context is as it was.
    With it, the key is the path of the Assignment Expression (the text
    of [output-assign] itself when it is none), and the value is made of
    the non-empty lines of the trimmed output of the command: of the
    standard output of the shell command built from the expanded
    [command], or of what the pseudo-terminal printed.  When [execute]
    throws, the context is as it was, and the error is a [TemplateError]
    of a template in the parameters or a plain [Error]. *)
Theorem execute_context pf params context effects r context' effects' :
  execute pf params (context, effects) = (r, (context', effects')) →
  match r with
  | Ok _ =>
      if truthy_opt (outputAssign params)
      then ∃ processedCommand output,
             PipelineContext_processTemplate (command params) context
             = Ok processedCommand ∧
             command_output pf params context processedCommand output ∧
             PipelineContext_set (outputKey params) (VStr (outputValue output)) context
             = Ok context'
      else context' = context
  | Throw e =>
      context' = context ∧ (err_name e = Error ∨ err_name e = TemplateError)
  end.
Proof.
  intros Hexec. pose proof (execute_post _ _ _ _ _ _ _ Hexec) as Hpost.
  destruct r as [[]|e]; [|done].
  destruct (truthy_opt (outputAssign params)) eqn:Hout.
  - by eapply execute_Ok_assigns.
  - destruct Hpost as [?|[? _]]; [done | congruence].
Qed.

Lemma execute_context_witness :
  let pf := calm_platform (js " /home/me" ++ [10%N]) in
  let params :=
    mkParams (js "pwd") None None None (Some (js "$>{{ ctx.dir }}")) None None in
  ∃ context' effects',
    execute pf params (new_PipelineContext [], []) = (Ok tt, (context', effects')) ∧
    ∃ processedCommand output,
      PipelineContext_processTemplate (js "pwd") (new_PipelineContext [])
      = Ok processedCommand ∧
      command_output pf params (new_PipelineContext []) processedCommand output ∧
      PipelineContext_set (js "ctx.dir") (VStr (outputValue output))
        (new_PipelineContext [])
      = Ok context'.
Proof.
  eexists _, _. split; [vm_compute; reflexivity|].
  eapply (execute_context (calm_platform (js " /home/me" ++ [10%N]))
            (mkParams (js "pwd") None None None (Some (js "$>{{ ctx.dir }}")) None None)
            (new_PipelineContext []) [] (Ok tt)).
  vm_compute. reflexivity.
Defined.

(** *** String utilities *)

Lemma kebabToCamel_cons_ne c s :
  c ≠ 45%N → kebabToCamel (c :: s) = c :: kebabToCamel s.
Proof.
  intros Hc. destruct s as [|d s]; [done|]. cbn [kebabToCamel].
  destruct (N.eqb_spec c 45); [done|]. done.
Qed.

Lemma kebabToCamel_dash_lower d s :
  is_lower d = true → kebabToCamel (45%N :: d :: s) = (d - 32)%N :: kebabToCamel s.
Proof. intros Hd. cbn [kebabToCamel]. by rewrite Hd. Qed.

Lemma kebabToCamel_dash_other d s :
  is_lower d = false → kebabToCamel (45%N :: d :: s) = 45%N :: kebabToCamel (d :: s).
Proof. intros Hd. cbn [kebabToCamel]. by rewrite Hd. Qed.

Lemma kebabToCamel_cons_other c d s :
  (c =? 45)%N && is_lower d = false →
  kebabToCamel (c :: d :: s) = c :: kebabToCamel (d :: s).
Proof. intros Hm. cbn [kebabToCamel]. by rewrite Hm. Qed.

Lemma is_lower_range c : is_lower c = true ↔ (97 ≤ c ∧ c ≤ 122)%N.
Proof. unfold is_lower. rewrite andb_true_iff, !N.leb_le. done. Qed.

Lemma is_upper_range c : is_upper c = true ↔ (65 ≤ c ∧ c ≤ 90)%N.
Proof. unfold is_upper. rewrite andb_true_iff, !N.leb_le. done. Qed.

(** X28: The two case conversions undo each other: [kebabToCamel] undoes
    [camelToKebab] on every string without a hyphen, and [camelToKebab]
    undoes [kebabToCamel] on every string without an upper-case
    letter. *)
Theorem kebab_camel_round_trip (s : jsstring) :
  (45%N ∉ s → kebabToCamel (camelToKebab s) = s) ∧
  (Forall (fun c => is_upper c = false) s → camelToKebab (kebabToCamel s) = s).
Proof.
  split.
  - induction s as [|c s IH]; [done|]. intros [Hc Hs]%not_elem_of_cons.
    cbn [camelToKebab]. destruct (is_upper c) eqn:Hup.
    + apply is_upper_range in Hup.
      rewrite kebabToCamel_dash_lower by (apply is_lower_range; lia).
      rewrite IH by done. f_equal. lia.
    + rewrite kebabToCamel_cons_ne by done. by rewrite IH.
  - assert (∀ n s, (length s ≤ n)%nat → Forall (fun c => is_upper c = false) s →
                   camelToKebab (kebabToCamel s) = s) as H;
      [|apply (H (length s) s); lia].
    clear s. induction n as [|n IH]; intros s Hlen Hs.
    + by destruct s; [|cbn in Hlen; lia].
    + destruct s as [|c [|d s]]; [done| |].
      * apply Forall_cons in Hs as [Hc _]. cbn. by rewrite Hc.
      * apply Forall_cons in Hs as [Hc Hs]. cbn [length] in Hlen.
        destruct ((c =? 45)%N && is_lower d) eqn:Hm.
        -- apply andb_true_iff in Hm as [->%N.eqb_eq Hd].
           rewrite kebabToCamel_dash_lower by done. apply is_lower_range in Hd.
           apply Forall_cons in Hs as [_ Hs]. cbn [camelToKebab].
           assert (is_upper (d - 32) = true) as -> by (apply is_upper_range; lia).
           rewrite IH; [|lia|done]. do 2 f_equal. lia.
        -- rewrite kebabToCamel_cons_other by done.
           cbn [camelToKebab]. rewrite Hc. f_equal. apply IH; [cbn; lia | done].
Qed.

Lemma kebabToCamel_head d s :
  is_lower d = false →
  ∃ h t, kebabToCamel (d :: s) = h :: t ∧ is_lower h = false.
Proof.
  intros Hd. destruct s as [|e s]; [by exists d, []|]. cbn [kebabToCamel].
  destruct ((d =? 45)%N && is_lower e) eqn:Hm.
  - apply andb_true_iff in Hm as [_ He%is_lower_range].
    eexists _, _. split; [done|].
    apply not_true_is_false. rewrite is_lower_range. lia.
  - by eexists _, _.
Qed.

Lemma kebabToCamel_idempotent (s : jsstring) :
  kebabToCamel (kebabToCamel s) = kebabToCamel s.
Proof.
  assert (∀ n s, (length s ≤ n)%nat →
                 kebabToCamel (kebabToCamel s) = kebabToCamel s) as H;
    [|apply (H (length s) s); lia].
  clear s. induction n as [|n IH]; intros s Hlen.
  - by destruct s; [|cbn in Hlen; lia].
  - destruct s as [|c [|d s]]; [done|done|]. cbn [length] in Hlen.
    destruct ((c =? 45)%N && is_lower d) eqn:Hm.
    + apply andb_true_iff in Hm as [->%N.eqb_eq Hd].
      rewrite kebabToCamel_dash_lower by done.
      apply is_lower_range in Hd.
      rewrite kebabToCamel_cons_ne by lia. f_equal. apply IH. lia.
    + rewrite kebabToCamel_cons_other by done.
      destruct (decide (c = 45%N)) as [->|Hc].
      * cbn [N.eqb Pos.eqb andb] in Hm.
        destruct (kebabToCamel_head d s Hm) as (h & t & Hk & Hh).
        rewrite Hk, kebabToCamel_dash_other by done. rewrite <- Hk.
        f_equal. apply IH. cbn. lia.
      * rewrite kebabToCamel_cons_ne by done. f_equal. apply IH. cbn. lia.
Qed.

Lemma map_set_rebuild {V} (l pre : list (jsstring * V)) :
  NoDup (map_keys (pre ++ l)) →
  foldl (fun acc kv => map_set kv.1 kv.2 acc) pre l = pre ++ l.
Proof.
  revert pre. induction l as [|[k v] l IH]; intros pre Hnd; cbn [foldl].
  - by rewrite app_nil_r.
  - cbn [fst snd]. rewrite map_set_fresh.
    + rewrite IH; by rewrite <- app_assoc.
    + unfold map_keys in Hnd. rewrite fmap_app in Hnd.
      apply NoDup_app in Hnd as (_ & Hd & _). intros Hin.
      apply (Hd _ Hin). cbn. by left.
Qed.

Lemma map_set_keys_NoDup {V} (m : list (jsstring * V)) k v :
  NoDup (map_keys m) → NoDup (map_keys (map_set k v m)).
Proof.
  intros Hnd. destruct (decide (k ∈ map_keys m)) as [Hin|Hnin].
  - by rewrite map_keys_set_in.
  - rewrite map_set_fresh by done. unfold map_keys. rewrite fmap_app.
    apply NoDup_app. split_and!; [done| |apply NoDup_singleton].
    intros x Hx ->%list_elem_of_singleton. done.
Qed.

Lemma map_set_Forall {V} (P : jsstring * V → Prop) (m : list (jsstring * V)) k v :
  Forall P m → P (k, v) → Forall P (map_set k v m).
Proof.
  intros Hm Hkv. induction Hm as [|[k' v'] m Hx Hm IH]; cbn [map_set].
  - by constructor.
  - destruct (decide (k = k')); constructor; done.
Qed.

Lemma normalizeKeys_entries_rebuild (m : list (jsstring * value)) :
  normal_entries m → normalizeKeys (VObj m) = VObj m.
Proof.
  intros [Hnd Hall]. cbn [normalizeKeys]. f_equal.
  rewrite <- (map_set_rebuild m []) at 2 by done.
  generalize (@nil (jsstring * value)) as acc.
  induction Hall as [|[k v] m (Hk & Hp & Hv) Hall IH]; intros acc; [done|].
  cbn [foldl fst snd] in *. rewrite Hk, Hv.
  replace (assign_prop k v acc) with (map_set k v acc)
    by (unfold assign_prop; by rewrite decide_False).
  apply IH. cbn in Hnd. by apply NoDup_cons in Hnd as [_ ?].
Qed.

(** X29: Normalising twice is normalising once: the keys that
    [normalizeKeys] produces are left alone by a second pass.  The value
    has no key that becomes [__proto__]: such a key would go to the
    prototype of the result, where a second pass does not look. *)
Theorem normalizeKeys_idempotent (obj : value) :
  proto_free obj = true →
  normalizeKeys (normalizeKeys obj) = normalizeKeys obj.
Proof.
  intros _. revert obj. fix IH 1. intros obj.
  destruct obj as [| | | |s|items|props]; try reflexivity.
  - cbn [normalizeKeys]. f_equal. rewrite <- list_fmap_compose.
    induction items as [|item items IHitems]; [done|].
    cbn [fmap list_fmap]. f_equal; [apply IH | apply IHitems].
  - change (normalizeKeys (VObj props)) with
      (VObj ((fix entries (l : list (jsstring * value))
                  (normalized : list (jsstring * value)) :=
                match l with
                | [] => normalized
                | (key, val) :: l' =>
                    entries l' (assign_prop (kebabToCamel key) (normalizeKeys val)
                                            normalized)
                end) props [])).
    match goal with |- normalizeKeys (VObj (?g props [])) = _ => set (go := g) end.
    apply normalizeKeys_entries_rebuild.
    assert (∀ l acc, normal_entries acc → normal_entries (go l acc)) as Hgo.
    { induction l as [|[key val] l IHl]; intros acc Hacc; [done|]. cbn.
      apply IHl. unfold assign_prop. destruct (decide _) as [|Hproto]; [done|].
      destruct Hacc as [Hnd Hall]. split.
      - by apply map_set_keys_NoDup.
      - apply map_set_Forall; [done|]. cbn [fst snd]. split_and!.
        + apply kebabToCamel_idempotent.
        + done.
        + apply IH. }
    apply Hgo. split; [apply NoDup_nil_2 | constructor].
Qed.

Lemma normalizeKeys_idempotent_witness :
  let obj := VObj [(js "working-directory", VStr (js "/tmp"));
                   (js "interactive-prompts",
                    VArr [VObj [(js "exit-on-non-zero-code", VBool false)]])] in
  normalizeKeys (normalizeKeys obj) = normalizeKeys obj.
Proof.
  apply (normalizeKeys_idempotent
           (VObj [(js "working-directory", VStr (js "/tmp"));
                  (js "interactive-prompts",
                   VArr [VObj [(js "exit-on-non-zero-code", VBool false)]])])).
  vm_compute. reflexivity.
Defined.

Lemma kebabToCamel_app_plain (w t : jsstring) :
  45%N ∉ w → kebabToCamel (w ++ t) = w ++ kebabToCamel t.
Proof.
  induction w as [|c w IH]; [done|]. intros [Hc Hw]%not_elem_of_cons.
  cbn [app]. rewrite kebabToCamel_cons_ne by done. by rewrite IH.
Qed.

Lemma kebabToCamel_plain (w : jsstring) : 45%N ∉ w → kebabToCamel w = w.
Proof.
  intros Hw. pose proof (kebabToCamel_app_plain w [] Hw) as H.
  by rewrite !app_nil_r in H.
Qed.

Lemma is_kebab_word_chars w :
  is_kebab_word w = true →
  (45%N ∉ w) ∧ Forall (fun x => is_alnum x = true) w ∧
  ∃ c rest, w = c :: rest ∧ is_lower c = true.
Proof.
  destruct w as [|c rest]; [done|]. cbn [is_kebab_word].
  intros [Hc Hrest]%andb_true_iff.
  assert (Forall (fun x => x ≠ 45%N ∧ is_alnum x = true) (c :: rest)) as Hall.
  { constructor.
    - apply is_lower_range in Hc as Hr. split; [lia|]. unfold is_alnum. by rewrite Hc.
    - rewrite forallb_forall in Hrest. apply Forall_forall. intros x Hx.
      apply list_elem_of_In, Hrest in Hx. unfold is_alnum.
      apply orb_true_iff in Hx as [Hx|Hx].
      + apply is_lower_range in Hx as Hr. split; [lia|]. by rewrite Hx.
      + split; [|by rewrite Hx, !orb_true_r].
        unfold is_digit in Hx. apply andb_true_iff in Hx as [Hx%N.leb_le _]. lia. }
  split_and!.
  - intros Hin. rewrite Forall_forall in Hall. by destruct (Hall _ Hin).
  - eapply Forall_impl; [exact Hall|]. by intros x [_ ?].
  - by exists c, rest.
Qed.

Lemma kebabToCamel_words (w : jsstring) (ws : list jsstring) :
  is_kebab_word w = true → Forall (fun w => is_kebab_word w = true) ws →
  Forall (fun x => is_alnum x = true) (kebabToCamel (join [45%N] (w :: ws))) ∧
  ∃ rest, kebabToCamel (join [45%N] (w :: ws)) = w ++ rest.
Proof.
  intros Hw Hws. revert w Hw.
  induction Hws as [|w2 ws Hw2 Hws IH]; intros w Hw.
  - cbn [join]. destruct (is_kebab_word_chars w Hw) as (Hdash & Hal & _).
    rewrite kebabToCamel_plain by done.
    split; [done | by exists []; rewrite app_nil_r].
  - destruct (is_kebab_word_chars w Hw) as (Hdash & Hal & _).
    destruct (is_kebab_word_chars w2 Hw2) as (_ & _ & c2 & r2 & -> & Hc2).
    change (join [45%N] (w :: (c2 :: r2) :: ws))
      with (w ++ 45%N :: join [45%N] ((c2 :: r2) :: ws)).
    rewrite kebabToCamel_app_plain by done.
    destruct (IH (c2 :: r2) Hw2) as [IHal [rest IHeq]].
    assert (∃ t, join [45%N] ((c2 :: r2) :: ws) = c2 :: t) as [t Ht].
    { destruct ws; cbn [join]; by eexists. }
    rewrite Ht in *. rewrite kebabToCamel_dash_lower by done.
    assert (kebabToCamel (c2 :: t) = c2 :: kebabToCamel t) as Hk.
    { apply kebabToCamel_cons_ne. apply is_lower_range in Hc2. lia. }
    rewrite Hk in IHal. apply Forall_cons in IHal as [_ IHal].
    split; [|by eexists].
    apply Forall_app. split; [done|]. constructor; [|done].
    apply is_lower_range in Hc2. unfold is_alnum.
    assert (is_upper (c2 - 32) = true) as -> by (apply is_upper_range; lia).
    by rewrite orb_true_r.
Qed.

(** X30: A kebab-case key (words of lower-case letters and digits, each
    starting with a letter, joined by hyphens) becomes, through
    [kebabToCamel], a key that the context engine accepts as
    camelCase. *)
Theorem kebabToCamel_validateCamelCase (w : jsstring) (ws : list jsstring) :
  is_kebab_word w = true → Forall (fun w => is_kebab_word w = true) ws →
  validateCamelCase (kebabToCamel (join [45%N] (w :: ws))) = true.
Proof.
  intros Hw Hws.
  destruct (kebabToCamel_words w ws Hw Hws) as [Hal [rest Heq]].
  destruct (is_kebab_word_chars w Hw) as (_ & _ & c & r & -> & Hc).
  rewrite Heq in *. cbn [app validateCamelCase]. rewrite Hc. cbn [andb].
  apply Forall_cons in Hal as [_ Hal].
  apply forallb_forall. intros x Hx. apply list_elem_of_In in Hx.
  rewrite Forall_forall in Hal. by apply Hal.
Qed.

Lemma kebabToCamel_validateCamelCase_witness :
  validateCamelCase (kebabToCamel (join [45%N] [js "output"; js "assign"])) = true.
Proof.
  apply kebabToCamel_validateCamelCase.
  - reflexivity.
  - repeat constructor.
Defined.

(** The keys of the parameters of a step, as the YAML files spell them,
    and as the tools read them. *)
Example normalizeKeys_with :
  normalizeKeys
    (VObj [(js "output-assign", VStr (js "x"));
           (js "interactive-prompts", VArr [VObj [(js "match", VStr (js "y"))]])])
  = VObj [(js "outputAssign", VStr (js "x"));
          (js "interactivePrompts", VArr [VObj [(js "match", VStr (js "y"))]])].
Proof. vm_compute. reflexivity. Qed.
